(** * Field-aware evaluation engine (eval-script-2.py), prediction script
      (prediction_setups/perplexity-chain-data.py) and model-output
      comparison (eval-script.py): a shallow embedding

    The embedding follows [src/eval-script-2.py] function by function; the
    prediction script that produces its input and the comparison of
    [src/eval-script.py] are embedded after it.

    - Python [str] values are [string]s of ASCII characters; [str.lower]
      maps [A-Z] to [a-z] and leaves every other character alone.
    - Python [dict]s read with [.get] are [gmap]s; dict literals whose
      iteration order is observable are association lists.
    - [difflib.SequenceMatcher] (CPython 3.11, [Lib/difflib.py]) is embedded
      in full: [__chain_b] with the automatic "popular element" purge,
      [find_longest_match], [get_matching_blocks] and [ratio].
    - Numbers obtained as one quotient of two integers ([ratio], precision,
      recall, rates) are kept as the exact rational [Q] that the binary64
      result rounds. The tests the code makes on them ([> 0.9] on a ratio
      [2 * matches / length]) have the same outcome on the rational and on
      its binary64 rounding as long as the lengths stay below [2^49].
      Numbers computed further are computed in binary64 ([PrimFloat]): the
      cosine similarity, which goes through a square root, and the F1 score,
      which multiplies, adds and divides the rounded precision and recall.
    - [CountVectorizer] and [cosine_similarity] (scikit-learn) are embedded
      by what they compute on a corpus of two documents: the sorted
      vocabulary, the two CSR rows, their L2 normalisation and the sparse
      product.
    - Exceptions are values of [exn] carried by the [py] error monad.
    - Values decoded by [json.loads] are values of [json]; the Perplexity
      API is a parameter of the loop of [main]. *)

From Stdlib Require Import ZArith QArith Qreduction Lqa Ascii String List Bool Lia PrimFloat.
From Stdlib Require DecimalString DecimalN DecimalPos.
From stdpp Require Import base option list gmap strings fin_maps.

Local Open Scope nat_scope.

(** ** Strings *)

Definition lower_ascii (c : ascii) : ascii :=
  let n := nat_of_ascii c in
  if (65 <=? n) && (n <=? 90) then ascii_of_nat (n + 32) else c.

(** [str.lower()] on the 8-bit characters of the model: the letters A-Z
    go to a-z and every other character is kept. Python lowers by the
    Unicode tables, where a character can become several; the statements
    on [calculate_similarity] are about the lowered strings, and the only
    fact on lengths they use is that a text that is not empty is not
    lowered to the empty string. *)
Fixpoint lower (s : string) : string :=
  match s with
  | EmptyString => EmptyString
  | String c s' => String (lower_ascii c) (lower s')
  end.

(** ** difflib.SequenceMatcher *)

(** [Match(a, b, size)] *)
Definition Match : Type := nat * nat * nat.

Definition match_size (m : Match) : nat := snd m.

Section SequenceMatcher.
Context {A : Type} `{Countable A}.

(** The two sequences, [self.a] and [self.b]. *)
Variables (a b : list A).

(** [enumerate(b)] *)
Definition enumerate (l : list A) : list (nat * A) :=
  combine (seq 0 (length l)) l.

(** First loop of [__chain_b]:
    [indices = b2j.setdefault(elt, []); indices.append(i)]. *)
Definition chain_step (b2j : gmap A (list nat)) (ie : nat * A) : gmap A (list nat) :=
  <[ snd ie := default [] (b2j !! snd ie) ++ [fst ie] ]> b2j.

Definition b2j_full : gmap A (list nat) :=
  fold_left chain_step (enumerate b) ∅.

(** [isjunk] is [None]: the junk set stays empty. *)
Definition bjunk : gset A := ∅.

Definition isbjunk (x : A) : bool := bool_decide (x ∈ bjunk).

(** [ntest = n // 100 + 1] *)
Definition ntest : nat := length b / 100 + 1.

(** Purge of popular elements: [autojunk] is [True] by default, so for
    [len(b) >= 200] every key with more than [ntest] indices is deleted. *)
Definition b2j : gmap A (list nat) :=
  if 200 <=? length b
  then filter (λ kv : A * list nat, length (snd kv) <= ntest) b2j_full
  else b2j_full.

(** [j2lenget(j-1, 0)]: the key [-1] is never present. *)
Definition j2lenget (j2len : gmap nat nat) (j : nat) : nat :=
  match j with
  | O => 0
  | S j' => default 0 (j2len !! j')
  end.

(** The inner loop [for j in b2j.get(a[i], nothing)] of
    [find_longest_match]; [best] is [(besti, bestj, bestsize)]. *)
Fixpoint scan_row (i blo bhi : nat) (j2len : gmap nat nat) (js : list nat)
    (newj2len : gmap nat nat) (best : Match) : gmap nat nat * Match :=
  match js with
  | [] => (newj2len, best)
  | j :: js' =>
      if j <? blo then scan_row i blo bhi j2len js' newj2len best
      else if bhi <=? j then (newj2len, best)
      else
        let k := j2lenget j2len j + 1 in
        let newj2len := <[ j := k ]> newj2len in
        let best := if match_size best <? k then (i + 1 - k, j + 1 - k, k) else best in
        scan_row i blo bhi j2len js' newj2len best
  end.

(** One iteration of [for i in range(alo, ahi)]. The index [i] is always
    below [len(a)], so the [None] branch (an [IndexError] in Python) is
    never taken. *)
Definition scan_step (blo bhi : nat) (st : gmap nat nat * Match) (i : nat)
    : gmap nat nat * Match :=
  match a !! i with
  | Some x => scan_row i blo bhi (fst st) (default [] (b2j !! x)) ∅ (snd st)
  | None => (∅, snd st)
  end.

Definition scan_rows (alo ahi blo bhi : nat) : gmap nat nat * Match :=
  fold_left (scan_step blo bhi) (seq alo (ahi - alo)) (∅, (alo, blo, 0)).

(** [a[i] == b[j]] for indices that are in range. *)
Definition elem_eqb (x y : option A) : bool :=
  match x, y with
  | Some u, Some v => bool_decide (u = v)
  | _, _ => false
  end.

(** [isbjunk(b[j])] compared with the wanted outcome: the first pair of
    [while] loops wants non-junk, the second pair wants junk. *)
Definition junk_test (want_junk : bool) (y : option A) : bool :=
  match y with
  | Some v => eqb (isbjunk v) want_junk
  | None => false
  end.

(** [while besti > alo and bestj > blo and ... : besti, bestj, bestsize =
    besti-1, bestj-1, bestsize+1] *)
Fixpoint extend_left (want_junk : bool) (alo blo besti bestj bestsize : nat)
    {struct besti} : Match :=
  match besti with
  | O => (besti, bestj, bestsize)
  | S i' =>
      if (alo <? besti) && (blo <? bestj)
         && junk_test want_junk (b !! (bestj - 1))
         && elem_eqb (a !! i') (b !! (bestj - 1))
      then extend_left want_junk alo blo i' (bestj - 1) (bestsize + 1)
      else (besti, bestj, bestsize)
  end.

(** [while besti+bestsize < ahi and bestj+bestsize < bhi and ... :
    bestsize += 1]; [gap] counts the iterations left, [ahi - (besti +
    bestsize)] at the start. *)
Fixpoint extend_right (want_junk : bool) (ahi bhi besti bestj gap bestsize : nat)
    {struct gap} : nat :=
  match gap with
  | O => bestsize
  | S gap' =>
      if (besti + bestsize <? ahi) && (bestj + bestsize <? bhi)
         && junk_test want_junk (b !! (bestj + bestsize))
         && elem_eqb (a !! (besti + bestsize)) (b !! (bestj + bestsize))
      then extend_right want_junk ahi bhi besti bestj gap' (bestsize + 1)
      else bestsize
  end.

Definition extend (want_junk : bool) (alo ahi blo bhi : nat) (m : Match) : Match :=
  let '(besti, bestj, bestsize) := m in
  let '(besti, bestj, bestsize) := extend_left want_junk alo blo besti bestj bestsize in
  (besti, bestj,
   extend_right want_junk ahi bhi besti bestj (ahi - (besti + bestsize)) bestsize).

Definition find_longest_match (alo ahi blo bhi : nat) : Match :=
  let best := snd (scan_rows alo ahi blo bhi) in
  let best := extend false alo ahi blo bhi best in
  extend true alo ahi blo bhi best.

(** The [while queue:] loop of [get_matching_blocks]. The Python list is
    used as a stack ([append] and [pop] at its end); its last element is
    the head here. [fuel] bounds the number of iterations. *)
Fixpoint matching_loop (fuel : nat) (queue : list (nat * nat * nat * nat))
    (matching_blocks : list Match) : list Match :=
  match fuel with
  | O => matching_blocks
  | S fuel' =>
      match queue with
      | [] => matching_blocks
      | (alo, ahi, blo, bhi) :: queue' =>
          let '(i, j, k) := find_longest_match alo ahi blo bhi in
          if k =? 0 then matching_loop fuel' queue' matching_blocks
          else
            let queue1 :=
              if (alo <? i) && (blo <? j) then (alo, i, blo, j) :: queue' else queue' in
            let queue2 :=
              if (i + k <? ahi) && (j + k <? bhi)
              then (i + k, ahi, j + k, bhi) :: queue1 else queue1 in
            matching_loop fuel' queue2 (matching_blocks ++ [(i, j, k)])
      end
  end.

(** Every iteration either finds no block or removes at least one element
    of [a] from the regions still queued, so [2 * len(a) + 1] iterations
    empty the queue. *)
Definition matching_fuel : nat := 2 * length a + 1.

(** One iteration of the same loop on the pair of the queue and the blocks
    found so far: pop a region, look for its longest match and, when there
    is one, record it and queue what is left on either side. With an empty
    queue the loop has ended and the state stays as it is. *)
Definition matching_step (st : list (nat * nat * nat * nat) * list Match)
    : list (nat * nat * nat * nat) * list Match :=
  match st with
  | ([], matching_blocks) => ([], matching_blocks)
  | ((alo, ahi, blo, bhi) :: queue', matching_blocks) =>
      let '(i, j, k) := find_longest_match alo ahi blo bhi in
      if k =? 0 then (queue', matching_blocks)
      else
        let queue1 :=
          if (alo <? i) && (blo <? j) then (alo, i, blo, j) :: queue' else queue' in
        let queue2 :=
          if (i + k <? ahi) && (j + k <? bhi)
          then (i + k, ahi, j + k, bhi) :: queue1 else queue1 in
        (queue2, matching_blocks ++ [(i, j, k)])
  end.

(** The state after [n] iterations. *)
Fixpoint matching_run (n : nat) (st : list (nat * nat * nat * nat) * list Match)
    : list (nat * nat * nat * nat) * list Match :=
  match n with
  | O => st
  | S n' => matching_run n' (matching_step st)
  end.

(** Tuple comparison used by [matching_blocks.sort()]. *)
Definition match_leb (x y : Match) : bool :=
  let '(i1, j1, k1) := x in
  let '(i2, j2, k2) := y in
  (i1 <? i2) || ((i1 =? i2) && ((j1 <? j2) || ((j1 =? j2) && (k1 <=? k2)))).

Fixpoint insert_match (x : Match) (l : list Match) : list Match :=
  match l with
  | [] => [x]
  | y :: l' => if match_leb x y then x :: l else y :: insert_match x l'
  end.

Definition sort_matches (l : list Match) : list Match :=
  fold_right insert_match [] l.

(** The loop collapsing adjacent blocks; the state is
    [((i1, j1, k1), non_adjacent)]. *)
Definition collapse_step (st : Match * list Match) (x : Match) : Match * list Match :=
  let '((i1, j1, k1), non_adjacent) := st in
  let '(i2, j2, k2) := x in
  if (i1 + k1 =? i2) && (j1 + k1 =? j2) then ((i1, j1, k1 + k2), non_adjacent)
  else ((i2, j2, k2),
        if k1 =? 0 then non_adjacent else non_adjacent ++ [(i1, j1, k1)]).

Definition get_matching_blocks : list Match :=
  let la := length a in
  let lb := length b in
  let matching_blocks :=
    sort_matches (matching_loop matching_fuel [(0, la, 0, lb)] []) in
  let '((i1, j1, k1), non_adjacent) :=
    fold_left collapse_step matching_blocks ((0, 0, 0), []) in
  let non_adjacent :=
    if k1 =? 0 then non_adjacent else non_adjacent ++ [(i1, j1, k1)] in
  non_adjacent ++ [(la, lb, 0)].

(** [_calculate_ratio(matches, length)]: [2.0 * matches / length], or
    [1.0] when [length] is 0. *)
Definition _calculate_ratio (matches len : nat) : Q :=
  if len =? 0 then 1%Q
  else Qred (Z.of_nat (2 * matches) # Pos.of_nat len).

Definition ratio : Q :=
  let matches := list_sum (map match_size get_matching_blocks) in
  _calculate_ratio matches (length a + length b).

End SequenceMatcher.

(** [calculate_similarity(text1, text2)] *)
Definition calculate_similarity (text1 text2 : string) : Q :=
  ratio (list_ascii_of_string (lower text1)) (list_ascii_of_string (lower text2)).


(** ** Exceptions *)

Inductive exn : Type :=
  | ValueError
  | ZeroDivisionError
  | KeyError
  | TypeError.

Inductive py (A : Type) : Type :=
  | Ok (x : A)
  | Raise (e : exn).

Arguments Ok {A} x.
Arguments Raise {A} e.

#[export] Instance py_ret : MRet py := λ A x, Ok x.

#[export] Instance py_bind : MBind py := λ A B f m,
  match m with
  | Ok x => f x
  | Raise e => Raise e
  end.

(** [try: body except: handler] with a bare [except]. *)
Definition try_except {A : Type} (body : py A) (handler : py A) : py A :=
  match body with
  | Ok x => Ok x
  | Raise _ => handler
  end.

(** Monadic left fold: a [for] loop whose body may raise. *)
Fixpoint foldM {S X : Type} (body : S → X → py S) (xs : list X) (s : S) : py S :=
  match xs with
  | [] => Ok s
  | x :: xs' => s' ← body s x; foldM body xs' s'
  end.

(** ** Insertion-ordered dictionaries with string keys *)

Abbreviation dict V := (list (string * V)).

Fixpoint dict_get {V : Type} (d : dict V) (key : string) : option V :=
  match d with
  | [] => None
  | (k, v) :: d' => if String.eqb k key then Some v else dict_get d' key
  end.

(** [d[key] = v]: replaces in place, or appends a new key. *)
Fixpoint dict_set {V : Type} (d : dict V) (key : string) (v : V) : dict V :=
  match d with
  | [] => [(key, v)]
  | (k, w) :: d' =>
      if String.eqb k key then (k, v) :: d' else (k, w) :: dict_set d' key v
  end.

Definition dict_keys {V : Type} (d : dict V) : list string := map fst d.

(** Values stored in a Field Verdict. *)
Inductive pyval : Type :=
  | PInt (n : Z)
  | PRatio (q : Q)
  | PFloat (f : float)
  | PStr (s : string).

(** [result[key]] used as an integer. *)
Definition int_item (result : dict pyval) (key : string) : py Z :=
  match dict_get result key with
  | Some (PInt n) => Ok n
  | Some _ => Raise TypeError
  | None => Raise KeyError
  end.

(** ** CountVectorizer and cosine_similarity (scikit-learn) *)

(** [\w] on ASCII text. *)
Definition is_word (c : ascii) : bool :=
  let n := nat_of_ascii c in
  ((48 <=? n) && (n <=? 57)) || ((65 <=? n) && (n <=? 90))
  || (n =? 95) || ((97 <=? n) && (n <=? 122)).

Definition flush (cur : string) : list string :=
  match cur with
  | EmptyString => []
  | _ => [cur]
  end.

(** [re.findall(r'(?u)\b\w+\b', doc)]: the maximal runs of word
    characters, left to right; [cur] is the run being read. *)
Fixpoint findall_words (cur : string) (doc : string) : list string :=
  match doc with
  | EmptyString => flush cur
  | String c doc' =>
      if is_word c then findall_words (cur +:+ String c EmptyString) doc'
      else flush cur ++ findall_words EmptyString doc'
  end.

(** The analyzer built by [CountVectorizer(lowercase=True, token_pattern=...)]. *)
Definition analyze (doc : string) : list string :=
  findall_words EmptyString (lower doc).

Fixpoint insert_term (t : string) (vocab : list string) : list string :=
  match vocab with
  | [] => [t]
  | u :: vocab' =>
      if String.eqb t u then vocab
      else if String.ltb t u then t :: vocab
      else u :: insert_term t vocab'
  end.

(** The fitted vocabulary: the distinct terms of all documents, sorted. *)
Definition vocabulary (docs : list (list string)) : list string :=
  fold_left (λ vocab t, insert_term t vocab) (concat docs) [].

Fixpoint float_of_pos (p : positive) : float :=
  match p with
  | xH => 1%float
  | xO p' => (2 * float_of_pos p')%float
  | xI p' => (2 * float_of_pos p' + 1)%float
  end.

(** Conversion of a count to [float64] (exact below [2^53]). *)
Definition float_of_nat (n : nat) : float :=
  match n with
  | O => 0%float
  | S _ => float_of_pos (Pos.of_nat n)
  end.

(** One row of the CSR matrix: the stored (column, value) entries, columns
    ascending. *)
Definition csr_row : Type := list (nat * float).

Definition term_count (t : string) (tokens : list string) : nat :=
  length (filter (λ u, u = t) tokens).

(** The row of one document: a column is stored only when the term occurs. *)
Fixpoint count_row (col : nat) (vocab tokens : list string) : csr_row :=
  match vocab with
  | [] => []
  | t :: vocab' =>
      let c := term_count t tokens in
      if c =? 0 then count_row (S col) vocab' tokens
      else (col, float_of_nat c) :: count_row (S col) vocab' tokens
  end.

(** [vectorizer.fit_transform([text1, text2])]: raises [ValueError] ("empty
    vocabulary") when no document yields a term. *)
Definition fit_transform (text1 text2 : string) : py (csr_row * csr_row) :=
  let tokens1 := analyze text1 in
  let tokens2 := analyze text2 in
  let vocab := vocabulary [tokens1; tokens2] in
  match vocab with
  | [] => Raise ValueError
  | _ => Ok (count_row 0 vocab tokens1, count_row 0 vocab tokens2)
  end.

Definition sum_squares (r : csr_row) : float :=
  fold_left (λ (s : float) (kv : nat * float), (s + snd kv * snd kv)%float) r 0%float.

(** [normalize(X)], one row: rows whose squared norm is 0 are left alone. *)
Definition normalize_row (r : csr_row) : csr_row :=
  let s := sum_squares r in
  if (s =? 0)%float then r
  else let n := sqrt s in map (λ kv : nat * float, (fst kv, (snd kv / n)%float)) r.

Fixpoint row_lookup (r : csr_row) (col : nat) : option float :=
  match r with
  | [] => None
  | (k, v) :: r' => if k =? col then Some v else row_lookup r' col
  end.

(** Entry [0][1] of [X_normalized @ X_normalized.T]: the products over the
    columns stored in both rows, added in column order. *)
Definition sparse_dot (r0 r1 : csr_row) : float :=
  fold_left (λ (acc : float) (kv : nat * float),
               match row_lookup r1 (fst kv) with
               | Some w => (acc + snd kv * w)%float
               | None => acc
               end) r0 0%float.

(** [cosine_similarity(vectors)[0][1]] *)
Definition cosine_similarity (vectors : csr_row * csr_row) : float :=
  sparse_dot (normalize_row (fst vectors)) (normalize_row (snd vectors)).

(** [calculate_cosine_similarity(text1, text2)] *)
Definition calculate_cosine_similarity (text1 text2 : string) : py float :=
  let text1 := lower text1 in
  let text2 := lower text2 in
  try_except
    (vectors ← fit_transform text1 text2;
     mret (cosine_similarity vectors))
    (mret 0%float).

(** ** Field comparators *)

Definition evaluate_exact_field (gt pred : string) : dict pyval :=
  let is_match := bool_decide (lower gt = lower pred) in
  [("exact_match", PInt (if is_match then 1 else 0));
   ("ground_truth", PStr gt);
   ("prediction", PStr pred)].

(** [similarity > 0.9] *)
Definition NEAR_THRESHOLD : Q := 9 # 10.

Definition evaluate_ner_field (gt pred : string) : dict pyval :=
  let similarity := calculate_similarity gt pred in
  [("exact_match", PInt (if bool_decide (lower gt = lower pred) then 1 else 0));
   ("near_match", PInt (if negb (Qle_bool similarity NEAR_THRESHOLD) then 1 else 0));
   ("similarity", PRatio similarity);
   ("ground_truth", PStr gt);
   ("prediction", PStr pred)].

(** [similarity >= 0.5] *)
Definition SEMANTIC_THRESHOLD : float := 0.5%float.

Definition evaluate_semantic_field (gt pred : string) : py (dict pyval) :=
  similarity ← calculate_cosine_similarity gt pred;
  mret [("similarity", PFloat similarity);
        ("meets_threshold", PInt (if (SEMANTIC_THRESHOLD <=? similarity)%float then 1 else 0));
        ("ground_truth", PStr gt);
        ("prediction", PStr pred)].

(** [calculate_f1_score(precision, recall)], in binary64. *)
Definition calculate_f1_score (precision recall : float) : float :=
  if (precision + recall =? 0)%float then 0%float
  else (2 * (precision * recall) / (precision + recall))%float.

(** ** Dataset evaluator *)

Record field_definition : Type := {
  field_type : string;
  is_identifier : bool;
  evaluation : string
}.

Definition FIELD_DEFINITIONS : dict field_definition :=
  [("Contract Address",
    {| field_type := "rich_address"; is_identifier := true; evaluation := "exact" |});
   ("Public Name Tag",
    {| field_type := "text"; is_identifier := true; evaluation := "ner" |});
   ("Project Name",
    {| field_type := "text"; is_identifier := true; evaluation := "ner" |});
   ("UI/Website Link",
    {| field_type := "link"; is_identifier := true; evaluation := "exact" |});
   ("Public Note",
    {| field_type := "text"; is_identifier := false; evaluation := "semantic" |})].

(** One input record: a JSON object with string values. *)
Abbreviation entry := (gmap string string).

(** A Field Accumulator, [{"exact": _, "near": _, "total": _}]. *)
Record metrics : Type := { exact : Z; near : Z; total : Z }.

Definition add_exact (n : Z) (m : metrics) : metrics :=
  {| exact := exact m + n; near := near m; total := total m |}.

Definition add_near (n : Z) (m : metrics) : metrics :=
  {| exact := exact m; near := near m + n; total := total m |}.

Definition add_total (n : Z) (m : metrics) : metrics :=
  {| exact := exact m; near := near m; total := total m + n |}.

(** [{field: {"exact": 0, "near": 0, "total": 0} for field in FIELD_DEFINITIONS}] *)
Definition initial_metrics : gmap string metrics :=
  list_to_map (map (λ field, (field, {| exact := 0; near := 0; total := 0 |}))
                   (dict_keys FIELD_DEFINITIONS)).

(** Body of the loop over the fields, from the dispatch on
    [definition["evaluation"]] to [field_metrics[field]["total"] += 1]. *)
Definition score_field (field : string) (definition : field_definition)
    (gt_value pred_value : string) (field_metrics : gmap string metrics)
    : py (gmap string metrics * dict pyval) :=
  '(field_metrics, result) ←
    (if String.eqb (evaluation definition) "exact" then
       let result := evaluate_exact_field gt_value pred_value in
       n ← int_item result "exact_match";
       let field_metrics := alter (add_exact n) field field_metrics in
       n ← int_item result "exact_match";
       mret (alter (add_near n) field field_metrics, result)
     else if String.eqb (evaluation definition) "ner" then
       let result := evaluate_ner_field gt_value pred_value in
       n ← int_item result "exact_match";
       let field_metrics := alter (add_exact n) field field_metrics in
       n ← int_item result "near_match";
       mret (alter (add_near n) field field_metrics, result)
     else
       result ← evaluate_semantic_field gt_value pred_value;
       n ← int_item result "meets_threshold";
       mret (alter (add_near n) field field_metrics, result));
  mret (alter (add_total 1) field field_metrics, result).

(** One iteration of [for field, definition in FIELD_DEFINITIONS.items()];
    the state is [(field_metrics, entry_results)]. *)
Definition evaluate_field (gt_entry pred_entry : entry)
    (st : gmap string metrics * dict (dict pyval)) (fd : string * field_definition)
    : py (gmap string metrics * dict (dict pyval)) :=
  let gt_value := default EmptyString (gt_entry !! fst fd) in
  let pred_value := default EmptyString (pred_entry !! fst fd) in
  '(field_metrics, result) ← score_field (fst fd) (snd fd) gt_value pred_value (fst st);
  mret (field_metrics, dict_set (snd st) (fst fd) result).

(** One iteration of [for idx, (gt_entry, pred_entry) in enumerate(zip(...))];
    the state is [(results, field_metrics)]. The progress log is not part of
    the model. *)
Definition evaluate_pair (st : list (dict (dict pyval)) * gmap string metrics)
    (pair : entry * entry) : py (list (dict (dict pyval)) * gmap string metrics) :=
  '(field_metrics, entry_results) ←
    foldM (evaluate_field (fst pair) (snd pair)) FIELD_DEFINITIONS (snd st, []);
  mret (fst st ++ [entry_results], field_metrics).

Definition evaluation_loop (ground_truth predictions : list entry)
    : py (list (dict (dict pyval)) * gmap string metrics) :=
  foldM evaluate_pair (combine ground_truth predictions) ([], initial_metrics).

(** [x / y] on two integers. *)
Definition true_div (x y : Z) : Q := Qred (inject_Z x / inject_Z y).

Definition py_truediv (x y : Z) : py Q :=
  if (y =? 0)%Z then Raise ZeroDivisionError else Ok (true_div x y).

(** [metrics["exact"] / metrics["total"] if metrics["total"] > 0 else 0] *)
Definition precision_of (m : metrics) : Q :=
  if (0 <? total m)%Z then true_div (exact m) (total m) else 0%Q.

(** [metrics["near"] / metrics["total"] if metrics["total"] > 0 else 0] *)
Definition recall_of (m : metrics) : Q :=
  if (0 <? total m)%Z then true_div (near m) (total m) else 0%Q.

Definition float_of_int (z : Z) : float :=
  match z with
  | Z0 => 0%float
  | Zpos p => float_of_pos p
  | Zneg p => (- float_of_pos p)%float
  end.

(** The binary64 number that a quotient [x / y] of two integers is in the
    program, for a quotient kept as the rational [q]: the division of the
    two integers, which binary64 rounds correctly (numerator and
    denominator below [2^53]); [0 / y] is 0.0. [q] is kept in lowest
    terms, which does not change the rounded quotient. *)
Definition float64 (q : Q) : float :=
  if (Qnum q =? 0)%Z then 0%float
  else (float_of_int (Qnum q) / float_of_pos (Qden q))%float.

(** One iteration of [for field, metrics in field_metrics.items()]. The keys
    of [field_metrics] are those of [FIELD_DEFINITIONS], inserted in the same
    order, so the loop runs over the schema. [precision] and [recall] are
    stored as quotients; the F1 score is computed from the binary64 numbers
    they are. *)
Definition aggregate_field (field_metrics : gmap string metrics)
    (aggregate_results : dict (dict pyval)) (fd : string * field_definition)
    : py (dict (dict pyval)) :=
  match field_metrics !! fst fd with
  | None => Raise KeyError
  | Some m =>
      if String.eqb (evaluation (snd fd)) "exact" || String.eqb (evaluation (snd fd)) "ner"
      then
        let precision := precision_of m in
        let recall := recall_of m in
        let f1 := calculate_f1_score (float64 precision) (float64 recall) in
        exact_match_rate ← py_truediv (exact m) (total m);
        mret (dict_set aggregate_results (fst fd)
                [("precision", PRatio precision); ("recall", PRatio recall);
                 ("f1_score", PFloat f1); ("exact_match_rate", PRatio exact_match_rate)])
      else
        semantic_similarity_rate ← py_truediv (near m) (total m);
        mret (dict_set aggregate_results (fst fd)
                [("semantic_similarity_rate", PRatio semantic_similarity_rate)])
  end.

Definition aggregate_pass (field_metrics : gmap string metrics) : py (dict (dict pyval)) :=
  foldM (aggregate_field field_metrics) FIELD_DEFINITIONS [].

(** The Evaluation Report. *)
Record report : Type := {
  individual_results : list (dict (dict pyval));
  aggregate_results : dict (dict pyval)
}.

(** [evaluate_dataset(ground_truth, predictions)] *)
Definition evaluate_dataset (ground_truth predictions : list entry) : py report :=
  '(results, field_metrics) ← evaluation_loop ground_truth predictions;
  aggregate_results ← aggregate_pass field_metrics;
  mret {| individual_results := results; aggregate_results := aggregate_results |}.

(** ** The evaluator over a store of Python objects

    The arguments of [evaluate_dataset] are references: two list objects
    whose items are references to dict objects. [heap] maps every address
    to the list and to the dict stored there. *)

Definition loc : Type := nat.

Record heap : Type := {
  lists : loc → list loc;
  dicts : loc → gmap string string
}.

(** Computations that may read and write the store and may raise. *)
Definition st (A : Type) : Type := heap → py A * heap.

#[export] Instance st_ret : MRet st := λ A x h, (Ok x, h).

#[export] Instance st_bind : MBind st := λ A B f m h,
  match m h with
  | (Ok x, h') => f x h'
  | (Raise e, h') => (Raise e, h')
  end.

(** A computation that does not touch the store. *)
Definition lift {A : Type} (m : py A) : st A := λ h, (m, h).

(** Iterating over a list object. *)
Definition list_iter (l : loc) : st (list loc) := λ h, (Ok (lists h l), h).

(** [d.get(key, dflt)] *)
Definition dict_get_st (d : loc) (key dflt : string) : st string :=
  λ h, (Ok (default dflt (dicts h d !! key)), h).

(** [d[key] = v]: the write that the evaluator never performs. *)
Definition dict_setitem_st (d : loc) (key v : string) : st unit :=
  λ h, (Ok tt, {| lists := lists h;
                  dicts := λ d', if decide (d' = d) then <[key := v]> (dicts h d')
                                 else dicts h d' |}).

Fixpoint foldM_st {S X : Type} (body : S → X → st S) (xs : list X) (s : S) : st S :=
  match xs with
  | [] => mret s
  | x :: xs' => s' ← body s x; foldM_st body xs' s'
  end.

Definition evaluate_field_st (gt_entry pred_entry : loc)
    (s : gmap string metrics * dict (dict pyval)) (fd : string * field_definition)
    : st (gmap string metrics * dict (dict pyval)) :=
  gt_value ← dict_get_st gt_entry (fst fd) EmptyString;
  pred_value ← dict_get_st pred_entry (fst fd) EmptyString;
  '(field_metrics, result) ← lift (score_field (fst fd) (snd fd) gt_value pred_value (fst s));
  mret (field_metrics, dict_set (snd s) (fst fd) result).

Definition evaluate_pair_st (s : list (dict (dict pyval)) * gmap string metrics)
    (pair : loc * loc) : st (list (dict (dict pyval)) * gmap string metrics) :=
  '(field_metrics, entry_results) ←
    foldM_st (evaluate_field_st (fst pair) (snd pair)) FIELD_DEFINITIONS (snd s, []);
  mret (fst s ++ [entry_results], field_metrics).

Definition evaluate_dataset_st (ground_truth predictions : loc) : st report :=
  gts ← list_iter ground_truth;
  preds ← list_iter predictions;
  '(results, field_metrics) ←
    foldM_st evaluate_pair_st (combine gts preds) ([], initial_metrics);
  aggregate_results ← lift (aggregate_pass field_metrics);
  mret {| individual_results := results; aggregate_results := aggregate_results |}.

(** ** Sample records

    The end-to-end scenario of the specification: one ground-truth record
    and one prediction. *)

Definition sample_ground_truth : list entry :=
  [ <["Contract Address" := "0xABC"]> (<["Project Name" := "Acme"]> ∅) ].

Definition sample_predictions : list entry :=
  [ <["Contract Address" := "0xabc"]> (<["Project Name" := "Acme Inc"]> ∅) ].

(** A store holding the sample: the two lists at addresses 0 and 1, their
    records at addresses 2 and 3. *)
Definition sample_heap : heap :=
  {| lists := λ l, match l with
                   | 0 => [2]
                   | 1 => [3]
                   | _ => []
                   end;
     dicts := λ l, match l with
                   | 2 => <["Contract Address" := "0xABC"]> (<["Project Name" := "Acme"]> ∅)
                   | 3 => <["Contract Address" := "0xabc"]> (<["Project Name" := "Acme Inc"]> ∅)
                   | _ => ∅
                   end |}.

(** ** Notions used in the statements and proofs *)

(** A 0/1 flag as a Python [int]. *)
Definition flag (c : bool) : Z := if c then 1%Z else 0%Z.

(** Effect of one record pair on one accumulator. *)
Definition bump (e n : Z) (m : metrics) : metrics :=
  {| exact := exact m + e; near := near m + n; total := total m + 1 |}.

(** Every accumulator of the schema has counted [k] record pairs. *)
Definition counted (k : nat) (fm : gmap string metrics) : Prop :=
  ∀ field d, dict_get FIELD_DEFINITIONS field = Some d →
    ∃ m, fm !! field = Some m
         ∧ total m = Z.of_nat k
         ∧ (0 ≤ exact m ≤ near m)%Z ∧ (near m ≤ total m)%Z.

(** The Aggregate Metric written for a field whose accumulator is [m]. *)
Definition aggregate_entry (d : field_definition) (m : metrics) : dict pyval :=
  if String.eqb (evaluation d) "exact" || String.eqb (evaluation d) "ner"
  then [("precision", PRatio (precision_of m)); ("recall", PRatio (recall_of m));
        ("f1_score",
         PFloat (calculate_f1_score (float64 (precision_of m)) (float64 (recall_of m))));
        ("exact_match_rate", PRatio (true_div (exact m) (total m)))]
  else [("semantic_similarity_rate", PRatio (true_div (near m) (total m)))].

(** Strictly increasing lists of indices. *)
Fixpoint ascending (js : list nat) : Prop :=
  match js with
  | [] => True
  | j :: js' => (∀ j', j' ∈ js' → j < j') ∧ ascending js'
  end.

Definition prev_of (f : nat → nat) (c : nat) : nat :=
  match c with
  | O => 0
  | S c' => f c'
  end.

(** A queued region [(alo, ahi, blo, bhi)] is well formed. *)
Definition region_ok (r : nat * nat * nat * nat) : Prop :=
  fst (fst (fst r)) ≤ snd (fst (fst r)) ∧ snd (fst r) ≤ snd r.

(** Iterations still needed for the queued regions. *)
Definition queue_weight (queue : list (nat * nat * nat * nat)) : nat :=
  list_sum (map (λ r, 2 * (snd (fst (fst r)) - fst (fst (fst r))) + 1) queue).

Section ScanNotions.
Context {A : Type} `{Countable A}.

(** What the first loop of [__chain_b] builds: under each key, the
    positions of that element, in increasing order. *)
Definition indexes (b : list A) (m : gmap A (list nat)) : Prop :=
  ∀ x, ascending (default [] (m !! x))
       ∧ ∀ j, j ∈ default [] (m !! x) ↔ b !! j = Some x.

(** Two sequences without a common element. *)
Definition disjoint_seqs (a b : list A) : Prop := ∀ x, x ∈ a → x ∈ b → False.

Variable s : list A.

(** Elements that survive the purge of [__chain_b]. *)
Definition kept (x : A) : bool :=
  bool_decide (default [] (b2j s !! x) ≠ []).

(** Length of the run of kept elements of [s] that ends at index [c]. *)
Fixpoint run (c : nat) : nat :=
  match s !! c with
  | Some x => if kept x then S (match c with O => 0 | S c' => run c' end) else 0
  | None => 0
  end.

(** State of the scan of [s] against itself before row [i]. *)
Definition row_inv (i : nat) (st : gmap nat nat * Match) : Prop :=
  j2lenget (fst st) i = prev_of run i
  ∧ (∀ c, default 0 (fst st !! c) ≤ prev_of run i)
  ∧ (∀ c, default 0 (fst st !! c) ≤ run c)
  ∧ (∀ c, c < i → run c ≤ match_size (snd st))
  ∧ fst (fst (snd st)) = snd (fst (snd st))
  ∧ fst (fst (snd st)) + match_size (snd st) ≤ i.

(** State inside row [i], with the columns [rest] still to visit. *)
Definition mid_inv (i : nat) (rest : list nat) (st : gmap nat nat * Match) : Prop :=
  (∀ c, default 0 (fst st !! c) ≤ run i)
  ∧ (∀ c, default 0 (fst st !! c) ≤ run c)
  ∧ (∀ c, c < i → run c ≤ match_size (snd st))
  ∧ fst (fst (snd st)) = snd (fst (snd st))
  ∧ fst (fst (snd st)) + match_size (snd st) ≤ S i
  ∧ (i ∈ rest ∨ (fst st !! i = Some (run i) ∧ run i ≤ match_size (snd st))).

Variables (alo blo bhi : nat).

(** A row of [j2len] holds only lengths that fit in the region scanned so
    far, so [i - k + 1] and [j - k + 1] never go below [alo] and [blo]. *)
Definition row_fits (rows : nat) (j2len : gmap nat nat) : Prop :=
  ∀ c v, j2len !! c = Some v → v ≤ rows ∧ blo ≤ c ∧ v ≤ S c - blo.

(** The block [best] lies inside the region, rows below [ihi]. *)
Definition best_fits (ihi : nat) (best : Match) : Prop :=
  alo ≤ fst (fst best) ∧ fst (fst best) + match_size best ≤ ihi
  ∧ blo ≤ snd (fst best) ∧ snd (fst best) + match_size best ≤ bhi.

End ScanNotions.

(** ** The evaluation loop in closed form *)

(** The cosine similarity as a number ([calculate_cosine_similarity] never
    raises, see [calculate_cosine_similarity_total]). *)
Definition cosine_value (text1 text2 : string) : float :=
  match calculate_cosine_similarity text1 text2 with
  | Ok similarity => similarity
  | Raise _ => 0%float
  end.

(** What one record pair adds to [exact] for a field of definition [d]. *)
Definition exact_flag (d : field_definition) (gt pred : string) : Z :=
  if String.eqb (evaluation d) "exact" || String.eqb (evaluation d) "ner"
  then flag (bool_decide (lower gt = lower pred))
  else 0%Z.

(** What one record pair adds to [near]. *)
Definition near_flag (d : field_definition) (gt pred : string) : Z :=
  if String.eqb (evaluation d) "exact"
  then flag (bool_decide (lower gt = lower pred))
  else if String.eqb (evaluation d) "ner"
  then flag (negb (Qle_bool (calculate_similarity gt pred) NEAR_THRESHOLD))
  else flag (SEMANTIC_THRESHOLD <=? cosine_value gt pred)%float.

(** The Field Verdict of one field of one record pair. *)
Definition verdict_of (d : field_definition) (gt pred : string) : dict pyval :=
  if String.eqb (evaluation d) "exact" then evaluate_exact_field gt pred
  else if String.eqb (evaluation d) "ner" then evaluate_ner_field gt pred
  else [("similarity", PFloat (cosine_value gt pred));
        ("meets_threshold",
         PInt (if (SEMANTIC_THRESHOLD <=? cosine_value gt pred)%float then 1 else 0));
        ("ground_truth", PStr gt);
        ("prediction", PStr pred)].

(** The value a record gives to a field: [entry.get(field, "")]. *)
Definition field_value (e : entry) (field : string) : string :=
  default EmptyString (e !! field).

(** The Record Verdict of one record pair. *)
Definition record_verdict (pair : entry * entry) : dict (dict pyval) :=
  map (λ fd : string * field_definition,
         (fst fd, verdict_of (snd fd) (field_value (fst pair) (fst fd))
                                      (field_value (snd pair) (fst fd))))
      FIELD_DEFINITIONS.

Definition Zsum (l : list Z) : Z := fold_right Z.add 0%Z l.

(** The counters of one field after the record pairs [pairs]. *)
Definition field_tally (field : string) (d : field_definition)
    (pairs : list (entry * entry)) : metrics :=
  {| exact := Zsum (map (λ pair, exact_flag d (field_value (fst pair) field)
                                            (field_value (snd pair) field)) pairs);
     near := Zsum (map (λ pair, near_flag d (field_value (fst pair) field)
                                          (field_value (snd pair) field)) pairs);
     total := Z.of_nat (length pairs) |}.

Definition metrics_add (m1 m2 : metrics) : metrics :=
  {| exact := exact m1 + exact m2; near := near m1 + near m2;
     total := total m1 + total m2 |}.

(** The keys of a Field Verdict, by strategy. *)
Definition verdict_keys (d : field_definition) : list string :=
  if String.eqb (evaluation d) "exact"
  then ["exact_match"; "ground_truth"; "prediction"]
  else if String.eqb (evaluation d) "ner"
  then ["exact_match"; "near_match"; "similarity"; "ground_truth"; "prediction"]
  else ["similarity"; "meets_threshold"; "ground_truth"; "prediction"].

(** Two records that give the same value to every field of the schema. *)
Definition same_on_schema (e e' : entry) : Prop :=
  ∀ field, field ∈ dict_keys FIELD_DEFINITIONS →
    field_value e field = field_value e' field.

(** The sample ground truth with a key outside the schema, and in lower
    case. *)
Definition sample_ground_truth_annotated : list entry :=
  [ <["Source" := "etherscan"]>
      (<["Contract Address" := "0xABC"]> (<["Project Name" := "Acme"]> ∅)) ].

Definition sample_ground_truth_lower : list entry :=
  [ <["Contract Address" := "0xabc"]> (<["Project Name" := "acme"]> ∅) ].

(** Two records whose schema fields are equal up to case. *)
Definition same_lower_on_schema (e e' : entry) : Prop :=
  ∀ field, field ∈ dict_keys FIELD_DEFINITIONS →
    lower (field_value e field) = lower (field_value e' field).

(** The keys of an Aggregate Metric, by strategy. *)
Definition aggregate_keys (d : field_definition) : list string :=
  if String.eqb (evaluation d) "exact" || String.eqb (evaluation d) "ner"
  then ["precision"; "recall"; "f1_score"; "exact_match_rate"]
  else ["semantic_similarity_rate"].

(** ** Notions about matching blocks *)

Section BlockNotions.
Context {A : Type}.
Variables (a b : list A).

(** [a[i:i+k] == b[j:j+k]], all indices in range. *)
Definition common (i j k : nat) : Prop :=
  ∀ t, t < k → ∃ x, a !! (i + t) = Some x ∧ b !! (j + t) = Some x.

(** A row of [j2len] for the rows below [i]: every length stored at a
    column is that of a common run ending at [a[i-1]] and at that column
    of [b]. *)
Definition row_common (i : nat) (j2len : gmap nat nat) : Prop :=
  ∀ c v, j2len !! c = Some v → v ≤ i ∧ v ≤ S c ∧ common (i - v) (S c - v) v.

Definition block_common (m : Match) : Prop :=
  common (fst (fst m)) (snd (fst m)) (match_size m).

(** The two sides of a region agree element by element. *)
Definition region_equal (r : nat * nat * nat * nat) : Prop :=
  snd (fst (fst r)) - fst (fst (fst r)) = snd r - snd (fst r)
  ∧ common (fst (fst (fst r))) (snd (fst r)) (snd (fst (fst r)) - fst (fst (fst r))).

End BlockNotions.

(** Width of a region in [a], in [b], and the most it can match. *)
Definition width_a (r : nat * nat * nat * nat) : nat :=
  snd (fst (fst r)) - fst (fst (fst r)).

Definition width_b (r : nat * nat * nat * nat) : nat :=
  snd r - snd (fst r).

Definition region_cap (r : nat * nat * nat * nat) : nat :=
  min (width_a r) (width_b r).

Definition total_size (blocks : list Match) : nat :=
  list_sum (map match_size blocks).

Definition widths_a (queue : list (nat * nat * nat * nat)) : nat :=
  list_sum (map width_a queue).

Definition widths_b (queue : list (nat * nat * nat * nat)) : nat :=
  list_sum (map width_b queue).

Definition caps (queue : list (nat * nat * nat * nat)) : nat :=
  list_sum (map region_cap queue).

(** ** The summary printed by the script

    The loop at the end of [eval-script-2.py], over
    [results["aggregate_results"].items()]. A printed block is the field
    name with its labelled numbers; the [.2f] formatting of the numbers is
    not part of the model. *)

(** [metrics[key]] *)
Definition metric_item (metrics : dict pyval) (key : string) : py pyval :=
  match dict_get metrics key with
  | Some v => Ok v
  | None => Raise KeyError
  end.

Definition summary_block (metrics : dict pyval) : py (list (string * pyval)) :=
  if bool_decide ("f1_score" ∈ dict_keys metrics) then
    f1 ← metric_item metrics "f1_score";
    precision ← metric_item metrics "precision";
    recall ← metric_item metrics "recall";
    mret [("F1 Score", f1); ("Precision", precision); ("Recall", recall)]
  else
    rate ← metric_item metrics "semantic_similarity_rate";
    mret [("Semantic Similarity Rate", rate)].

Definition print_summary (aggregate_results : dict (dict pyval))
    : py (list (string * list (string * pyval))) :=
  foldM (λ printed fm,
           block ← summary_block (snd fm);
           mret (printed ++ [(fst fm, block)]))
        aggregate_results [].

(** The whole script on decoded inputs: evaluate, then print. *)
Definition script (ground_truth predictions : list entry)
    : py (list (string * list (string * pyval))) :=
  results ← evaluate_dataset ground_truth predictions;
  print_summary (aggregate_results results).

(** The labels printed for a field, by strategy. *)
Definition summary_labels (d : field_definition) : list string :=
  if String.eqb (evaluation d) "exact" || String.eqb (evaluation d) "ner"
  then ["F1 Score"; "Precision"; "Recall"]
  else ["Semantic Similarity Rate"].

(** * Prediction script (prediction_setups/perplexity-chain-data.py)

    The script reads the ground-truth records, asks the Perplexity API for
    one prediction per record and writes one JSON line per record. The
    embedding covers [get_chain_name], [get_explorer_domain_to_block],
    [validate_prediction] and the loop of [main]; the HTTP request and the
    JSON decoding of [query_perplexity] are outside of it and appear as a
    parameter of the loop. *)

(** ** Strings *)

Definition is_digit (c : ascii) : bool :=
  let n := nat_of_ascii c in (48 <=? n) && (n <=? 57).

(** Whitespace for [str.strip()] on ASCII text: tab, line feed, vertical
    tab, form feed, carriage return, the four separators [\x1c]-[\x1f] and
    the space. *)
Definition is_space (c : ascii) : bool :=
  let n := nat_of_ascii c in
  ((9 <=? n) && (n <=? 13)) || ((28 <=? n) && (n <=? 31)) || (n =? 32).

(** [str.lstrip()] *)
Fixpoint lstrip (s : string) : string :=
  match s with
  | EmptyString => EmptyString
  | String c s' => if is_space c then lstrip s' else s
  end.

(** [str.rstrip()] *)
Fixpoint rstrip (s : string) : string :=
  match s with
  | EmptyString => EmptyString
  | String c s' =>
      match rstrip s' with
      | EmptyString => if is_space c then EmptyString else String c EmptyString
      | t => String c t
      end
  end.

(** [str.strip()] *)
Definition strip (s : string) : string := rstrip (lstrip s).

(** [s[len(p):]] when [s.startswith(p)]. *)
Fixpoint strip_prefix (p s : string) : option string :=
  match p, s with
  | EmptyString, _ => Some s
  | String c p', String c' s' => if Ascii.eqb c c' then strip_prefix p' s' else None
  | String _ _, EmptyString => None
  end.

(** The longest prefix of decimal digits, and what follows it. *)
Fixpoint span_digits (s : string) : string * string :=
  match s with
  | EmptyString => (EmptyString, EmptyString)
  | String c s' =>
      if is_digit c
      then let '(digits, rest) := span_digits s' in (String c digits, rest)
      else (EmptyString, s)
  end.

(** [re.match(r"eip155:(\d+):", rich_address)], as [match.group(1)]. The
    pattern is anchored at the start of the string only. [\d+] is greedy and
    the character that must follow is not a digit, so the group is the
    longest run of digits after the prefix. *)
Definition match_chain_id (rich_address : string) : option string :=
  match strip_prefix "eip155:" rich_address with
  | None => None
  | Some rest =>
      match span_digits rest with
      | (String c digits, String sep _) =>
          if Ascii.eqb sep ":" then Some (String c digits) else None
      | _ => None
      end
  end.

(** The value of a string of decimal digits, read from the left. *)
Definition digit_step (n : N) (c : ascii) : N := (10 * n + (N_of_ascii c - 48))%N.

Definition int_of_digits (digits : string) : N :=
  fold_left digit_step (list_ascii_of_string digits) 0%N.

(** [sys.int_info.default_max_str_digits] of CPython 3.11: [int] refuses
    longer decimal strings. *)
Definition MAX_STR_DIGITS : nat := 4300.

(** [int(s)] for a string of decimal digits, the only strings the script
    converts. *)
Definition py_int (digits : string) : py N :=
  if MAX_STR_DIGITS <? String.length digits then Raise ValueError
  else Ok (int_of_digits digits).

(** Dict literals with integer keys. *)
Fixpoint int_get {V : Type} (d : list (N * V)) (key : N) : option V :=
  match d with
  | [] => None
  | (k, v) :: d' => if (k =? key)%N then Some v else int_get d' key
  end.

(** ** Chains *)

Definition chain_map : list (N * string) :=
  [(1%N, "Ethereum"); (10%N, "Optimism"); (56%N, "BNB Smart Chain");
   (137%N, "Polygon"); (42161%N, "Arbitrum"); (43114%N, "Avalanche")].

(** [get_chain_name(rich_address)] *)
Definition get_chain_name (rich_address : string) : py string :=
  match match_chain_id rich_address with
  | None => Ok "Unknown"
  | Some group =>
      chain_id ← py_int group;
      mret (default "Unknown" (int_get chain_map chain_id))
  end.

Definition explorer_map : list (N * string) :=
  [(1%N, "-etherscan.io"); (10%N, "-optimistic.etherscan.io"); (56%N, "-bscscan.com");
   (100%N, "-gnosisscan.io"); (137%N, "-polygonscan.com"); (8453%N, "-basescan.org");
   (42161%N, "-arbiscan.io"); (43114%N, "-snowscan.xyz"); (250%N, "-ftmscan.com");
   (324%N, "-era.zksync.network"); (1285%N, "-moonriver.moonscan.io")].

(** [get_explorer_domain_to_block(rich_address)] *)
Definition get_explorer_domain_to_block (rich_address : string) : py (list string) :=
  match match_chain_id rich_address with
  | None => Ok []
  | Some group =>
      chain_id ← py_int group;
      mret (match int_get explorer_map chain_id with
            | None => []
            | Some EmptyString => []
            | Some domain => [domain]
            end)
  end.

(** ** JSON values *)

(** What [json.loads] returns. Objects are insertion-ordered dictionaries;
    [JNull] is [None]. *)
#[warnings="-register-all"] Inductive json : Type :=
  | JNull
  | JBool (b : bool)
  | JInt (n : Z)
  | JFloat (f : float)
  | JStr (s : string)
  | JArr (items : list json)
  | JObj (members : list (string * json)).

(** Truth value of a decoded JSON value. *)
Definition truthy (v : json) : bool :=
  match v with
  | JNull => false
  | JBool b => b
  | JInt n => negb (n =? 0)%Z
  | JFloat f => negb (f =? 0)%float
  | JStr s => negb (String.eqb s EmptyString)
  | JArr items => match items with [] => false | _ => true end
  | JObj members => match members with [] => false | _ => true end
  end.

(** ** Validation *)

Definition required_fields : list string :=
  ["Project Name"; "Public Name Tag"; "UI/Website Link"; "Public Note"].

(** The test of the loop of [validate_prediction] on one field of a dict:
    [not data.get(field) or not isinstance(data[field], str) or not
    data[field].strip()]. *)
Definition field_invalid (members : dict json) (field : string) : bool :=
  match dict_get members field with
  | None => true
  | Some v =>
      negb (truthy v)
      || match v with
         | JStr s => String.eqb (strip s) EmptyString
         | _ => true
         end
  end.

(** The body of the [try]: [None] stands for an exception. [data.get]
    exists on dicts only; on any other value the attribute lookup raises
    [AttributeError] at the first field. *)
Definition validate_fields (data : json) : option bool :=
  match data with
  | JObj members => Some (forallb (λ field, negb (field_invalid members field)) required_fields)
  | _ => None
  end.

(** [validate_prediction(data)]: [except Exception] turns every exception
    into [False]. *)
Definition validate_prediction (data : json) : bool :=
  default false (validate_fields data).

(** ** The loop of [main] *)

(** [entry[key]] on a decoded JSON line. *)
Definition getitem (entry : json) (key : string) : py json :=
  match entry with
  | JObj members =>
      match dict_get members key with
      | Some v => Ok v
      | None => Raise KeyError
      end
  | _ => Raise TypeError
  end.

(** The prediction before the API result is merged in. *)
Definition empty_prediction (address : string) : dict json :=
  [("Contract Address", JStr address);
   ("Project Name", JStr EmptyString);
   ("Public Name Tag", JStr EmptyString);
   ("UI/Website Link", JStr EmptyString);
   ("Public Note", JStr EmptyString)].

(** [prediction.update(result)] for a dict [result]. *)
Definition dict_update {V : Type} (d other : dict V) : dict V :=
  fold_left (λ acc kv, dict_set acc (fst kv) (snd kv)) other d.

(** What the script has produced so far: the lines written to the output
    file (each a prediction, before [json.dumps]), the list [predictions],
    the list [failed_addresses] and the number of API requests made. *)
Record progress : Type := {
  written : list (dict json);
  predictions : list (dict json);
  failed_addresses : list string;
  requests : nat
}.

Definition start : progress :=
  {| written := []; predictions := []; failed_addresses := []; requests := 0 |}.

Section Main.

(** [query_perplexity(address, chain)]: the answer to the request number
    [k], [JNull] when the function returns [None]. The function catches
    its own exceptions. *)
Variable query_perplexity : nat → string → string → json.

(** The prediction kept for a record. *)
Definition prediction_of (address : string) (result : json) : dict json :=
  if truthy result && validate_prediction result
  then match result with
       | JObj members => dict_update (empty_prediction address) members
       | _ => empty_prediction address
       end
  else empty_prediction address.

(** One iteration of [for entry in entries]. An entry that is not a dict
    with a string under ["Contract Address"] raises before anything is
    written. *)
Definition process_entry (s : progress) (entry : json) : py progress :=
  address ← getitem entry "Contract Address";
  match address with
  | JStr address =>
      chain ← get_chain_name address;
      let result := query_perplexity (requests s) address chain in
      let prediction := prediction_of address result in
      let failed :=
        if truthy result && validate_prediction result then failed_addresses s
        else failed_addresses s ++ [address] in
      mret {| written := written s ++ [prediction];
              predictions := predictions s ++ [prediction];
              failed_addresses := failed;
              requests := S (requests s) |}
  | _ => Raise TypeError
  end.

(** The loop, with the state it leaves behind when an iteration raises:
    what was written to the file before stays there. *)
Fixpoint main_loop (entries : list json) (s : progress) : py unit * progress :=
  match entries with
  | [] => (Ok tt, s)
  | entry :: entries' =>
      match process_entry s entry with
      | Ok s' => main_loop entries' s'
      | Raise e => (Raise e, s)
      end
  end.

(** [main()] for given input lines: the outer [except Exception] logs the
    exception and returns. *)
Definition main (entries : list json) : progress :=
  snd (main_loop entries start).

(** The chain name passed to the request for an address. *)
Definition chain_of (address : string) : string :=
  match get_chain_name address with
  | Ok chain => chain
  | Raise _ => "Unknown"
  end.

(** The API answer for the record at position [k]. *)
Definition answer (k : nat) (address : string) : json :=
  query_perplexity k address (chain_of address).

Definition accepted (result : json) : bool :=
  truthy result && validate_prediction result.

(** The lines produced for a list of addresses, the first request being
    number [k], and the addresses reported as failed. *)
Fixpoint outputs (k : nat) (addresses : list string) : list (dict json) :=
  match addresses with
  | [] => []
  | address :: addresses' =>
      prediction_of address (answer k address) :: outputs (S k) addresses'
  end.

Fixpoint failures (k : nat) (addresses : list string) : list string :=
  match addresses with
  | [] => []
  | address :: addresses' =>
      if accepted (answer k address) then failures (S k) addresses'
      else address :: failures (S k) addresses'
  end.

End Main.

(** ** Notions used in the statements about the prediction script *)

(** Decimal notation of a chain id, as in a CAIP-10 address. *)
Definition decimal (n : N) : string :=
  DecimalString.NilEmpty.string_of_uint (N.to_uint n).

(** Only whitespace, or empty. *)
Definition blank (s : string) : bool := forallb is_space (list_ascii_of_string s).

Definition all_digits (s : string) : bool := forallb is_digit (list_ascii_of_string s).

(** The string under ["Contract Address"] of an entry that has one. *)
Definition entry_address (entry : json) : option string :=
  match entry with
  | JObj members =>
      match dict_get members "Contract Address" with
      | Some (JStr address) => Some address
      | _ => None
      end
  | _ => None
  end.

(** An entry the loop can process. *)
Definition entry_ok (entry : json) : Prop :=
  ∃ address, entry_address entry = Some address ∧ String.length address ≤ MAX_STR_DIGITS.

(** ** A sample run

    Two ground-truth lines and an API that answers the first request with a
    complete prediction and the second with nothing. *)

Definition sample_entries : list json :=
  [JObj [("Contract Address", JStr "eip155:1:0xE592427A0AEce92De3Edee1F18E0157C05861564");
         ("Project Name", JStr "Uniswap")];
   JObj [("Contract Address", JStr "eip155:137:0x7ceB23fD6bC0adD59E62ac25578270cFf1b9f619");
         ("Project Name", JStr "Polygon")]].

Definition sample_api (k : nat) (address chain : string) : json :=
  match k with
  | 0 => JObj [("Project Name", JStr "Uniswap");
               ("Public Name Tag", JStr "Uniswap V3: Router");
               ("UI/Website Link", JStr "uniswap.org");
               ("Public Note", JStr ("Swap router on " ++ chain))]
  | _ => JNull
  end.

(** * Model-output comparison (eval-script.py)

    [ContractTaggingEval._compare] parses the model output line by line
    into a dict and scores it against the expected dict of the sample;
    [eval_sample] derives [correct] from the scores. The HTTP request, the
    prompt and the completion function are outside of the embedding: the
    response of the model is an argument. *)

Definition newline : ascii := ascii_of_nat 10.

(** [c in s] for a single character. *)
Fixpoint contains_char (c : ascii) (s : string) : bool :=
  match s with
  | EmptyString => false
  | String c' s' => Ascii.eqb c' c || contains_char c s'
  end.

(** [s.split(sep)] for a separator of one character. *)
Fixpoint split_char (sep : ascii) (s : string) : list string :=
  match s with
  | EmptyString => [EmptyString]
  | String c s' =>
      if Ascii.eqb c sep then EmptyString :: split_char sep s'
      else match split_char sep s' with
           | w :: ws => String c w :: ws
           | [] => [String c EmptyString]
           end
  end.

(** [s.split(sep, 1)] *)
Fixpoint split_once (sep : ascii) (s : string) : list string :=
  match s with
  | EmptyString => [EmptyString]
  | String c s' =>
      if Ascii.eqb c sep then [EmptyString; s']
      else match split_once sep s' with
           | w :: ws => String c w :: ws
           | [] => [String c EmptyString]
           end
  end.

(** [s.replace(a, b)] for single characters. *)
Fixpoint replace_char (a b : ascii) (s : string) : string :=
  match s with
  | EmptyString => EmptyString
  | String c s' => String (if Ascii.eqb c a then b else c) (replace_char a b s')
  end.

(** [key.strip().lower().replace(" ", "_")] *)
Definition normalize_key (key : string) : string :=
  replace_char " " "_" (lower (strip key)).

(** One iteration of [for line in actual.strip().split("\n")]. The
    unpacking [key, value = line.split(":", 1)] raises [ValueError] unless
    the split gives two parts. *)
Definition parse_line (parsed_output : gmap string string) (line : string)
    : py (gmap string string) :=
  if contains_char ":" line then
    match split_once ":" line with
    | [key; value] => Ok (<[normalize_key key := strip value]> parsed_output)
    | _ => Raise ValueError
    end
  else Ok parsed_output.

Definition required_output_fields : list string :=
  ["project_name"; "public_name_tag"; "ui_link"].

(** The dict returned by [_compare]; the scores are the floats 0.0 and
    1.0. *)
Record scores : Type := {
  accuracy : Q;
  completeness : Q;
  formatting : Q;
  errors : list string
}.

(** [parsed_output == expected]: the same keys, and under each key of
    [expected] the string parsed for it. *)
Definition value_eqb (v : json) (s : string) : bool :=
  match v with
  | JStr t => String.eqb t s
  | _ => false
  end.

Definition dict_eqb (parsed_output : gmap string string) (expected : gmap string json) : bool :=
  bool_decide (dom parsed_output = dom expected)
  && forallb (λ kv : string * string,
                match expected !! fst kv with
                | Some v => value_eqb v (snd kv)
                | None => false
                end)
             (map_to_list parsed_output).

(** The body of the [try]. *)
Definition compare_body (expected : gmap string json) (actual : string) : py scores :=
  parsed_output ← foldM parse_line (split_char newline (strip actual)) ∅;
  let missing_fields :=
    filter (λ field, parsed_output !! field = None) required_output_fields in
  let completeness_score := match missing_fields with [] => 1%Q | _ => 0%Q end in
  let formatting_errors :=
    if 50 <? String.length (default EmptyString (parsed_output !! "public_name_tag"))
    then ["Tag exceeds 50 characters"] else [] in
  let accuracy_score := if dict_eqb parsed_output expected then 1%Q else 0%Q in
  mret {| accuracy := accuracy_score;
          completeness := completeness_score;
          formatting := match formatting_errors with [] => 1%Q | _ => 0%Q end;
          errors := formatting_errors |}.

(** [_compare(expected, actual)]. The two handlers put the text of the
    exception after the prefix; that text is not part of the model. *)
Definition _compare (expected : gmap string json) (actual : string) : py scores :=
  match compare_body expected actual with
  | Raise KeyError =>
      Ok {| accuracy := 0; completeness := 0; formatting := 0; errors := ["Key error: "] |}
  | Raise ValueError =>
      Ok {| accuracy := 0; completeness := 0; formatting := 0; errors := ["Value error: "] |}
  | outcome => outcome
  end.

(** [correct] as computed by [eval_sample]. *)
Definition correct (result : scores) : bool :=
  Qle_bool (9 # 10) (accuracy result)
  && Qeq_bool (completeness result) 1
  && Qeq_bool (formatting result) 1.

(** [eval_sample] from the response of the model on: the result returned
    and the [correct] flag recorded. *)
Definition eval_sample (expected : gmap string json) (response : string)
    : py (scores * bool) :=
  result ← _compare expected response;
  mret (result, correct result).

(** ** Notions used in the statements about the comparison *)

Definition is_upper (c : ascii) : bool :=
  let n := nat_of_ascii c in (65 <=? n) && (n <=? 90).

(** A key as [_compare] stores it: no upper-case letter, no space, no
    colon, no line feed, no whitespace at either end. *)
Definition key_normal (key : string) : Prop :=
  Forall (λ c, is_upper c = false ∧ c ≠ " "%char ∧ c ≠ ":"%char ∧ c ≠ newline)
         (list_ascii_of_string key)
  ∧ strip key = key.

(** A value as [_compare] stores it: stripped, on one line. *)
Definition value_normal (value : string) : Prop :=
  strip value = value ∧ contains_char newline value = false.

(** Everything stored in the parsed dict is in that form. *)
Definition parsed_normal (parsed_output : gmap string string) : Prop :=
  ∀ key value, parsed_output !! key = Some value → key_normal key ∧ value_normal value.

Definition pair_normal (kv : string * string) : Prop :=
  key_normal (fst kv) ∧ value_normal (snd kv).

(** An expected dict that a response can match. *)
Definition expected_normal (expected : gmap string json) : Prop :=
  (∀ key v, expected !! key = Some v →
     key_normal key ∧ ∃ value, v = JStr value ∧ value_normal value)
  ∧ (∀ field, field ∈ required_output_fields → is_Some (expected !! field))
  ∧ (∀ tag, expected !! "public_name_tag" = Some (JStr tag) → String.length tag ≤ 50).

(** A response that lists key and value pairs, one [key:value] per line. *)
Fixpoint render_lines (pairs : list (string * string)) : string :=
  match pairs with
  | [] => EmptyString
  | (key, value) :: pairs' =>
      match pairs' with
      | [] => key ++ String ":" value
      | _ => key ++ String ":" (value ++ String newline (render_lines pairs'))
      end
  end.

(** The strings of a dict whose values are all strings. *)
Definition strings_of (expected : gmap string json) : gmap string string :=
  omap (λ v, match v with JStr value => Some value | _ => None end) expected.

(** ** From the prediction script to the evaluator

    The record that the evaluator reads back from the line written for a
    request that failed: the members of [empty_prediction], as strings. *)
Definition failed_record (address : string) : entry :=
  <["Contract Address" := address]>
    (<["Project Name" := EmptyString]>
       (<["Public Name Tag" := EmptyString]>
          (<["UI/Website Link" := EmptyString]>
             (<["Public Note" := EmptyString]> ∅)))).

(** * Verification *)

(** ** The index built by [__chain_b] *)

Lemma ascending_snoc js n :
  ascending js → (∀ j, j ∈ js → j < n) → ascending (js ++ [n]).
Proof.
  induction js as [|j js IH]; simpl.
  - intros _ _. split; [|done]. intros j' Hj'. by apply elem_of_nil in Hj'.
  - intros [Hlt Hasc] Hbound. split.
    + intros j' Hj'. apply elem_of_app in Hj' as [Hj'|Hj'].
      * by apply Hlt.
      * apply list_elem_of_singleton in Hj' as ->. apply Hbound. left.
    + apply IH; [done|]. intros j' Hj'. apply Hbound. by right.
Qed.

Section SequenceMatcherFacts.
Context {A : Type} `{Countable A}.
Implicit Types (a b s : list A) (x y : A).

Lemma combine_snoc {X Y : Type} (l1 : list X) (l2 : list Y) u v :
  length l1 = length l2 →
  combine (l1 ++ [u]) (l2 ++ [v]) = combine l1 l2 ++ [(u, v)].
Proof.
  revert l2. induction l1 as [|p l1 IH]; intros [|q l2] Hlen; simpl in *; try done.
  f_equal. apply IH. lia.
Qed.

Lemma enumerate_snoc b x :
  enumerate (b ++ [x]) = enumerate b ++ [(length b, x)].
Proof.
  unfold enumerate. rewrite length_app. simpl.
  rewrite Nat.add_1_r, seq_S. simpl.
  apply combine_snoc. by rewrite length_seq.
Qed.

Lemma b2j_full_indexes b : indexes b (b2j_full b).
Proof.
  unfold b2j_full. induction b as [|y b IH] using rev_ind.
  - intros x. simpl. rewrite lookup_empty. simpl. split; [done|].
    intros j. rewrite elem_of_nil. by rewrite lookup_nil.
  - rewrite enumerate_snoc, fold_left_app. simpl.
    set (m := fold_left chain_step (enumerate b) ∅) in *.
    intros x. unfold chain_step. simpl.
    destruct (IH x) as [Hasc Hmem].
    destruct (decide (y = x)) as [->|Hne].
    + rewrite lookup_insert_eq. simpl. split.
      * apply ascending_snoc; [done|]. intros j Hj.
        apply Hmem in Hj. by apply lookup_lt_Some in Hj.
      * intros j. rewrite elem_of_app, list_elem_of_singleton, Hmem.
        destruct (decide (j < length b)) as [Hlt|Hge].
        -- rewrite lookup_app_l by done. split; [|by left].
           intros [?| ->]; [done|lia].
        -- split.
           ++ intros [Hj| ->].
              ** apply lookup_lt_Some in Hj. lia.
              ** by rewrite list_lookup_middle.
           ++ intros Hj. right.
              apply lookup_lt_Some in Hj. rewrite length_app in Hj. simpl in Hj. lia.
    + rewrite lookup_insert_ne by done. split; [done|].
      intros j. rewrite Hmem.
      destruct (decide (j < length b)) as [Hlt|Hge].
      * by rewrite lookup_app_l.
      * split.
        -- intros Hj. apply lookup_lt_Some in Hj. lia.
        -- intros Hj. destruct (decide (j = length b)) as [->|Hne'].
           ++ rewrite list_lookup_middle in Hj by done. congruence.
           ++ apply lookup_lt_Some in Hj. rewrite length_app in Hj. simpl in Hj. lia.
Qed.

Lemma b2j_lookup b x js :
  b2j b !! x = Some js →
  ascending js ∧ ∀ j, j ∈ js ↔ b !! j = Some x.
Proof.
  intros Hjs.
  assert (Hfull : b2j_full b !! x = Some js).
  { unfold b2j in Hjs. destruct (200 <=? length b); [|done].
    by apply map_lookup_filter_Some in Hjs as [? _]. }
  pose proof (b2j_full_indexes b x) as Hidx. by rewrite Hfull in Hidx.
Qed.

(** The positions scanned for an element of [a]: [b2j.get(x, nothing)]. *)
Lemma b2j_get_spec b x :
  let js := default [] (b2j b !! x) in
  ascending js
  ∧ (∀ j, j ∈ js → b !! j = Some x)
  ∧ (js ≠ [] → ∀ j, b !! j = Some x → j ∈ js).
Proof.
  simpl. destruct (b2j b !! x) as [js|] eqn:Hjs; simpl.
  - apply b2j_lookup in Hjs as [Hasc Hmem]. split; [done|]. split.
    + intros j. apply Hmem.
    + intros _ j. apply Hmem.
  - split; [done|]. split; [|done]. intros j Hj. by apply elem_of_nil in Hj.
Qed.

End SequenceMatcherFacts.

(** ** A sequence matched against itself *)

Section Reflexive.
Context {A : Type} `{Countable A}.
Variable s : list A.

Lemma run_unfold c :
  run s c = match s !! c with
          | Some x => if kept s x then S (prev_of (run s) c) else 0
          | None => 0
          end.
Proof. by destruct c. Qed.

Lemma run_le c : run s c ≤ S c.
Proof.
  induction c as [|c IH]; rewrite run_unfold; simpl;
    destruct (s !! _); try lia; destruct (kept s _); lia.
Qed.

Lemma run_kept c x : s !! c = Some x → kept s x = true → run s c = S (prev_of (run s) c).
Proof. intros Hc Hx. by rewrite run_unfold, Hc, Hx. Qed.

Lemma j2lenget_le (j2len : gmap nat nat) (f : nat → nat) (bound : nat) j :
  (∀ c, default 0 (j2len !! c) ≤ f c) → j2lenget j2len j ≤ prev_of f j.
Proof. intros Hle. destruct j; simpl; [lia|apply Hle]. Qed.

Lemma j2lenget_bound (j2len : gmap nat nat) (bound : nat) j :
  (∀ c, default 0 (j2len !! c) ≤ bound) → j2lenget j2len j ≤ bound.
Proof. intros Hle. destruct j; simpl; [lia|apply Hle]. Qed.

Lemma scan_row_mid i x prev rest new best :
  s !! i = Some x → kept s x = true →
  j2lenget prev i = prev_of (run s) i →
  (∀ c, default 0 (prev !! c) ≤ prev_of (run s) i) →
  (∀ c, default 0 (prev !! c) ≤ run s c) →
  ascending rest → (∀ j, j ∈ rest → s !! j = Some x) →
  mid_inv s i rest (new, best) →
  mid_inv s i [] (scan_row i 0 (length s) prev rest new best).
Proof.
  intros Hi Hx Hg Hh Hf. revert new best.
  induction rest as [|j rest IH]; intros new best Hasc Hrest Hmid; [done|].
  simpl in Hasc. destruct Hasc as [Hlt Hasc].
  assert (Hj : s !! j = Some x) by (apply Hrest; left).
  assert (Hjn : j < length s) by (by apply lookup_lt_Some in Hj).
  cbn [scan_row].
  replace (j <? 0) with false by (symmetry; apply Nat.ltb_ge; lia).
  replace (length s <=? j) with false by (symmetry; apply Nat.leb_gt; lia).
  set (k := j2lenget prev j + 1).
  assert (Hkj : k ≤ run s j).
  { rewrite (run_kept j x) by done. unfold k.
    pose proof (j2lenget_le prev (run s) 0 j Hf). lia. }
  assert (Hki : k ≤ run s i).
  { rewrite (run_kept i x) by done. unfold k.
    pose proof (j2lenget_bound prev _ j Hh). lia. }
  destruct Hmid as (Hm1 & Hm2 & Hm3 & Hm4 & Hm5 & Hm6). simpl in *.
  apply IH; [done|by intros j' Hj'; apply Hrest; right|].
  unfold mid_inv. simpl.
  assert (Hnew1 : ∀ c, default 0 (<[j:=k]> new !! c) ≤ run s i).
  { intros c. destruct (decide (j = c)) as [->|Hne].
    - by rewrite lookup_insert_eq.
    - rewrite lookup_insert_ne by done. apply Hm1. }
  assert (Hnew2 : ∀ c, default 0 (<[j:=k]> new !! c) ≤ run s c).
  { intros c. destruct (decide (j = c)) as [->|Hne].
    - by rewrite lookup_insert_eq.
    - rewrite lookup_insert_ne by done. apply Hm2. }
  destruct (lt_eq_lt_dec j i) as [[Hji| ->]|Hij].
  - (* below the diagonal *)
    assert (Hk : k ≤ match_size best) by (specialize (Hm3 j Hji); lia).
    replace (match_size best <? k) with false by (symmetry; apply Nat.ltb_ge; lia).
    repeat split; try done.
    destruct Hm6 as [Hin|[Hin Hle]].
    + left. apply elem_of_cons in Hin as [->|Hin]; [lia|done].
    + right. rewrite lookup_insert_ne by lia. done.
  - (* on the diagonal *)
    assert (Hk : k = run s i).
    { rewrite (run_kept i x) by done. unfold k. rewrite Hg. lia. }
    destruct (match_size best <? k) eqn:Hupd.
    + apply Nat.ltb_lt in Hupd. pose proof (run_le i).
      repeat split; simpl; try done.
      * intros c Hc. specialize (Hm3 c Hc). unfold match_size in *. simpl. lia.
      * unfold match_size. simpl. lia.
      * right. rewrite lookup_insert_eq. unfold match_size. simpl. split; [by rewrite Hk|lia].
    + apply Nat.ltb_ge in Hupd.
      repeat split; try done.
      right. rewrite lookup_insert_eq. split; [by rewrite Hk|lia].
  - (* above the diagonal *)
    destruct Hm6 as [Hin|[Hin Hle]].
    { apply elem_of_cons in Hin as [->|Hin]; [lia|]. apply Hlt in Hin. lia. }
    replace (match_size best <? k) with false by (symmetry; apply Nat.ltb_ge; lia).
    repeat split; try done.
    right. rewrite lookup_insert_ne by lia. done.
Qed.

Lemma scan_step_inv i st :
  i < length s → row_inv s i st → row_inv s (S i) (scan_step s s 0 (length s) st i).
Proof.
  intros Hi (Hg & Hh & Hf & He & Hd & Hb).
  destruct (lookup_lt_is_Some_2 s i Hi) as [x Hx].
  unfold scan_step. rewrite Hx.
  destruct (b2j_get_spec s x) as (Hasc & Hmem & Hall).
  destruct (kept s x) eqn:Hkept.
  - assert (Hne : default [] (b2j s !! x) ≠ []).
    { unfold kept in Hkept. by apply bool_decide_eq_true in Hkept. }
    pose proof (scan_row_mid i x (fst st) (default [] (b2j s !! x)) ∅ (snd st)
                  Hx Hkept Hg Hh Hf Hasc Hmem) as Hmid.
    destruct Hmid as (Hm1 & Hm2 & Hm3 & Hm4 & Hm5 & Hm6).
    { repeat split; simpl; try done.
      - intros c. rewrite lookup_empty. simpl. lia.
      - intros c. rewrite lookup_empty. simpl. lia.
      - lia.
      - left. by apply Hall. }
    destruct Hm6 as [Hin|[Hin Hle]]; [by apply elem_of_nil in Hin|].
    repeat split; simpl; try done.
    + by rewrite Hin.
    + intros c Hc. destruct (decide (c = i)) as [->|Hne']; [done|]. apply Hm3. lia.
  - assert (Hnil : default [] (b2j s !! x) = []).
    { unfold kept in Hkept. apply bool_decide_eq_false in Hkept.
      destruct (default [] (b2j s !! x)); [done|]. by destruct Hkept. }
    rewrite Hnil. simpl.
    assert (Hrun : run s i = 0) by (by rewrite run_unfold, Hx, Hkept).
    repeat split; simpl; try done.
    all: try (intros c; rewrite ?lookup_empty; simpl; lia).
    all: try (rewrite ?lookup_empty; simpl; lia).
    intros c Hc. destruct (decide (c = i)) as [->|Hne']; [lia|]. apply He. lia.
Qed.

Lemma scan_rows_inv m : ∀ i st,
  i + m = length s → row_inv s i st →
  row_inv s (length s) (fold_left (scan_step s s 0 (length s)) (seq i m) st).
Proof.
  induction m as [|m IH]; intros i st Hlen Hinv; simpl.
  - by replace (length s) with i by lia.
  - apply IH; [lia|]. apply scan_step_inv; [lia|done].
Qed.

Lemma extend_left_same want besti size :
  want = false → besti ≤ length s →
  extend_left s s want 0 0 besti besti size = (0, 0, size + besti).
Proof.
  intros ->. revert size. induction besti as [|i IH]; intros size Hle; simpl.
  - f_equal. lia.
  - rewrite Nat.sub_0_r.
    destruct (lookup_lt_is_Some_2 s i) as [v Hv]; [lia|].
    rewrite Hv. simpl. rewrite bool_decide_eq_true_2 by done.
    rewrite IH by lia. f_equal. lia.
Qed.

Lemma extend_right_same gap : ∀ size,
  size + gap = length s →
  extend_right s s false (length s) (length s) 0 0 gap size = length s.
Proof.
  induction gap as [|gap IH]; intros size Hlen; simpl; [lia|].
  replace (size <? length s) with true by (symmetry; apply Nat.ltb_lt; lia).
  destruct (lookup_lt_is_Some_2 s size) as [v Hv]; [lia|].
  rewrite Hv. simpl. rewrite bool_decide_eq_true_2 by done.
  apply IH. lia.
Qed.

(** The first block found when a sequence is matched against itself is the
    whole sequence, also when popular elements were purged from [b2j]. *)
Lemma find_longest_match_same :
  find_longest_match s s 0 (length s) 0 (length s) = (0, 0, length s).
Proof.
  unfold find_longest_match, scan_rows. rewrite Nat.sub_0_r.
  pose proof (scan_rows_inv (length s) 0 (∅, (0, 0, 0))) as Hinv.
  destruct Hinv as (_ & _ & _ & _ & Hd & Hb); [lia| |].
  { repeat split; simpl; try done; try lia.
    all: intros c; rewrite ?lookup_empty; simpl; lia. }
  destruct (fold_left _ _ _) as [j2len [[besti bestj] bestsize]].
  unfold match_size in *. simpl in *. subst bestj.
  unfold extend.
  rewrite extend_left_same by (done || lia).
  rewrite extend_right_same by lia.
  simpl. replace (length s - length s) with 0 by lia. done.
Qed.

End Reflexive.

(** ** The ratio of identical and of disjoint sequences *)

Section Ratio.
Context {A : Type} `{Countable A}.
Implicit Types (a b s : list A).

Lemma positive_of_nat (m : nat) : m ≠ 0 → Z.pos (Pos.of_nat m) = Z.of_nat m.
Proof. intros Hm. by rewrite <- positive_nat_Z, Nat2Pos.id. Qed.

Lemma calculate_ratio_all (n : nat) : _calculate_ratio n (n + n) = 1%Q.
Proof.
  unfold _calculate_ratio. destruct (n + n =? 0) eqn:Hz; [done|].
  apply Nat.eqb_neq in Hz.
  change 1%Q with (Qred 1). apply Qred_complete.
  unfold Qeq. simpl Qnum. simpl Qden.
  rewrite positive_of_nat by done. lia.
Qed.

Lemma calculate_ratio_none (len : nat) :
  _calculate_ratio 0 len = if len =? 0 then 1%Q else 0%Q.
Proof.
  unfold _calculate_ratio. destruct (len =? 0); [done|].
  change 0%Q with (Qred 0). apply Qred_complete. done.
Qed.

Lemma get_matching_blocks_same s :
  list_sum (map match_size (get_matching_blocks s s)) = length s.
Proof.
  unfold get_matching_blocks, matching_fuel.
  replace (2 * length s + 1) with (S (2 * length s)) by lia.
  cbn [matching_loop]. rewrite find_longest_match_same.
  destruct (length s) as [|n] eqn:Hlen.
  - simpl. done.
  - replace (S n =? 0) with false by done.
    replace (0 <? 0) with false by done. rewrite Nat.ltb_irrefl.
    cbn [andb]. replace (2 * S n) with (S (S (2 * n))) by lia.
    cbn. unfold match_size. simpl. lia.
Qed.

Lemma ratio_same s : ratio s s = 1%Q.
Proof. unfold ratio. rewrite get_matching_blocks_same. apply calculate_ratio_all. Qed.

Lemma scan_rows_disjoint a b blo bhi l st :
  disjoint_seqs a b →
  snd (fold_left (scan_step a b blo bhi) l st) = snd st.
Proof.
  intros Hdis. revert st. induction l as [|i l IH]; intros st; [done|].
  simpl. rewrite IH. unfold scan_step.
  destruct (a !! i) as [x|] eqn:Hx; [|done].
  destruct (b2j_get_spec b x) as (_ & Hmem & _).
  destruct (default [] (b2j b !! x)) as [|j js]; [done|].
  exfalso. apply (Hdis x).
  - by eapply list_elem_of_lookup_2.
  - eapply list_elem_of_lookup_2. apply Hmem. left.
Qed.

Lemma elem_eqb_disjoint a b i j :
  disjoint_seqs a b → elem_eqb (a !! i) (b !! j) = false.
Proof.
  intros Hdis. unfold elem_eqb.
  destruct (a !! i) as [u|] eqn:Hu; [|done].
  destruct (b !! j) as [v|] eqn:Hv; [|done].
  apply bool_decide_eq_false. intros ->.
  apply (Hdis v); by eapply list_elem_of_lookup_2.
Qed.

Lemma extend_disjoint a b want alo ahi blo bhi :
  disjoint_seqs a b →
  extend a b want alo ahi blo bhi (alo, blo, 0) = (alo, blo, 0).
Proof.
  intros Hdis. unfold extend.
  assert (Hleft : extend_left a b want alo blo alo blo 0 = (alo, blo, 0)).
  { destruct alo as [|i]; [done|]. cbn [extend_left].
    by rewrite (elem_eqb_disjoint a b i (blo - 1) Hdis), andb_false_r. }
  rewrite Hleft. f_equal.
  destruct (ahi - (alo + 0)) as [|gap]; [done|]. cbn [extend_right].
  by rewrite (elem_eqb_disjoint a b _ _ Hdis), andb_false_r.
Qed.

Lemma find_longest_match_disjoint a b alo ahi blo bhi :
  disjoint_seqs a b → find_longest_match a b alo ahi blo bhi = (alo, blo, 0).
Proof.
  intros Hdis. unfold find_longest_match, scan_rows.
  rewrite scan_rows_disjoint by done. cbn [snd].
  by rewrite !extend_disjoint.
Qed.

Lemma ratio_disjoint a b :
  disjoint_seqs a b → ratio a b = _calculate_ratio 0 (length a + length b).
Proof.
  intros Hdis. unfold ratio, get_matching_blocks, matching_fuel.
  replace (2 * length a + 1) with (S (2 * length a)) by lia.
  cbn [matching_loop]. rewrite find_longest_match_disjoint by done.
  simpl. destruct (length a + (length a + 0)); done.
Qed.

Lemma disjoint_seqs_sym a b : disjoint_seqs a b → disjoint_seqs b a.
Proof. intros Hdis x Hb Ha. by apply (Hdis x). Qed.

End Ratio.

(** ** Strings *)

Lemma length_chars_lower s :
  length (list_ascii_of_string (lower s)) = String.length s.
Proof. induction s as [|c s IH]; simpl; congruence. Qed.

Lemma length_chars_nonempty s :
  s ≠ EmptyString → length (list_ascii_of_string (lower s)) ≠ 0.
Proof. rewrite length_chars_lower. by destruct s. Qed.

(** ** The similarity primitive *)

(** C5. For every string [s], [sequence_similarity(s, s) == 1.0]: matching
    a lowercased string against itself finds one block that covers the
    whole string, also for strings of 200 characters or more, where
    [__chain_b] purges the popular characters from [b2j]. The underlying
    fact, [ratio_same], holds for sequences over any alphabet. *)
Theorem calculate_similarity_reflexive (s : string) :
  calculate_similarity s s = 1%Q.
Proof. apply ratio_same. Qed.

(** C6 as stated fails. [find_longest_match] keeps the first longest block
    in the order of the first sequence, so the blocks found depend on the
    order of the arguments: "tide" against "diet" matches one character
    (0.25), "diet" against "tide" matches two (0.5). *)
Lemma calculate_similarity_asymmetric :
  calculate_similarity "tide" "diet" = (1 # 4)%Q
  ∧ calculate_similarity "diet" "tide" = (1 # 2)%Q
  ∧ ¬ (calculate_similarity "tide" "diet" == calculate_similarity "diet" "tide")%Q.
Proof.
  assert (H1 : calculate_similarity "tide" "diet" = (1 # 4)%Q) by (by vm_compute).
  assert (H2 : calculate_similarity "diet" "tide" = (1 # 2)%Q) by (by vm_compute).
  split_and!; [done|done|]. rewrite H1, H2. by intros Heq.
Qed.

(** C6, amended. [sequence_similarity(a, b) == sequence_similarity(b, a)]
    holds when the two strings are equal up to case, and when they have no
    character in common after lowercasing (in particular when one of them
    is empty). *)
Theorem calculate_similarity_symmetric_cases (a b : string) :
  lower a = lower b
  ∨ disjoint_seqs (list_ascii_of_string (lower a)) (list_ascii_of_string (lower b)) →
  calculate_similarity a b = calculate_similarity b a.
Proof.
  unfold calculate_similarity. intros [Heq|Hdis].
  - by rewrite Heq.
  - rewrite (ratio_disjoint _ _ Hdis).
    rewrite (ratio_disjoint _ _ (disjoint_seqs_sym _ _ Hdis)).
    by rewrite Nat.add_comm.
Qed.

Lemma calculate_similarity_symmetric_cases_witness :
  (lower "Acme" = lower "ACME"
   ∨ disjoint_seqs (list_ascii_of_string (lower "Acme"))
                   (list_ascii_of_string (lower "ACME")))
  ∧ calculate_similarity "Acme" "ACME" = calculate_similarity "ACME" "Acme".
Proof.
  split; [left; reflexivity|].
  apply (calculate_similarity_symmetric_cases "Acme" "ACME"). left. reflexivity.
Defined.

(** C7. [sequence_similarity] is 1.0 when both strings are empty and 0.0
    when exactly one of them is. *)
Theorem calculate_similarity_empty (s : string) :
  calculate_similarity EmptyString EmptyString = 1%Q
  ∧ (s ≠ EmptyString →
     calculate_similarity s EmptyString = 0%Q
     ∧ calculate_similarity EmptyString s = 0%Q).
Proof.
  split; [by vm_compute|]. intros Hs.
  pose proof (length_chars_nonempty s Hs) as Hlen.
  unfold calculate_similarity. cbn [lower list_ascii_of_string].
  rewrite (ratio_disjoint (list_ascii_of_string (lower s)) [])
    by (intros x _ Hx; by apply elem_of_nil in Hx).
  rewrite (ratio_disjoint [] (list_ascii_of_string (lower s)))
    by (intros x Hx; by apply elem_of_nil in Hx).
  rewrite !calculate_ratio_none. cbn [length].
  rewrite Nat.add_0_r, Nat.add_0_l.
  by apply Nat.eqb_neq in Hlen as ->.
Qed.

(** The two argument orders of the specification's NearMatch example. *)
Example similarity_uniswap :
  calculate_similarity "Uniswap V3" "Uniswap V3 Router" = (20 # 27)%Q
  ∧ calculate_similarity "Uniswap V3 Router" "Uniswap V3" = (20 # 27)%Q.
Proof. split; by vm_compute. Qed.

(** ** Cosine similarity *)

Lemma lower_ascii_idempotent c : lower_ascii (lower_ascii c) = lower_ascii c.
Proof. destruct c as [[] [] [] [] [] [] [] []]; reflexivity. Qed.

Lemma lower_idempotent s : lower (lower s) = lower s.
Proof.
  induction s as [|c s IH]; simpl; [done|].
  by rewrite lower_ascii_idempotent, IH.
Qed.

Lemma analyze_lower text : analyze (lower text) = analyze text.
Proof. unfold analyze. by rewrite lower_idempotent. Qed.

Lemma count_row_no_tokens vocab : ∀ col, count_row col vocab [] = [].
Proof. induction vocab as [|t vocab IH]; intros col; simpl; [done|apply IH]. Qed.

Lemma insert_term_not_nil t vocab : insert_term t vocab ≠ [].
Proof.
  destruct vocab as [|u vocab]; simpl; [done|].
  destruct (String.eqb t u); [done|]. by destruct (String.ltb t u).
Qed.

Lemma vocabulary_not_nil tokens1 tokens2 :
  tokens1 ≠ [] ∨ tokens2 ≠ [] → vocabulary [tokens1; tokens2] ≠ [].
Proof.
  unfold vocabulary. simpl. rewrite app_nil_r.
  intros Hne.
  assert (Hall : tokens1 ++ tokens2 ≠ []).
  { destruct tokens1; [|done]. destruct Hne as [?|?]; done. }
  destruct (tokens1 ++ tokens2) as [|t l] using rev_ind; [done|].
  rewrite fold_left_app. simpl. apply insert_term_not_nil.
Qed.

(** The vectorizer raises only when neither document yields a term. *)
Lemma fit_transform_raises text1 text2 e :
  fit_transform text1 text2 = Raise e →
  e = ValueError ∧ analyze text1 = [] ∧ analyze text2 = [].
Proof.
  unfold fit_transform. intros Hraise.
  destruct (vocabulary [analyze text1; analyze text2]) as [|t vocab] eqn:Hvocab;
    [|done].
  split; [congruence|].
  destruct (analyze text1) as [|t1 l1] eqn:H1, (analyze text2) as [|t2 l2] eqn:H2;
    try done; exfalso;
    eapply vocabulary_not_nil; try exact Hvocab; auto.
Qed.

Lemma sparse_dot_nil_l r : sparse_dot [] r = 0%float.
Proof. reflexivity. Qed.

Lemma sparse_dot_nil_r r : sparse_dot r [] = 0%float.
Proof.
  unfold sparse_dot. generalize 0%float.
  induction r as [|kv r IH]; intros acc; simpl; [done|apply IH].
Qed.

Lemma normalize_row_nil : normalize_row [] = [].
Proof. reflexivity. Qed.

Lemma calculate_cosine_similarity_total text1 text2 :
  ∃ similarity, calculate_cosine_similarity text1 text2 = Ok similarity.
Proof.
  unfold calculate_cosine_similarity.
  destruct (fit_transform (lower text1) (lower text2)) as [vectors|e]; simpl; eauto.
Qed.

Lemma calculate_cosine_similarity_degenerate text1 text2 :
  analyze text1 = [] ∨ analyze text2 = [] →
  calculate_cosine_similarity text1 text2 = Ok 0%float.
Proof.
  intros Hempty. unfold calculate_cosine_similarity, fit_transform.
  rewrite !analyze_lower.
  destruct (vocabulary [analyze text1; analyze text2]) as [|t vocab] eqn:Hvocab;
    [done|].
  unfold cosine_similarity. cbn -[count_row normalize_row sparse_dot]. f_equal.
  destruct Hempty as [Hempty|Hempty]; rewrite Hempty.
  - rewrite (count_row_no_tokens (t :: vocab)), normalize_row_nil.
    apply sparse_dot_nil_l.
  - rewrite (count_row_no_tokens (t :: vocab)), normalize_row_nil.
    apply sparse_dot_nil_r.
Qed.

(** C8. [bag_of_words_cosine_similarity] never propagates an error: for
    every pair of strings it returns a float, and when either string
    yields no token it returns exactly 0.0. With no token at all the
    vectorizer raises [ValueError] and the bare [except] answers 0.0; with
    tokens on one side only, the empty row stores no entry and the sum of
    products stays 0.0. *)
Theorem cosine_never_raises text1 text2 :
  (∃ similarity, calculate_cosine_similarity text1 text2 = Ok similarity)
  ∧ (analyze text1 = [] ∨ analyze text2 = [] →
     calculate_cosine_similarity text1 text2 = Ok 0%float).
Proof.
  split; [apply calculate_cosine_similarity_total|
          apply calculate_cosine_similarity_degenerate].
Qed.

(** ** Field comparators *)

Lemma Qle_bool_gt (q t : Q) : negb (Qle_bool q t) = true ↔ (t < q)%Q.
Proof.
  rewrite negb_true_iff. split.
  - intros Hle. apply Qnot_le_lt. intros Hq. apply Qle_bool_iff in Hq. congruence.
  - intros Hlt. destruct (Qle_bool q t) eqn:Hle; [|done].
    apply Qle_bool_iff in Hle. exfalso. by apply (Qlt_not_le t q).
Qed.

(** C4. The Exact comparator sets [exact_match] to 1 exactly when the
    lowercased strings are equal; the NearMatch comparator reports the
    same [exact_match] and sets [near_match] to 1 exactly when the sequence
    similarity is strictly above 0.9; the Semantic comparator sets
    [meets_threshold] to 1 exactly when the cosine similarity is at least
    0.5, and its verdict has no [exact_match] field. *)
Theorem comparators_spec (gt pred : string) :
  (* Exact *)
  dict_get (evaluate_exact_field gt pred) "exact_match"
    = Some (PInt (if bool_decide (lower gt = lower pred) then 1 else 0))
  (* NearMatch *)
  ∧ dict_get (evaluate_ner_field gt pred) "exact_match"
    = dict_get (evaluate_exact_field gt pred) "exact_match"
  ∧ (∃ near_match,
       dict_get (evaluate_ner_field gt pred) "near_match" = Some (PInt near_match)
       ∧ (near_match = 1%Z ∨ near_match = 0%Z)
       ∧ (near_match = 1%Z ↔ (9 # 10 < calculate_similarity gt pred)%Q))
  (* Semantic *)
  ∧ (∃ similarity verdict meets_threshold,
       calculate_cosine_similarity gt pred = Ok similarity
       ∧ evaluate_semantic_field gt pred = Ok verdict
       ∧ dict_get verdict "meets_threshold" = Some (PInt meets_threshold)
       ∧ (meets_threshold = 1%Z ∨ meets_threshold = 0%Z)
       ∧ (meets_threshold = 1%Z ↔ (0.5 <=? similarity)%float = true)
       ∧ dict_get verdict "exact_match" = None).
Proof.
  split; [done|]. split; [done|]. split.
  - eexists. split; [reflexivity|].
    destruct (negb (Qle_bool (calculate_similarity gt pred) NEAR_THRESHOLD)) eqn:Hnear.
    + split; [by left|]. split; [|done]. intros _. by apply Qle_bool_gt.
    + split; [by right|]. split; [done|]. intros Hlt.
      apply Qle_bool_gt in Hlt. unfold NEAR_THRESHOLD in Hnear. congruence.
  - destruct (calculate_cosine_similarity_total gt pred) as [similarity Hsim].
    exists similarity. unfold evaluate_semantic_field. rewrite Hsim. simpl.
    eexists. eexists. split; [done|]. split; [reflexivity|]. split; [reflexivity|].
    unfold SEMANTIC_THRESHOLD.
    destruct (0.5 <=? similarity)%float; split_and!; auto; done.
Qed.

(** ** Dictionaries *)

Lemma dict_get_set_eq {V} (d : dict V) key v : dict_get (dict_set d key v) key = Some v.
Proof.
  induction d as [|[k w] d IH]; simpl.
  - by rewrite String.eqb_refl.
  - destruct (String.eqb k key) eqn:Hk; simpl; rewrite Hk; [done|apply IH].
Qed.

Lemma dict_get_set_ne {V} (d : dict V) key key' v :
  key ≠ key' → dict_get (dict_set d key v) key' = dict_get d key'.
Proof.
  intros Hne. apply String.eqb_neq in Hne.
  induction d as [|[k w] d IH]; simpl.
  - by rewrite Hne.
  - destruct (String.eqb k key) eqn:Hk; simpl.
    + apply String.eqb_eq in Hk as ->. by rewrite Hne.
    + by rewrite IH.
Qed.

Lemma dict_get_elem {V} (d : dict V) key v : dict_get d key = Some v → (key, v) ∈ d.
Proof.
  induction d as [|[k w] d IH]; simpl; [done|].
  destruct (String.eqb k key) eqn:Hk.
  - apply String.eqb_eq in Hk as ->. intros [= ->]. left.
  - intros Hd. right. by apply IH.
Qed.

Lemma elem_dict_keys {V} (d : dict V) key v : (key, v) ∈ d → key ∈ dict_keys d.
Proof. intros Hin. unfold dict_keys. apply list_elem_of_fmap. by exists (key, v). Qed.

Lemma schema_keys_NoDup : NoDup (dict_keys FIELD_DEFINITIONS).
Proof. apply (bool_decide_unpack _). by vm_compute. Qed.

(** ** The loop over the fields of one record pair *)

Lemma calculate_similarity_same_lower gt pred :
  lower gt = lower pred → calculate_similarity gt pred = 1%Q.
Proof. intros Heq. unfold calculate_similarity. rewrite Heq. apply ratio_same. Qed.

Lemma score_field_spec field d gt pred fm :
  ∃ e n result,
    score_field field d gt pred fm = Ok (alter (bump e n) field fm, result)
    ∧ (0 ≤ e ≤ n)%Z ∧ (n ≤ 1)%Z.
Proof.
  unfold score_field.
  destruct (String.eqb (evaluation d) "exact").
  { exists (flag (bool_decide (lower gt = lower pred))),
           (flag (bool_decide (lower gt = lower pred))), (evaluate_exact_field gt pred).
    split; [|destruct (bool_decide _); simpl; lia].
    cbn. f_equal. f_equal. rewrite !alter_alter_eq. by apply alter_ext. }
  destruct (String.eqb (evaluation d) "ner").
  { exists (flag (bool_decide (lower gt = lower pred))),
           (flag (negb (Qle_bool (calculate_similarity gt pred) NEAR_THRESHOLD))),
           (evaluate_ner_field gt pred).
    split.
    - cbn. f_equal. f_equal. rewrite !alter_alter_eq. by apply alter_ext.
    - destruct (bool_decide (lower gt = lower pred)) eqn:Hsame.
      + apply bool_decide_eq_true in Hsame.
        rewrite (calculate_similarity_same_lower gt pred Hsame). simpl. lia.
      + destruct (negb _); simpl; lia. }
  destruct (calculate_cosine_similarity_total gt pred) as [similarity Hsim].
  exists 0%Z, (flag (SEMANTIC_THRESHOLD <=? similarity)%float).
  unfold evaluate_semantic_field. rewrite Hsim. eexists. split.
  - cbn. f_equal. f_equal. rewrite !alter_alter_eq. apply alter_ext.
    intros m _. unfold bump, compose, add_total, add_near. simpl. f_equal. lia.
  - destruct (_ <=? _)%float; simpl; lia.
Qed.

Lemma evaluate_field_spec g p fm er f d :
  ∃ e n result,
    evaluate_field g p (fm, er) (f, d)
    = Ok (alter (bump e n) f fm, dict_set er f result)
    ∧ (0 ≤ e ≤ n)%Z ∧ (n ≤ 1)%Z.
Proof.
  destruct (score_field_spec f d (default EmptyString (g !! f))
              (default EmptyString (p !! f)) fm) as (e & n & result & Hscore & He & Hn).
  exists e, n, result. split; [|done].
  unfold evaluate_field. cbn [fst snd]. by rewrite Hscore.
Qed.

Lemma fields_loop_spec g p fds :
  NoDup (dict_keys fds) →
  ∀ fm er, ∃ fm' er',
    foldM (evaluate_field g p) fds (fm, er) = Ok (fm', er')
    ∧ (∀ f, f ∉ dict_keys fds → fm' !! f = fm !! f)
    ∧ (∀ f, f ∈ dict_keys fds →
         ∃ e n, fm' !! f = bump e n <$> fm !! f ∧ (0 ≤ e ≤ n)%Z ∧ (n ≤ 1)%Z).
Proof.
  induction fds as [|[f0 d0] fds IH]; intros Hnd fm er.
  - exists fm, er. split; [done|]. split; [done|]. intros f Hf. by apply elem_of_nil in Hf.
  - simpl in Hnd. apply NoDup_cons in Hnd as [Hf0 Hnd].
    cbn [foldM].
    destruct (evaluate_field_spec g p fm er f0 d0) as (e & n & result & Hstep & He & Hn).
    rewrite Hstep. cbn [mbind py_bind].
    destruct (IH Hnd (alter (bump e n) f0 fm) (dict_set er f0 result))
      as (fm' & er' & Hloop & Hout & Hin).
    exists fm', er'. split; [done|]. split.
    + intros f Hf. simpl in Hf. apply not_elem_of_cons in Hf as [Hne Hf].
      rewrite Hout by done. by rewrite lookup_alter_ne.
    + intros f Hf. simpl in Hf. apply elem_of_cons in Hf as [->|Hf].
      * exists e, n. rewrite Hout by done. by rewrite lookup_alter_eq.
      * destruct (Hin f Hf) as (e' & n' & Hlk & He' & Hn').
        exists e', n'. rewrite Hlk. rewrite lookup_alter_ne; [done|].
        intros ->. done.
Qed.

(** ** The loop over the record pairs *)

Lemma foldM_app {S X : Type} (body : S → X → py S) (l1 l2 : list X) (s : S) :
  foldM body (l1 ++ l2) s = foldM body l1 s ≫= foldM body l2.
Proof.
  revert s. induction l1 as [|x l1 IH]; intros s; simpl; [done|].
  destruct (body s x) as [s'|e]; simpl; [apply IH|done].
Qed.

Lemma lookup_constant_map (keys : list string) (z : metrics) (f : string) :
  f ∈ keys →
  (list_to_map (map (λ k, (k, z)) keys) : gmap string metrics) !! f = Some z.
Proof.
  induction keys as [|k keys IH]; intros Hf; [by apply elem_of_nil in Hf|].
  simpl. destruct (decide (k = f)) as [->|Hne].
  - by rewrite lookup_insert_eq.
  - rewrite lookup_insert_ne by done. apply IH.
    apply elem_of_cons in Hf as [->|Hf]; done.
Qed.

Lemma schema_field_key field d :
  dict_get FIELD_DEFINITIONS field = Some d → field ∈ dict_keys FIELD_DEFINITIONS.
Proof. intros Hd. eapply elem_dict_keys, dict_get_elem, Hd. Qed.

Lemma initial_metrics_lookup field d :
  dict_get FIELD_DEFINITIONS field = Some d →
  initial_metrics !! field = Some {| exact := 0; near := 0; total := 0 |}.
Proof.
  intros Hd. unfold initial_metrics. apply lookup_constant_map.
  by eapply schema_field_key.
Qed.

Lemma counted_initial : counted 0 initial_metrics.
Proof.
  intros field d Hd. eexists. split; [by eapply initial_metrics_lookup|].
  simpl. lia.
Qed.

Lemma evaluate_pair_spec results fm pair k :
  counted k fm →
  ∃ entry_results fm',
    evaluate_pair (results, fm) pair = Ok (results ++ [entry_results], fm')
    ∧ counted (S k) fm'.
Proof.
  intros Hk.
  destruct (fields_loop_spec (fst pair) (snd pair) FIELD_DEFINITIONS
              schema_keys_NoDup fm []) as (fm' & er & Hloop & _ & Hin).
  exists er, fm'. split.
  - unfold evaluate_pair. cbn [fst snd]. by rewrite Hloop.
  - intros field d Hd.
    destruct (Hk field d Hd) as (m & Hm & Htotal & Hexact & Hnear).
    destruct (Hin field (schema_field_key field d Hd)) as (e & n & Hlk & He & Hn).
    rewrite Hm in Hlk. exists (bump e n m). split; [done|].
    unfold bump. simpl. lia.
Qed.

Lemma pairs_loop_spec (pairs : list (entry * entry)) : ∀ results fm k,
  counted k fm →
  ∃ results' fm',
    foldM evaluate_pair pairs (results, fm) = Ok (results', fm')
    ∧ length results' = length results + length pairs
    ∧ counted (k + length pairs) fm'.
Proof.
  induction pairs as [|pair pairs IH]; intros results fm k Hk.
  - exists results, fm. simpl. rewrite !Nat.add_0_r. done.
  - destruct (evaluate_pair_spec results fm pair k Hk) as (er & fm1 & Hstep & Hk1).
    destruct (IH (results ++ [er]) fm1 (S k) Hk1) as (results' & fm' & Hloop & Hlen & Hk').
    exists results', fm'. cbn [foldM]. rewrite Hstep. cbn [mbind py_bind].
    split; [done|]. rewrite length_app in Hlen. simpl in *.
    split; [lia|]. by replace (k + S (length pairs)) with (S k + length pairs) by lia.
Qed.


(** ** Aggregate pass *)

Lemma py_truediv_nonzero x y : y ≠ 0%Z → py_truediv x y = Ok (true_div x y).
Proof. intros Hy. unfold py_truediv. by apply Z.eqb_neq in Hy as ->. Qed.

Lemma aggregate_field_spec fm agg f d m :
  fm !! f = Some m → total m ≠ 0%Z →
  aggregate_field fm agg (f, d) = Ok (dict_set agg f (aggregate_entry d m)).
Proof.
  intros Hm Htotal. unfold aggregate_field, aggregate_entry. cbn [fst snd].
  rewrite Hm, !py_truediv_nonzero by done.
  by destruct (_ || _).
Qed.

Lemma aggregate_loop_spec fm fds :
  NoDup (dict_keys fds) →
  (∀ f d, (f, d) ∈ fds → ∃ m, fm !! f = Some m ∧ total m ≠ 0%Z) →
  ∀ agg, ∃ agg',
    foldM (aggregate_field fm) fds agg = Ok agg'
    ∧ (∀ f, f ∉ dict_keys fds → dict_get agg' f = dict_get agg f)
    ∧ (∀ f d m, (f, d) ∈ fds → fm !! f = Some m →
         dict_get agg' f = Some (aggregate_entry d m)).
Proof.
  induction fds as [|[f0 d0] fds IH]; intros Hnd Hall agg.
  - exists agg. split; [done|]. split; [done|].
    intros f d m Hin. by apply elem_of_nil in Hin.
  - simpl in Hnd. apply NoDup_cons in Hnd as [Hf0 Hnd].
    destruct (Hall f0 d0) as (m0 & Hm0 & Ht0); [left|].
    destruct (IH Hnd) with (agg := dict_set agg f0 (aggregate_entry d0 m0))
      as (agg' & Hloop & Hout & Hin).
    { intros f d Hfd. apply (Hall f d). by right. }
    exists agg'. cbn [foldM].
    rewrite (aggregate_field_spec fm agg f0 d0 m0) by done. cbn [mbind py_bind].
    split; [done|]. split.
    + intros f Hf. simpl in Hf. apply not_elem_of_cons in Hf as [Hne Hf].
      rewrite Hout by done. by apply dict_get_set_ne.
    + intros f d m Hfd Hm. apply elem_of_cons in Hfd as [[= -> ->]|Hfd].
      * rewrite Hout by done. rewrite dict_get_set_eq. congruence.
      * by eapply Hin.
Qed.

Lemma elem_dict_get {V} (d : dict V) key v :
  NoDup (dict_keys d) → (key, v) ∈ d → dict_get d key = Some v.
Proof.
  induction d as [|[k w] d IH]; intros Hnd Hin; [by apply elem_of_nil in Hin|].
  simpl in Hnd. apply NoDup_cons in Hnd as [Hk Hnd]. simpl.
  apply elem_of_cons in Hin as [[= -> ->]|Hin].
  - by rewrite String.eqb_refl.
  - destruct (String.eqb k key) eqn:Hkey; [|by apply IH].
    apply String.eqb_eq in Hkey as ->. destruct Hk. by eapply elem_dict_keys.
Qed.

Lemma evaluation_loop_spec gt preds :
  ∃ results fm,
    evaluation_loop gt preds = Ok (results, fm)
    ∧ length results = min (length gt) (length preds)
    ∧ counted (min (length gt) (length preds)) fm.
Proof.
  destruct (pairs_loop_spec (combine gt preds) [] initial_metrics 0 counted_initial)
    as (results & fm & Hloop & Hlen & Hk).
  rewrite length_combine in *. simpl in *. by exists results, fm.
Qed.

Lemma aggregate_pass_spec k fm :
  0 < k → counted k fm →
  ∃ agg, aggregate_pass fm = Ok agg
         ∧ ∀ field d m, dict_get FIELD_DEFINITIONS field = Some d → fm !! field = Some m →
             dict_get agg field = Some (aggregate_entry d m).
Proof.
  intros Hpos Hk.
  destruct (aggregate_loop_spec fm FIELD_DEFINITIONS schema_keys_NoDup) with (agg := @nil (string * dict pyval))
    as (agg & Hloop & _ & Hin).
  { intros f d Hfd. apply (elem_dict_get _ _ _ schema_keys_NoDup) in Hfd.
    destruct (Hk f d Hfd) as (m & Hm & Htotal & _). exists m. split; [done|]. lia. }
  exists agg. split; [done|]. intros field d m Hd Hm.
  eapply Hin; [|done]. by apply dict_get_elem.
Qed.

Lemma true_div_spec x y : (true_div x y == inject_Z x / inject_Z y)%Q.
Proof. apply Qred_correct. Qed.

Lemma true_div_bounds x y :
  (0 ≤ x ≤ y)%Z → (0 < y)%Z → (0 <= true_div x y <= 1)%Q.
Proof.
  intros [Hx Hxy] Hy. rewrite true_div_spec.
  assert (Hy' : (0 < inject_Z y)%Q) by (unfold Qlt; simpl; lia).
  split.
  - apply Qle_shift_div_l; [done|]. rewrite Qmult_0_l. unfold Qle; simpl; lia.
  - apply Qle_shift_div_r; [done|]. rewrite Qmult_1_l. unfold Qle; simpl; lia.
Qed.

Lemma true_div_mono x x' y :
  (x ≤ x')%Z → (0 < y)%Z → (true_div x y <= true_div x' y)%Q.
Proof.
  intros Hx Hy. rewrite !true_div_spec.
  assert (Hy' : (0 < inject_Z y)%Q) by (unfold Qlt; simpl; lia).
  unfold Qdiv. apply Qmult_le_compat_r.
  - unfold Qle; simpl; lia.
  - apply Qlt_le_weak. by apply Qinv_lt_0_compat.
Qed.

Lemma true_div_zero x y :
  (0 ≤ x)%Z → (0 < y)%Z → (true_div x y == 0)%Q → Qnum (true_div x y) = 0%Z.
Proof. intros Hx Hy Hzero. unfold Qeq in Hzero. simpl in Hzero. lia. Qed.

Lemma float64_zero q : Qnum q = 0%Z → float64 q = 0%float.
Proof. unfold float64. by intros ->. Qed.

(** C1. For every field whose strategy is Exact or NearMatch, the
    aggregate pass stores precision = exact/total and recall = near/total
    (both 0 when total is 0) and the F1 score that [calculate_f1_score]
    computes from them in binary64: exactly 0.0 when the sum of precision
    and recall is 0, as it is when both are 0, and otherwise 2 *
    (precision * recall) / (precision + recall), evaluated in binary64 on
    the binary64 precision and recall. *)
Theorem aggregate_metrics gt preds field d :
  0 < min (length gt) (length preds) →
  dict_get FIELD_DEFINITIONS field = Some d →
  evaluation d = "exact" ∨ evaluation d = "ner" →
  ∃ results fm m report precision recall f1 rate,
    evaluation_loop gt preds = Ok (results, fm)
    ∧ fm !! field = Some m
    ∧ evaluate_dataset gt preds = Ok report
    ∧ dict_get (aggregate_results report) field
      = Some [("precision", PRatio precision); ("recall", PRatio recall);
              ("f1_score", PFloat f1); ("exact_match_rate", PRatio rate)]
    ∧ precision = precision_of m ∧ recall = recall_of m
    ∧ (precision == inject_Z (exact m) / inject_Z (total m))%Q
    ∧ (recall == inject_Z (near m) / inject_Z (total m))%Q
    ∧ (∀ acc, total acc = 0%Z → precision_of acc = 0%Q ∧ recall_of acc = 0%Q)
    ∧ f1 = calculate_f1_score (float64 precision) (float64 recall)
    ∧ ((float64 precision + float64 recall =? 0)%float = true → f1 = 0%float)
    ∧ ((float64 precision + float64 recall =? 0)%float = false →
       f1 = (2 * (float64 precision * float64 recall)
             / (float64 precision + float64 recall))%float)
    ∧ ((precision + recall == 0)%Q → f1 = 0%float)
    ∧ (∀ acc, total acc = 0%Z →
         calculate_f1_score (float64 (precision_of acc)) (float64 (recall_of acc))
         = 0%float).
Proof.
  intros Hpos Hd Hstrategy.
  destruct (evaluation_loop_spec gt preds) as (results & fm & Hloop & Hlen & Hk).
  destruct (Hk field d Hd) as (m & Hm & Htotal & Hexact & Hnear).
  destruct (aggregate_pass_spec _ fm Hpos Hk) as (agg & Hagg & Hentry).
  exists results, fm, m, {| individual_results := results; aggregate_results := agg |}.
  exists (precision_of m), (recall_of m),
         (calculate_f1_score (float64 (precision_of m)) (float64 (recall_of m))),
         (true_div (exact m) (total m)).
  assert (Hlt : (0 <? total m)%Z = true) by (apply Z.ltb_lt; lia).
  split_and!; try done.
  - unfold evaluate_dataset. rewrite Hloop. cbn [mbind py_bind]. by rewrite Hagg.
  - cbn [aggregate_results]. rewrite (Hentry field d m Hd Hm). unfold aggregate_entry.
    by destruct Hstrategy as [-> | ->].
  - unfold precision_of, true_div. rewrite Hlt. apply Qred_correct.
  - unfold recall_of, true_div. rewrite Hlt. apply Qred_correct.
  - intros acc Hacc. unfold precision_of, recall_of. by rewrite Hacc.
  - intros Htest. unfold calculate_f1_score. by rewrite Htest.
  - intros Htest. unfold calculate_f1_score. by rewrite Htest.
  - intros Hzero. unfold precision_of, recall_of in *. rewrite Hlt in *.
    destruct (true_div_bounds (exact m) (total m)) as [Hp _]; [lia|lia|].
    destruct (true_div_bounds (near m) (total m)) as [Hr _]; [lia|lia|].
    rewrite !float64_zero; [by vm_compute| |].
    + apply true_div_zero; [lia|lia|lra].
    + apply true_div_zero; [lia|lia|lra].
  - intros acc Hacc. unfold precision_of, recall_of. rewrite Hacc. by vm_compute.
Qed.

Lemma aggregate_metrics_witness :
  0 < min (length sample_ground_truth) (length sample_predictions)
  ∧ ∃ results fm m report precision recall f1 rate,
      evaluation_loop sample_ground_truth sample_predictions = Ok (results, fm)
      ∧ fm !! "Project Name" = Some m
      ∧ evaluate_dataset sample_ground_truth sample_predictions = Ok report
      ∧ dict_get (aggregate_results report) "Project Name"
        = Some [("precision", PRatio precision); ("recall", PRatio recall);
                ("f1_score", PFloat f1); ("exact_match_rate", PRatio rate)]
      ∧ precision = precision_of m ∧ recall = recall_of m
      ∧ (precision == inject_Z (exact m) / inject_Z (total m))%Q
      ∧ (recall == inject_Z (near m) / inject_Z (total m))%Q
      ∧ (∀ acc, total acc = 0%Z → precision_of acc = 0%Q ∧ recall_of acc = 0%Q)
      ∧ f1 = calculate_f1_score (float64 precision) (float64 recall)
      ∧ ((float64 precision + float64 recall =? 0)%float = true → f1 = 0%float)
      ∧ ((float64 precision + float64 recall =? 0)%float = false →
         f1 = (2 * (float64 precision * float64 recall)
               / (float64 precision + float64 recall))%float)
      ∧ ((precision + recall == 0)%Q → f1 = 0%float)
      ∧ (∀ acc, total acc = 0%Z →
           calculate_f1_score (float64 (precision_of acc)) (float64 (recall_of acc))
           = 0%float).
Proof.
  split; [simpl; lia|].
  apply (aggregate_metrics sample_ground_truth sample_predictions "Project Name"
           {| field_type := "text"; is_identifier := true; evaluation := "ner" |}).
  - simpl. lia.
  - reflexivity.
  - right. reflexivity.
Defined.


(** C3. After [k] record pairs, for every field of the schema the
    accumulator has [total = k], and for the Exact and NearMatch strategies
    [exact <= near <= total]. The state after [k] pairs is the one the
    evaluation loop continues from. *)
Theorem accumulator_invariant gt preds k field d :
  k ≤ min (length gt) (length preds) →
  dict_get FIELD_DEFINITIONS field = Some d →
  ∃ results fm m,
    foldM evaluate_pair (take k (combine gt preds)) ([], initial_metrics) = Ok (results, fm)
    ∧ evaluation_loop gt preds = foldM evaluate_pair (drop k (combine gt preds)) (results, fm)
    ∧ fm !! field = Some m
    ∧ total m = Z.of_nat k
    ∧ (evaluation d = "exact" ∨ evaluation d = "ner" →
       (exact m ≤ near m ≤ total m)%Z).
Proof.
  intros Hk Hd.
  destruct (pairs_loop_spec (take k (combine gt preds)) [] initial_metrics 0 counted_initial)
    as (results & fm & Hloop & _ & Hcount).
  rewrite length_take, length_combine in Hcount.
  replace (0 + k `min` (length gt `min` length preds)) with k in Hcount by lia.
  destruct (Hcount field d Hd) as (m & Hm & Htotal & Hexact & Hnear).
  exists results, fm, m. split_and!; try done; [|lia].
  unfold evaluation_loop.
  rewrite <- (take_drop k (combine gt preds)) at 1.
  by rewrite foldM_app, Hloop.
Qed.

Lemma accumulator_invariant_witness :
  1 ≤ min (length sample_ground_truth) (length sample_predictions)
  ∧ ∃ results fm m,
      foldM evaluate_pair (take 1 (combine sample_ground_truth sample_predictions))
        ([], initial_metrics) = Ok (results, fm)
      ∧ evaluation_loop sample_ground_truth sample_predictions
        = foldM evaluate_pair (drop 1 (combine sample_ground_truth sample_predictions))
            (results, fm)
      ∧ fm !! "Project Name" = Some m
      ∧ total m = Z.of_nat 1
      ∧ ("ner" = "exact" ∨ "ner" = "ner" → (exact m ≤ near m ≤ total m)%Z).
Proof.
  split; [simpl; lia|].
  apply (accumulator_invariant sample_ground_truth sample_predictions 1 "Project Name"
           {| field_type := "text"; is_identifier := true; evaluation := "ner" |}).
  - simpl. lia.
  - reflexivity.
Defined.

(** C9. When no record pair is processed, [evaluate_dataset] returns no
    report: every total is 0, precision and recall are guarded and equal
    0, but the rates [exact / total] and [near / total] are not guarded and
    the aggregate pass raises [ZeroDivisionError]. *)
Theorem empty_dataset_raises gt preds :
  min (length gt) (length preds) = 0 →
  evaluation_loop gt preds = Ok ([], initial_metrics)
  ∧ (∀ field d, dict_get FIELD_DEFINITIONS field = Some d →
       ∃ m, initial_metrics !! field = Some m
            ∧ total m = 0%Z
            ∧ precision_of m = 0%Q ∧ recall_of m = 0%Q
            ∧ py_truediv (exact m) (total m) = Raise ZeroDivisionError
            ∧ py_truediv (near m) (total m) = Raise ZeroDivisionError)
  ∧ evaluate_dataset gt preds = Raise ZeroDivisionError.
Proof.
  intros Hmin.
  assert (Hnil : combine gt preds = []).
  { apply length_zero_iff_nil. by rewrite length_combine. }
  assert (Hloop : evaluation_loop gt preds = Ok ([], initial_metrics)).
  { unfold evaluation_loop. by rewrite Hnil. }
  split_and!.
  - done.
  - intros field d Hd. eexists. split; [by eapply initial_metrics_lookup|]. done.
  - unfold evaluate_dataset. rewrite Hloop. cbn [mbind py_bind].
    assert (Hagg : aggregate_pass initial_metrics = Raise ZeroDivisionError)
      by (by vm_compute).
    by rewrite Hagg.
Qed.

Lemma empty_dataset_raises_witness :
  min (length (@nil entry)) (length sample_predictions) = 0
  ∧ evaluate_dataset [] sample_predictions = Raise ZeroDivisionError.
Proof.
  split; [reflexivity|].
  exact (proj2 (proj2 (empty_dataset_raises [] sample_predictions eq_refl))).
Defined.

(** ** The evaluator over the store *)

Lemma foldM_st_read {S X : Type} (body_st : S → X → st S) (body : heap → S → X → py S) :
  (∀ s x h, body_st s x h = (body h s x, h)) →
  ∀ xs s h, foldM_st body_st xs s h = (foldM (body h) xs s, h).
Proof.
  intros Hbody. induction xs as [|x xs IH]; intros s h; [done|].
  cbn [foldM_st foldM]. unfold mbind at 1, st_bind. rewrite Hbody.
  destruct (body h s x) as [s'|e]; cbn [mbind py_bind]; [apply IH|done].
Qed.

Lemma foldM_map {S X Y : Type} (body : S → Y → py S) (f : X → Y) (xs : list X) (s : S) :
  foldM (λ s x, body s (f x)) xs s = foldM body (map f xs) s.
Proof.
  revert s. induction xs as [|x xs IH]; intros s; [done|].
  cbn [foldM map]. destruct (body s (f x)) as [s'|e]; cbn [mbind py_bind]; [apply IH|done].
Qed.

Lemma combine_map {X Y X' Y' : Type} (f : X → X') (g : Y → Y') (l : list X) (l' : list Y) :
  map (λ p, (f (fst p), g (snd p))) (combine l l') = combine (map f l) (map g l').
Proof.
  revert l'. induction l as [|x l IH]; intros [|y l']; simpl; try done.
  by rewrite IH.
Qed.

Lemma evaluate_field_st_read gt_entry pred_entry s fd h :
  evaluate_field_st gt_entry pred_entry s fd h
  = (evaluate_field (dicts h gt_entry) (dicts h pred_entry) s fd, h).
Proof.
  unfold evaluate_field_st, evaluate_field, dict_get_st, lift.
  unfold mbind at 1 2 3, st_bind.
  destruct (score_field _ _ _ _ _) as [[fm result]|e]; done.
Qed.

Lemma evaluate_pair_st_read s pair h :
  evaluate_pair_st s pair h
  = (evaluate_pair s (dicts h (fst pair), dicts h (snd pair)), h).
Proof.
  unfold evaluate_pair_st, evaluate_pair. unfold mbind at 1, st_bind.
  rewrite (foldM_st_read _ (λ h, evaluate_field (dicts h (fst pair)) (dicts h (snd pair)))).
  - cbn [fst snd]. destruct (foldM _ _ _) as [[fm er]|e]; done.
  - intros s' fd h'. apply evaluate_field_st_read.
Qed.

(** C10. [evaluate_dataset] never mutates its inputs: run over a store,
    it returns what the evaluation of the values read from the store
    returns, and leaves the store (both lists and every record) as it
    was. *)
Theorem evaluate_dataset_reads_only (h : heap) (ground_truth predictions : loc) :
  evaluate_dataset_st ground_truth predictions h
  = (evaluate_dataset (map (dicts h) (lists h ground_truth))
                      (map (dicts h) (lists h predictions)), h).
Proof.
  unfold evaluate_dataset_st, evaluate_dataset, evaluation_loop, list_iter, lift.
  unfold mbind at 1 2 3, st_bind.
  rewrite (foldM_st_read _ (λ h s pair,
             evaluate_pair s (dicts h (fst pair), dicts h (snd pair))))
    by (intros; apply evaluate_pair_st_read).
  rewrite (foldM_map evaluate_pair (λ pair, (dicts h (fst pair), dicts h (snd pair)))).
  rewrite combine_map.
  destruct (foldM _ _ _) as [[results fm]|e]; [|done].
  unfold mbind at 1, st_bind. cbn [mbind py_bind].
  destruct (aggregate_pass fm) as [agg|e]; done.
Qed.

(** ** Bounds of [find_longest_match] and termination of the queue loop *)

Section Bounds.
Context {A : Type} `{Countable A}.
Variables (a b : list A).
Variables (alo ahi blo bhi : nat).

Lemma j2lenget_fits rows j2len j :
  row_fits blo rows j2len → blo ≤ j → j2lenget j2len j ≤ rows ∧ j2lenget j2len j ≤ j - blo.
Proof.
  intros Hfits Hj. destruct j as [|j]; simpl; [lia|].
  destruct (j2len !! j) as [v|] eqn:Hv; simpl; [|lia].
  destruct (Hfits j v Hv) as (? & ? & ?). lia.
Qed.

Lemma scan_row_fits i prev js : ∀ new best,
  alo ≤ i →
  row_fits blo (i - alo) prev → row_fits blo (S i - alo) new → best_fits alo blo bhi (S i) best →
  row_fits blo (S i - alo) (fst (scan_row i blo bhi prev js new best))
  ∧ best_fits alo blo bhi (S i) (snd (scan_row i blo bhi prev js new best)).
Proof.
  induction js as [|j js IH]; intros new best Hi Hprev Hnew Hbest; [done|].
  cbn [scan_row].
  destruct (j <? blo) eqn:Hjlo; [by apply IH|].
  destruct (bhi <=? j) eqn:Hjhi; [done|].
  apply Nat.ltb_ge in Hjlo. apply Nat.leb_gt in Hjhi.
  destruct (j2lenget_fits _ _ j Hprev Hjlo) as [Hk1 Hk2].
  apply IH; [done|done| |].
  - intros c v. destruct (decide (j = c)) as [->|Hne].
    + rewrite lookup_insert_eq. intros [= <-]. lia.
    + rewrite lookup_insert_ne by done. apply Hnew.
  - destruct (match_size best <? j2lenget prev j + 1); [|done].
    unfold best_fits, match_size. simpl. lia.
Qed.

Lemma scan_step_fits i st :
  alo ≤ i →
  row_fits blo (i - alo) (fst st) → best_fits alo blo bhi i (snd st) →
  row_fits blo (S i - alo) (fst (scan_step a b blo bhi st i))
  ∧ best_fits alo blo bhi (S i) (snd (scan_step a b blo bhi st i)).
Proof.
  intros Hi Hrow Hbest.
  assert (Hbest' : best_fits alo blo bhi (S i) (snd st)).
  { unfold best_fits in *. lia. }
  unfold scan_step. destruct (a !! i) as [x|].
  - apply scan_row_fits; try done.
  - split; [|done]. intros c v. cbn [fst]. by rewrite lookup_empty.
Qed.

Lemma scan_rows_fits m : ∀ i st,
  alo ≤ i →
  row_fits blo (i - alo) (fst st) → best_fits alo blo bhi i (snd st) →
  best_fits alo blo bhi (i + m) (snd (fold_left (scan_step a b blo bhi) (seq i m) st)).
Proof.
  induction m as [|m IH]; intros i st Hi Hrow Hbest; simpl.
  - by rewrite Nat.add_0_r.
  - destruct (scan_step_fits i st Hi Hrow Hbest) as [Hrow' Hbest'].
    replace (i + S m) with (S i + m) by lia. apply IH; [lia|done|done].
Qed.

Lemma extend_left_fits want besti : ∀ bestj bestsize,
  alo ≤ besti → blo ≤ bestj →
  let m := extend_left a b want alo blo besti bestj bestsize in
  alo ≤ fst (fst m) ∧ blo ≤ snd (fst m)
  ∧ fst (fst m) + match_size m = besti + bestsize
  ∧ snd (fst m) + match_size m = bestj + bestsize.
Proof.
  induction besti as [|i IH]; intros bestj bestsize Hi Hj; [done|].
  cbn [extend_left].
  destruct (_ && _) eqn:Hcond; [|done].
  apply andb_prop in Hcond as [Hcond _]. apply andb_prop in Hcond as [Hcond _].
  apply andb_prop in Hcond as [Halo Hblo].
  apply Nat.ltb_lt in Halo. apply Nat.ltb_lt in Hblo.
  specialize (IH (bestj - 1) (bestsize + 1)). cbv zeta in *.
  destruct IH as (? & ? & ? & ?); [lia|lia|]. split_and!; lia.
Qed.

Lemma extend_right_fits want besti bestj gap : ∀ bestsize,
  besti + bestsize ≤ ahi → bestj + bestsize ≤ bhi →
  let k := extend_right a b want ahi bhi besti bestj gap bestsize in
  bestsize ≤ k ∧ besti + k ≤ ahi ∧ bestj + k ≤ bhi.
Proof.
  induction gap as [|gap IH]; intros bestsize Hi Hj; [done|].
  cbn [extend_right].
  destruct (_ && _) eqn:Hcond; [|done].
  apply andb_prop in Hcond as [Hcond _]. apply andb_prop in Hcond as [Hcond _].
  apply andb_prop in Hcond as [Hahi Hbhi].
  apply Nat.ltb_lt in Hahi. apply Nat.ltb_lt in Hbhi.
  specialize (IH (bestsize + 1)). cbv zeta in *.
  destruct IH as (? & ? & ?); [lia|lia|]. split_and!; lia.
Qed.

Lemma extend_fits want best :
  best_fits alo blo bhi ahi best → best_fits alo blo bhi ahi (extend a b want alo ahi blo bhi best).
Proof.
  destruct best as [[besti bestj] bestsize]. intros (Hi & Hik & Hj & Hjk).
  unfold match_size in *. simpl in *. unfold extend.
  pose proof (extend_left_fits want besti bestj bestsize Hi Hj) as Hleft.
  destruct (extend_left a b want alo blo besti bestj bestsize) as [[i j] k].
  cbv zeta in Hleft. unfold match_size in Hleft. simpl in Hleft.
  destruct Hleft as (? & ? & ? & ?).
  pose proof (extend_right_fits want i j (ahi - (i + k)) k) as Hright.
  cbv zeta in Hright. destruct Hright as (? & ? & ?); [lia|lia|].
  unfold best_fits, match_size. simpl. lia.
Qed.

(** The block returned for a region lies inside that region. *)
Lemma find_longest_match_fits :
  alo ≤ ahi → blo ≤ bhi →
  best_fits alo blo bhi ahi (find_longest_match a b alo ahi blo bhi).
Proof.
  intros Ha Hb. unfold find_longest_match. do 2 apply extend_fits.
  unfold scan_rows.
  pose proof (scan_rows_fits (ahi - alo) alo (∅, (alo, blo, 0))) as Hscan.
  replace (alo + (ahi - alo)) with ahi in Hscan by lia.
  apply Hscan; [done| |].
  - intros c v. cbn [fst]. by rewrite lookup_empty.
  - unfold best_fits, match_size. simpl. lia.
Qed.

End Bounds.

Section Termination.
Context {A : Type} `{Countable A}.
Variables (a b : list A).

Lemma queue_weight_cons alo ahi blo bhi queue :
  queue_weight ((alo, ahi, blo, bhi) :: queue) = 2 * (ahi - alo) + 1 + queue_weight queue.
Proof. done. Qed.

Lemma matching_loop_enough fuel : ∀ queue blocks fuel',
  Forall region_ok queue → queue_weight queue ≤ fuel → fuel ≤ fuel' →
  matching_loop a b fuel' queue blocks = matching_loop a b fuel queue blocks.
Proof.
  induction fuel as [|fuel IH]; intros queue blocks fuel' Hok Hw Hle.
  - destruct queue as [|r queue].
    + by destruct fuel'.
    + unfold queue_weight in Hw. simpl in Hw. lia.
  - destruct fuel' as [|fuel']; [lia|].
    destruct queue as [|[[[alo ahi] blo] bhi] queue]; [done|].
    cbn [matching_loop].
    apply Forall_cons in Hok as [[Ha Hb] Hok]. simpl in Ha, Hb.
    pose proof (find_longest_match_fits a b alo ahi blo bhi Ha Hb) as Hfits.
    destruct (find_longest_match a b alo ahi blo bhi) as [[i j] k].
    unfold best_fits, match_size in Hfits. simpl in Hfits.
    rewrite queue_weight_cons in Hw.
    destruct (k =? 0) eqn:Hk.
    + apply IH; [done|lia|lia].
    + apply Nat.eqb_neq in Hk.
      apply IH; [| |lia].
      * assert (Hq1 : Forall region_ok
                        (if (alo <? i) && (blo <? j)
                         then (alo, i, blo, j) :: queue else queue)).
        { destruct ((alo <? i) && (blo <? j)) eqn:Hleft; [|done].
          apply andb_prop in Hleft as [Hl1 Hl2].
          apply Nat.ltb_lt in Hl1. apply Nat.ltb_lt in Hl2.
          constructor; [|done]. unfold region_ok. simpl. lia. }
        destruct ((i + k <? ahi) && (j + k <? bhi)) eqn:Hright; [|done].
        apply andb_prop in Hright as [Hr1 Hr2].
        apply Nat.ltb_lt in Hr1. apply Nat.ltb_lt in Hr2.
        constructor; [|done]. unfold region_ok. simpl. lia.
      * destruct ((alo <? i) && (blo <? j)) eqn:Hleft;
          destruct ((i + k <? ahi) && (j + k <? bhi)) eqn:Hright;
          rewrite ?queue_weight_cons; lia.
Qed.

Lemma matching_loop_run n : ∀ queue blocks,
  matching_loop a b n queue blocks = snd (matching_run a b n (queue, blocks)).
Proof.
  induction n as [|n IH]; intros queue blocks; [done|].
  cbn [matching_loop matching_run matching_step].
  destruct queue as [|[[[alo ahi] blo] bhi] queue].
  - rewrite <- IH. by destruct n.
  - destruct (find_longest_match a b alo ahi blo bhi) as [[i j] k].
    destruct (k =? 0); by rewrite IH.
Qed.

Lemma matching_step_weight queue blocks :
  Forall region_ok queue →
  Forall region_ok (fst (matching_step a b (queue, blocks)))
  ∧ (queue ≠ [] →
     queue_weight (fst (matching_step a b (queue, blocks))) < queue_weight queue).
Proof.
  intros Hok.
  destruct queue as [|[[[alo ahi] blo] bhi] queue]; [done|].
  cbn [matching_step].
  apply Forall_cons in Hok as [[Ha Hb] Hok]. simpl in Ha, Hb.
  pose proof (find_longest_match_fits a b alo ahi blo bhi Ha Hb) as Hfits.
  destruct (find_longest_match a b alo ahi blo bhi) as [[i j] k].
  unfold best_fits, match_size in Hfits. simpl in Hfits.
  rewrite queue_weight_cons.
  destruct (k =? 0) eqn:Hk; cbn [fst].
  - split; [done|]. intros _. lia.
  - apply Nat.eqb_neq in Hk.
    destruct ((alo <? i) && (blo <? j)) eqn:Hleft;
      destruct ((i + k <? ahi) && (j + k <? bhi)) eqn:Hright;
      repeat match goal with
             | Hx : _ && _ = true |- _ =>
                 apply andb_prop in Hx as [?%Nat.ltb_lt ?%Nat.ltb_lt]
             end;
      (split; [repeat (constructor; [unfold region_ok; simpl; lia|]); done
              |intros _; rewrite ?queue_weight_cons; lia]).
Qed.

Lemma matching_run_empties n : ∀ queue blocks,
  Forall region_ok queue → queue_weight queue ≤ n →
  fst (matching_run a b n (queue, blocks)) = [].
Proof.
  induction n as [|n IH]; intros queue blocks Hok Hw.
  - destruct queue as [|[[[alo ahi] blo] bhi] queue]; [done|].
    rewrite queue_weight_cons in Hw. lia.
  - cbn [matching_run].
    destruct (matching_step_weight queue blocks Hok) as [Hok' Hlt].
    destruct (matching_step a b (queue, blocks)) as [queue' blocks'] eqn:Hstep.
    cbn [fst] in Hok', Hlt.
    apply IH; [done|].
    destruct queue as [|r queue].
    + cbn [matching_step] in Hstep. injection Hstep as <- <-.
      unfold queue_weight. simpl. lia.
    + assert (r :: queue ≠ []) as Hne by done. specialize (Hlt Hne). lia.
Qed.

Lemma matching_run_add n : ∀ m st,
  matching_run a b (n + m) st = matching_run a b m (matching_run a b n st).
Proof.
  induction n as [|n IH]; intros m st; [done|].
  cbn [Nat.add matching_run]. apply IH.
Qed.

Lemma matching_run_done n : ∀ blocks,
  matching_run a b n ([], blocks) = ([], blocks).
Proof.
  induction n as [|n IH]; intros blocks; [done|].
  cbn [matching_run matching_step]. apply IH.
Qed.

(** The loop of [get_matching_blocks] ends: [matching_loop] returns the
    blocks of the state reached by iterating [matching_step]; after
    [matching_fuel] = [2 * len(a) + 1] iterations from the starting region
    the queue is empty; and from then on neither the state nor the blocks
    returned change, whatever the number of further iterations allowed. *)
Theorem matching_loop_terminates :
  (∀ n queue blocks,
     matching_loop a b n queue blocks = snd (matching_run a b n (queue, blocks)))
  ∧ fst (matching_run a b (matching_fuel a) ([(0, length a, 0, length b)], [])) = []
  ∧ (∀ fuel, matching_fuel a ≤ fuel →
       matching_run a b fuel ([(0, length a, 0, length b)], [])
       = matching_run a b (matching_fuel a) ([(0, length a, 0, length b)], []))
  ∧ (∀ fuel, matching_fuel a ≤ fuel →
       matching_loop a b fuel [(0, length a, 0, length b)] []
       = matching_loop a b (matching_fuel a) [(0, length a, 0, length b)] []).
Proof.
  assert (Hok : Forall region_ok [(0, length a, 0, length b)]).
  { apply Forall_cons. split; [|done]. unfold region_ok. simpl. lia. }
  assert (Hw : queue_weight [(0, length a, 0, length b)] ≤ matching_fuel a).
  { unfold queue_weight, matching_fuel. simpl. lia. }
  pose proof (matching_run_empties (matching_fuel a) _ [] Hok Hw) as Hempty.
  assert (Hstable : ∀ fuel, matching_fuel a ≤ fuel →
            matching_run a b fuel ([(0, length a, 0, length b)], [])
            = matching_run a b (matching_fuel a) ([(0, length a, 0, length b)], [])).
  { intros fuel Hle.
    replace fuel with (matching_fuel a + (fuel - matching_fuel a)) by lia.
    rewrite matching_run_add.
    destruct (matching_run a b (matching_fuel a) _) as [queue blocks].
    cbn [fst] in Hempty. subst queue. apply matching_run_done. }
  split_and!; [apply matching_loop_run|exact Hempty|exact Hstable|].
  intros fuel Hle. by rewrite !matching_loop_run, (Hstable fuel Hle).
Qed.

End Termination.

(** ** Examples *)

(** The examples of the [difflib] documentation. *)
Example ratio_abcd_bcde : calculate_similarity "abcd" "bcde" = (3 # 4)%Q.
Proof. by vm_compute. Qed.

Example blocks_abxcd_abcd :
  get_matching_blocks (list_ascii_of_string "abxcd") (list_ascii_of_string "abcd")
  = [(0, 0, 2); (3, 2, 2); (5, 4, 0)].
Proof. by vm_compute. Qed.

Example find_longest_match_abcd :
  find_longest_match (list_ascii_of_string " abcd") (list_ascii_of_string "abcd abcd")
    0 5 0 9 = (0, 4, 5).
Proof. by vm_compute. Qed.

(** The near-match threshold is strict: a similarity of 0.9 is no near
    match. *)
Example near_match_strict :
  evaluate_ner_field "abcdefghix" "abcdefghiy"
  = [("exact_match", PInt 0); ("near_match", PInt 0);
     ("similarity", PRatio (9 # 10));
     ("ground_truth", PStr "abcdefghix"); ("prediction", PStr "abcdefghiy")].
Proof. by vm_compute. Qed.

(** The semantic threshold is inclusive: a similarity of 0.5 meets it. *)
Example meets_threshold_inclusive :
  evaluate_semantic_field "a" "a b c d"
  = Ok [("similarity", PFloat 0.5); ("meets_threshold", PInt 1);
        ("ground_truth", PStr "a"); ("prediction", PStr "a b c d")].
Proof. by vm_compute. Qed.

(** The aggregate of the specification: 8 exact and 10 near matches out of
    10 give a precision of 0.8 and a recall of 1. The F1 score computed in
    binary64 is 0.888888888888889, one unit in the last place above the
    binary64 number nearest to 8/9. *)
Example f1_score_8_10_10 :
  let m := {| exact := 8; near := 10; total := 10 |} in
  let f1 := calculate_f1_score (float64 (precision_of m)) (float64 (recall_of m)) in
  precision_of m = (4 # 5)%Q ∧ recall_of m = 1%Q
  ∧ (float64 (8 # 9) <? f1)%float = true
  ∧ f1 = next_up (float64 (8 # 9)).
Proof. by vm_compute. Qed.

(** The F1 score of two equal numbers need not be that number, and need not
    lie between precision and recall: for 1 hit in 5 it is
    0.20000000000000004, above both; for 21 hits in 25 it is
    0.8399999999999999, below both. *)
Example f1_score_rounding :
  let low := float64 (1 # 5) in
  let high := float64 (21 # 25) in
  (low <? calculate_f1_score low low)%float = true
  ∧ (calculate_f1_score high high <? high)%float = true.
Proof. by vm_compute. Qed.

(** The test [precision + recall == 0] of [calculate_f1_score] on the
    binary64 numbers agrees with the counts: for every total up to 64 and
    all counts [exact <= near <= total], the sum is 0.0 exactly when no
    record matched. *)
Example f1_zero_test_small :
  forallb (λ total : Z,
    forallb (λ near : Z,
      forallb (λ exact : Z,
        Bool.eqb
          (float64 (true_div exact total) + float64 (true_div near total) =? 0)%float
          (near =? 0)%Z)
        (seqZ 0 (near + 1)))
      (seqZ 0 (total + 1)))
    (seqZ 1 64) = true.
Proof. by vm_compute. Qed.

(** The end-to-end scenario: the address matches up to case, the project
    name does not; the three fields missing on both sides compare empty
    strings. *)
Example sample_report :
  evaluate_dataset sample_ground_truth sample_predictions
  = Ok {| individual_results :=
            [[("Contract Address",
               [("exact_match", PInt 1); ("ground_truth", PStr "0xABC");
                ("prediction", PStr "0xabc")]);
              ("Public Name Tag",
               [("exact_match", PInt 1); ("near_match", PInt 1);
                ("similarity", PRatio 1);
                ("ground_truth", PStr EmptyString);
                ("prediction", PStr EmptyString)]);
              ("Project Name",
               [("exact_match", PInt 0); ("near_match", PInt 0);
                ("similarity", PRatio (2 # 3));
                ("ground_truth", PStr "Acme"); ("prediction", PStr "Acme Inc")]);
              ("UI/Website Link",
               [("exact_match", PInt 1); ("ground_truth", PStr EmptyString);
                ("prediction", PStr EmptyString)]);
              ("Public Note",
               [("similarity", PFloat 0); ("meets_threshold", PInt 0);
                ("ground_truth", PStr EmptyString);
                ("prediction", PStr EmptyString)])]];
          aggregate_results :=
            [("Contract Address",
              [("precision", PRatio 1); ("recall", PRatio 1);
               ("f1_score", PFloat 1); ("exact_match_rate", PRatio 1)]);
             ("Public Name Tag",
              [("precision", PRatio 1); ("recall", PRatio 1);
               ("f1_score", PFloat 1); ("exact_match_rate", PRatio 1)]);
             ("Project Name",
              [("precision", PRatio 0); ("recall", PRatio 0);
               ("f1_score", PFloat 0); ("exact_match_rate", PRatio 0)]);
             ("UI/Website Link",
              [("precision", PRatio 1); ("recall", PRatio 1);
               ("f1_score", PFloat 1); ("exact_match_rate", PRatio 1)]);
             ("Public Note", [("semantic_similarity_rate", PRatio 0)])] |}.
Proof. by vm_compute. Qed.

(** The purge of popular elements at work: in a second sequence of 200
    characters a character that occurs more than 3 times is dropped from
    [b2j], and a match that does not start a region is no longer found. *)
Example autojunk_purge :
  length (default [] (b2j_full (repeat "a"%char 200) !! "a"%char)) = 200
  ∧ b2j (repeat "a"%char 200) !! "a"%char = None
  ∧ ratio (list_ascii_of_string "xa") (repeat "a"%char 200) = 0%Q
  ∧ ratio (list_ascii_of_string "xa") (repeat "a"%char 199) = (2 # 201)%Q.
Proof. split_and!; by vm_compute. Qed.

(** The store can tell a write from a read: an item assignment changes the
    record it is applied to. *)
Example dict_setitem_st_writes :
  dicts sample_heap 2 !! "Project Name" = Some "Acme"
  ∧ dicts (snd (dict_setitem_st 2 "Project Name" "Other" sample_heap)) 2 !! "Project Name"
    = Some "Other".
Proof. split; by vm_compute. Qed.

Lemma score_field_closed field d gt pred fm :
  score_field field d gt pred fm
  = Ok (alter (bump (exact_flag d gt pred) (near_flag d gt pred)) field fm,
        verdict_of d gt pred).
Proof.
  unfold score_field, exact_flag, near_flag, verdict_of.
  destruct (String.eqb (evaluation d) "exact").
  { cbn. f_equal. f_equal. rewrite !alter_alter_eq. by apply alter_ext. }
  destruct (String.eqb (evaluation d) "ner").
  { cbn. f_equal. f_equal. rewrite !alter_alter_eq. by apply alter_ext. }
  unfold evaluate_semantic_field, cosine_value.
  destruct (calculate_cosine_similarity_total gt pred) as [similarity Hsim].
  rewrite Hsim. cbn. f_equal. f_equal.
  rewrite !alter_alter_eq. apply alter_ext.
  intros m _. unfold bump, compose, add_total, add_near. simpl. f_equal. lia.
Qed.

Lemma dict_set_fresh {V} (d : dict V) key v :
  key ∉ dict_keys d → dict_set d key v = d ++ [(key, v)].
Proof.
  induction d as [|[k w] d IH]; intros Hkey; [done|].
  simpl in Hkey. apply not_elem_of_cons in Hkey as [Hne Hkey]. simpl.
  assert (Hk : String.eqb k key = false) by (apply String.eqb_neq; congruence).
  rewrite Hk. by rewrite IH.
Qed.

Lemma dict_keys_app {V} (d1 d2 : dict V) :
  dict_keys (d1 ++ d2) = dict_keys d1 ++ dict_keys d2.
Proof. unfold dict_keys. apply map_app. Qed.

Lemma evaluate_field_closed g p fm er f d :
  evaluate_field g p (fm, er) (f, d)
  = Ok (alter (bump (exact_flag d (field_value g f) (field_value p f))
                    (near_flag d (field_value g f) (field_value p f))) f fm,
        dict_set er f (verdict_of d (field_value g f) (field_value p f))).
Proof.
  unfold evaluate_field. cbn [fst snd].
  fold (field_value g f). fold (field_value p f).
  by rewrite score_field_closed.
Qed.

(** The loop over the fields appends one verdict per field and bumps the
    accumulator of each field once. *)
Lemma fields_loop_closed g p fds :
  NoDup (dict_keys fds) →
  ∀ fm er, (∀ f, f ∈ dict_keys fds → f ∉ dict_keys er) →
  ∃ fm',
    foldM (evaluate_field g p) fds (fm, er)
    = Ok (fm', er ++ map (λ fd : string * field_definition,
                            (fst fd, verdict_of (snd fd) (field_value g (fst fd))
                                                         (field_value p (fst fd)))) fds)
    ∧ (∀ f, f ∉ dict_keys fds → fm' !! f = fm !! f)
    ∧ (∀ f d, (f, d) ∈ fds →
         fm' !! f = bump (exact_flag d (field_value g f) (field_value p f))
                         (near_flag d (field_value g f) (field_value p f)) <$> fm !! f).
Proof.
  induction fds as [|[f0 d0] fds IH]; intros Hnd fm er Hfresh.
  - exists fm. rewrite app_nil_r. split; [done|]. split; [done|].
    intros f d Hin. by apply elem_of_nil in Hin.
  - simpl in Hnd. apply NoDup_cons in Hnd as [Hf0 Hnd].
    cbn [foldM]. rewrite evaluate_field_closed. cbn [mbind py_bind].
    rewrite dict_set_fresh by (apply Hfresh; left).
    destruct (IH Hnd (alter (bump (exact_flag d0 (field_value g f0) (field_value p f0))
                                  (near_flag d0 (field_value g f0) (field_value p f0))) f0 fm)
                (er ++ [(f0, verdict_of d0 (field_value g f0) (field_value p f0))]))
      as (fm' & Hloop & Hout & Hin).
    { intros f Hf. rewrite dict_keys_app. simpl. intros Hel.
      apply elem_of_app in Hel as [Hel|Hel].
      - apply (Hfresh f); [by right|done].
      - apply list_elem_of_singleton in Hel as ->. done. }
    exists fm'. split.
    + rewrite Hloop. cbn [map fst snd]. by rewrite <- app_assoc.
    + split.
      * intros f Hf. simpl in Hf. apply not_elem_of_cons in Hf as [Hne Hf].
        rewrite Hout by done. by rewrite lookup_alter_ne.
      * intros f d Hfd. apply elem_of_cons in Hfd as [[= -> ->]|Hfd].
        -- rewrite Hout by done. by rewrite lookup_alter_eq.
        -- rewrite (Hin f d Hfd). rewrite lookup_alter_ne; [done|].
           intros ->. apply Hf0. by eapply elem_dict_keys.
Qed.

Lemma evaluate_pair_closed results fm pair :
  ∃ fm',
    evaluate_pair (results, fm) pair = Ok (results ++ [record_verdict pair], fm')
    ∧ ∀ f d, dict_get FIELD_DEFINITIONS f = Some d →
        fm' !! f = bump (exact_flag d (field_value (fst pair) f) (field_value (snd pair) f))
                        (near_flag d (field_value (fst pair) f) (field_value (snd pair) f))
                   <$> fm !! f.
Proof.
  destruct (fields_loop_closed (fst pair) (snd pair) FIELD_DEFINITIONS
              schema_keys_NoDup fm []) as (fm' & Hloop & _ & Hin).
  { intros f _ Hf. by apply elem_of_nil in Hf. }
  exists fm'. split.
  - unfold evaluate_pair. cbn [fst snd]. by rewrite Hloop.
  - intros f d Hd. apply Hin. by apply dict_get_elem.
Qed.

Lemma field_tally_cons field d pair pairs m0 :
  metrics_add (bump (exact_flag d (field_value (fst pair) field) (field_value (snd pair) field))
                    (near_flag d (field_value (fst pair) field) (field_value (snd pair) field))
                    m0)
              (field_tally field d pairs)
  = metrics_add m0 (field_tally field d (pair :: pairs)).
Proof.
  unfold metrics_add, bump, field_tally, Zsum.
  cbn [exact near total map length fold_right].
  rewrite Nat2Z.inj_succ. f_equal; lia.
Qed.

(** The loop over the record pairs: one Record Verdict per pair, appended in
    order, and for each field of the schema the tally of the pairs added to
    its counters. *)
Lemma pairs_loop_closed (pairs : list (entry * entry)) : ∀ results fm,
  ∃ fm',
    foldM evaluate_pair pairs (results, fm) = Ok (results ++ map record_verdict pairs, fm')
    ∧ ∀ f d m0, dict_get FIELD_DEFINITIONS f = Some d → fm !! f = Some m0 →
        fm' !! f = Some (metrics_add m0 (field_tally f d pairs)).
Proof.
  induction pairs as [|pair pairs IH]; intros results fm.
  - exists fm. simpl. rewrite app_nil_r. split; [done|].
    intros f d m0 _ ->. f_equal. destruct m0 as [e n t].
    unfold metrics_add, field_tally. simpl. f_equal; lia.
  - destruct (evaluate_pair_closed results fm pair) as (fm1 & Hstep & Hfm1).
    destruct (IH (results ++ [record_verdict pair]) fm1) as (fm' & Hloop & Hfm').
    exists fm'. cbn [foldM]. rewrite Hstep. cbn [mbind py_bind]. split.
    + rewrite Hloop. cbn [map]. by rewrite <- app_assoc.
    + intros f d m0 Hd Hm0.
      rewrite (Hfm' f d _ Hd (eq_trans (Hfm1 f d Hd) (f_equal _ Hm0))).
      by rewrite field_tally_cons.
Qed.

Lemma evaluation_loop_closed gt preds :
  ∃ fm,
    evaluation_loop gt preds = Ok (map record_verdict (combine gt preds), fm)
    ∧ ∀ f d, dict_get FIELD_DEFINITIONS f = Some d →
        fm !! f = Some (field_tally f d (combine gt preds)).
Proof.
  destruct (pairs_loop_closed (combine gt preds) [] initial_metrics) as (fm & Hloop & Hfm).
  exists fm. split; [done|]. intros f d Hd.
  rewrite (Hfm f d _ Hd (initial_metrics_lookup f d Hd)). f_equal.
Qed.

Lemma foldM_ext {S X : Type} (body body' : S → X → py S) (xs : list X) :
  (∀ x, x ∈ xs → ∀ s, body s x = body' s x) →
  ∀ s, foldM body xs s = foldM body' xs s.
Proof.
  induction xs as [|x xs IH]; intros Hext s; [done|].
  cbn [foldM]. rewrite (Hext x) by left.
  destruct (body' s x) as [s'|e]; cbn [mbind py_bind]; [|done].
  apply IH. intros y Hy. apply Hext. by right.
Qed.

Lemma evaluate_pair_same_on_schema st g g' p p' :
  same_on_schema g g' → same_on_schema p p' →
  evaluate_pair st (g, p) = evaluate_pair st (g', p').
Proof.
  intros Hg Hp. unfold evaluate_pair. cbn [fst snd].
  rewrite (foldM_ext (evaluate_field g p) (evaluate_field g' p')); [done|].
  intros [f d] Hfd s. unfold evaluate_field. cbn [fst snd].
  assert (Hf : f ∈ dict_keys FIELD_DEFINITIONS) by (by eapply elem_dict_keys).
  specialize (Hg f Hf). specialize (Hp f Hf). unfold field_value in Hg, Hp.
  by rewrite Hg, Hp.
Qed.

Lemma pairs_loop_same_on_schema gt gt' :
  Forall2 same_on_schema gt gt' →
  ∀ preds preds', Forall2 same_on_schema preds preds' →
  ∀ st, foldM evaluate_pair (combine gt preds) st
        = foldM evaluate_pair (combine gt' preds') st.
Proof.
  induction 1 as [|g g' gt gt' Hg Hgt IH]; intros preds preds' Hpreds st; [done|].
  destruct Hpreds as [|p p' preds preds' Hp Hpreds]; [done|].
  cbn [combine foldM]. rewrite (evaluate_pair_same_on_schema st g g' p p') by done.
  destruct (evaluate_pair st (g', p')) as [st'|e]; cbn [mbind py_bind]; [|done].
  by apply IH.
Qed.

(** The evaluator reads the fields of the schema and nothing else: records
    that agree on the five schema fields (a missing field counting as the
    empty string) give the same report, whatever other keys they carry. *)
Theorem schema_fields_only gt gt' preds preds' :
  Forall2 same_on_schema gt gt' →
  Forall2 same_on_schema preds preds' →
  evaluate_dataset gt preds = evaluate_dataset gt' preds'.
Proof.
  intros Hgt Hpreds. unfold evaluate_dataset, evaluation_loop.
  by rewrite (pairs_loop_same_on_schema gt gt' Hgt preds preds' Hpreds).
Qed.

Lemma dict_get_map {V W : Type} (g : string * V → W) (d : dict V) key :
  dict_get (map (λ kv, (fst kv, g kv)) d) key
  = (λ v, g (key, v)) <$> dict_get d key.
Proof.
  induction d as [|[k v] d IH]; [done|]. simpl.
  destruct (String.eqb k key) eqn:Hk; [|done].
  apply String.eqb_eq in Hk as ->. done.
Qed.

Lemma dict_keys_map {V W : Type} (g : string * V → W) (d : dict V) :
  dict_keys (map (λ kv, (fst kv, g kv)) d) = dict_keys d.
Proof. unfold dict_keys. rewrite map_map. done. Qed.

Lemma verdict_of_keys d gt pred :
  dict_keys (verdict_of d gt pred) = verdict_keys d
  ∧ dict_get (verdict_of d gt pred) "ground_truth" = Some (PStr gt)
  ∧ dict_get (verdict_of d gt pred) "prediction" = Some (PStr pred).
Proof.
  unfold verdict_of, verdict_keys.
  destruct (String.eqb (evaluation d) "exact"); [done|].
  destruct (String.eqb (evaluation d) "ner"); done.
Qed.

(** One iteration over a record pair appends one Record Verdict, with one
    Field Verdict per field of the schema, in the order of the schema; each
    Field Verdict has the keys of its strategy and carries the raw
    [ground_truth] and [prediction] values, the empty string for a field
    that the record does not have. *)
Theorem record_verdict_shape results fm (pair : entry * entry) :
  ∃ entry_results fm',
    evaluate_pair (results, fm) pair = Ok (results ++ [entry_results], fm')
    ∧ dict_keys entry_results = dict_keys FIELD_DEFINITIONS
    ∧ ∀ field d, dict_get FIELD_DEFINITIONS field = Some d →
        ∃ verdict,
          dict_get entry_results field = Some verdict
          ∧ dict_keys verdict = verdict_keys d
          ∧ dict_get verdict "ground_truth"
            = Some (PStr (default EmptyString (fst pair !! field)))
          ∧ dict_get verdict "prediction"
            = Some (PStr (default EmptyString (snd pair !! field))).
Proof.
  destruct (evaluate_pair_closed results fm pair) as (fm' & Hstep & _).
  exists (record_verdict pair), fm'. split; [done|]. split.
  - unfold record_verdict. apply dict_keys_map.
  - intros field d Hd. unfold record_verdict.
    rewrite (dict_get_map (λ fd, verdict_of (snd fd) (field_value (fst pair) (fst fd))
                                                     (field_value (snd pair) (fst fd)))).
    rewrite Hd. cbn [fmap option_fmap option_map fst snd]. eexists. split; [done|].
    apply verdict_of_keys.
Qed.

Lemma evaluate_dataset_closed gt preds :
  0 < min (length gt) (length preds) →
  ∃ fm agg,
    evaluation_loop gt preds = Ok (map record_verdict (combine gt preds), fm)
    ∧ counted (min (length gt) (length preds)) fm
    ∧ (∀ f d, dict_get FIELD_DEFINITIONS f = Some d →
         fm !! f = Some (field_tally f d (combine gt preds)))
    ∧ evaluate_dataset gt preds
      = Ok {| individual_results := map record_verdict (combine gt preds);
              aggregate_results := agg |}
    ∧ ∀ f d m, dict_get FIELD_DEFINITIONS f = Some d → fm !! f = Some m →
        dict_get agg f = Some (aggregate_entry d m).
Proof.
  intros Hpos.
  destruct (evaluation_loop_closed gt preds) as (fm & Hloop & Htally).
  destruct (evaluation_loop_spec gt preds) as (results' & fm' & Hloop' & _ & Hcount).
  rewrite Hloop in Hloop'. injection Hloop' as <- <-.
  destruct (aggregate_pass_spec _ fm Hpos Hcount) as (agg & Hagg & Hentry).
  exists fm, agg. split_and!; try done.
  unfold evaluate_dataset. rewrite Hloop. cbn [mbind py_bind]. by rewrite Hagg.
Qed.

(** [individual_results] lists the Record Verdicts in input order, and the
    verdict at position [i] is determined by the records at position [i]
    alone: the counters carried through the loop do not leak into it. *)
Theorem individual_results_closed gt preds :
  0 < min (length gt) (length preds) →
  ∃ report,
    evaluate_dataset gt preds = Ok report
    ∧ individual_results report = map record_verdict (combine gt preds)
    ∧ ∀ i g p, gt !! i = Some g → preds !! i = Some p →
        individual_results report !! i = Some (record_verdict (g, p)).
Proof.
  intros Hpos.
  destruct (evaluate_dataset_closed gt preds Hpos) as (fm & agg & _ & _ & _ & Hrun & _).
  eexists. split; [exact Hrun|]. split; [done|].
  intros i g p Hg Hp. cbn [individual_results].
  rewrite list_lookup_fmap.
  assert (Hpair : combine gt preds !! i = Some (g, p)).
  { clear -Hg Hp. revert i preds Hg Hp.
    induction gt as [|g0 gt IH]; intros [|i] [|p0 preds] Hg Hp; simplify_eq/=; try done.
    by apply IH. }
  by rewrite Hpair.
Qed.

(** After the loop, the counters of a field are sums over the record pairs
    processed: [exact] adds the [exact_match] flags (Exact and NearMatch),
    [near] adds [exact_match], [near_match] or [meets_threshold] according
    to the strategy, and [total] is the number of pairs. *)
Theorem accumulators_closed gt preds field d :
  dict_get FIELD_DEFINITIONS field = Some d →
  ∃ results fm,
    evaluation_loop gt preds = Ok (results, fm)
    ∧ fm !! field = Some (field_tally field d (combine gt preds)).
Proof.
  intros Hd. destruct (evaluation_loop_closed gt preds) as (fm & Hloop & Htally).
  eexists _, fm. split; [exact Hloop|]. by apply Htally.
Qed.

Lemma combine_app_same {X Y : Type} (l1 l2 : list X) (k1 k2 : list Y) :
  length l1 = length k1 →
  combine (l1 ++ l2) (k1 ++ k2) = combine l1 k1 ++ combine l2 k2.
Proof.
  revert k1. induction l1 as [|x l1 IH]; intros [|y k1] Hlen; simplify_eq/=; [done|].
  by rewrite IH.
Qed.

Lemma Zsum_app l1 l2 : Zsum (l1 ++ l2) = (Zsum l1 + Zsum l2)%Z.
Proof. unfold Zsum. induction l1 as [|x l1 IH]; simpl; [done|]. rewrite IH. lia. Qed.

Lemma field_tally_app field d pairs1 pairs2 :
  field_tally field d (pairs1 ++ pairs2)
  = metrics_add (field_tally field d pairs1) (field_tally field d pairs2).
Proof.
  unfold field_tally, metrics_add. cbn [exact near total].
  rewrite !map_app, !Zsum_app, length_app, Nat2Z.inj_add. done.
Qed.

(** The loop is compositional: evaluating two datasets one after the other
    gives the Record Verdicts of the first followed by those of the second,
    and counters that are the sums of the counters of the two runs. *)
Theorem evaluation_loop_app gt1 gt2 preds1 preds2 :
  length gt1 = length preds1 →
  ∃ results1 fm1 results2 fm2 fm,
    evaluation_loop gt1 preds1 = Ok (results1, fm1)
    ∧ evaluation_loop gt2 preds2 = Ok (results2, fm2)
    ∧ evaluation_loop (gt1 ++ gt2) (preds1 ++ preds2) = Ok (results1 ++ results2, fm)
    ∧ ∀ field d, dict_get FIELD_DEFINITIONS field = Some d →
        ∃ m1 m2, fm1 !! field = Some m1 ∧ fm2 !! field = Some m2
                 ∧ fm !! field = Some (metrics_add m1 m2).
Proof.
  intros Hlen.
  destruct (evaluation_loop_closed gt1 preds1) as (fm1 & Hloop1 & Htally1).
  destruct (evaluation_loop_closed gt2 preds2) as (fm2 & Hloop2 & Htally2).
  destruct (evaluation_loop_closed (gt1 ++ gt2) (preds1 ++ preds2)) as (fm & Hloop & Htally).
  rewrite (combine_app_same _ _ _ _ Hlen) in Hloop, Htally. rewrite map_app in Hloop.
  eexists _, fm1, _, fm2, fm. split_and!; [exact Hloop1|exact Hloop2|exact Hloop|].
  intros field d Hd. eexists _, _.
  split; [by apply Htally1|]. split; [by apply Htally2|].
  by rewrite (Htally field d Hd), field_tally_app.
Qed.

(** ** Bounds of the aggregate metrics *)

(** For the Exact and NearMatch strategies precision and recall are
    ordered fractions, [0 <= precision <= recall <= 1], and
    [exact_match_rate] is the same number as [precision]. The F1 score,
    computed in binary64 from the two, is not bound to lie between them
    (see [f1_score_rounding]). *)
Theorem aggregate_bounds gt preds field d :
  0 < min (length gt) (length preds) →
  dict_get FIELD_DEFINITIONS field = Some d →
  evaluation d = "exact" ∨ evaluation d = "ner" →
  ∃ report precision recall f1 rate,
    evaluate_dataset gt preds = Ok report
    ∧ dict_get (aggregate_results report) field
      = Some [("precision", PRatio precision); ("recall", PRatio recall);
              ("f1_score", PFloat f1); ("exact_match_rate", PRatio rate)]
    ∧ (0 <= precision)%Q ∧ (precision <= recall)%Q ∧ (recall <= 1)%Q
    ∧ rate = precision
    ∧ f1 = calculate_f1_score (float64 precision) (float64 recall).
Proof.
  intros Hpos Hd Hstrategy.
  destruct (evaluate_dataset_closed gt preds Hpos)
    as (fm & agg & _ & Hcount & _ & Hrun & Hentry).
  destruct (Hcount field d Hd) as (m & Hm & Htotal & Hexact & Hnear).
  assert (Hlt : (0 <? total m)%Z = true) by (apply Z.ltb_lt; lia).
  assert (Hp : (0 <= precision_of m <= 1)%Q).
  { unfold precision_of. rewrite Hlt. apply true_div_bounds; lia. }
  assert (Hr : (0 <= recall_of m <= 1)%Q).
  { unfold recall_of. rewrite Hlt. apply true_div_bounds; lia. }
  assert (Hpr : (precision_of m <= recall_of m)%Q).
  { unfold precision_of, recall_of. rewrite Hlt. apply true_div_mono; lia. }
  eexists _, (precision_of m), (recall_of m), _, _.
  split; [exact Hrun|]. split.
  { cbn [aggregate_results]. rewrite (Hentry field d m Hd Hm). unfold aggregate_entry.
    by destruct Hstrategy as [-> | ->]. }
  split_and!; try done; try tauto.
  unfold precision_of. by rewrite Hlt.
Qed.

(** For the Semantic strategy, [semantic_similarity_rate] is a fraction
    between 0 and 1. *)
Theorem semantic_rate_bounds gt preds field d :
  0 < min (length gt) (length preds) →
  dict_get FIELD_DEFINITIONS field = Some d →
  evaluation d = "semantic" →
  ∃ report rate,
    evaluate_dataset gt preds = Ok report
    ∧ dict_get (aggregate_results report) field
      = Some [("semantic_similarity_rate", PRatio rate)]
    ∧ (0 <= rate <= 1)%Q.
Proof.
  intros Hpos Hd Hstrategy.
  destruct (evaluate_dataset_closed gt preds Hpos)
    as (fm & agg & _ & Hcount & _ & Hrun & Hentry).
  destruct (Hcount field d Hd) as (m & Hm & Htotal & Hexact & Hnear).
  eexists _, _. split; [exact Hrun|]. split.
  { cbn [aggregate_results]. rewrite (Hentry field d m Hd Hm). unfold aggregate_entry.
    by rewrite Hstrategy. }
  apply true_div_bounds; lia.
Qed.

Lemma field_tally_exact field d pairs :
  evaluation d = "exact" →
  near (field_tally field d pairs) = exact (field_tally field d pairs).
Proof.
  intros Hd. unfold field_tally, near_flag, exact_flag. rewrite Hd. done.
Qed.

(** For a field of the Exact strategy both counters add the same flag, so
    recall and the exact match rate equal precision, and the F1 score is
    computed from two equal arguments. In binary64 that score need not be
    the precision itself (see [f1_score_rounding]). *)
Theorem exact_strategy_metrics gt preds field d :
  0 < min (length gt) (length preds) →
  dict_get FIELD_DEFINITIONS field = Some d →
  evaluation d = "exact" →
  ∃ report precision recall f1 rate,
    evaluate_dataset gt preds = Ok report
    ∧ dict_get (aggregate_results report) field
      = Some [("precision", PRatio precision); ("recall", PRatio recall);
              ("f1_score", PFloat f1); ("exact_match_rate", PRatio rate)]
    ∧ recall = precision ∧ rate = precision
    ∧ f1 = calculate_f1_score (float64 precision) (float64 precision).
Proof.
  intros Hpos Hd Hstrategy.
  destruct (evaluate_dataset_closed gt preds Hpos)
    as (fm & agg & _ & Hcount & Htally & Hrun & Hentry).
  destruct (Hcount field d Hd) as (m & Hm & Htotal & Hexact & Hnear).
  assert (Hsame : near m = exact m).
  { rewrite (Htally field d Hd) in Hm. injection Hm as <-.
    by apply field_tally_exact. }
  assert (Hlt : (0 <? total m)%Z = true) by (apply Z.ltb_lt; lia).
  assert (Hrp : recall_of m = precision_of m).
  { unfold recall_of, precision_of. by rewrite Hsame. }
  eexists _, (precision_of m), (recall_of m), _, _.
  split; [exact Hrun|]. split.
  { cbn [aggregate_results]. rewrite (Hentry field d m Hd Hm). unfold aggregate_entry.
    by rewrite Hstrategy. }
  split_and!; [done| |].
  - unfold precision_of. by rewrite Hlt.
  - by rewrite Hrp.
Qed.

(** ** The statements above on the sample records *)

Lemma sample_same_on_schema :
  Forall2 same_on_schema sample_ground_truth sample_ground_truth_annotated.
Proof.
  constructor; [|constructor]. intros field Hfield.
  repeat (apply elem_of_cons in Hfield as [->|Hfield]); try (by vm_compute).
  by apply elem_of_nil in Hfield.
Qed.

Lemma same_on_schema_refl (l : list entry) : Forall2 same_on_schema l l.
Proof. induction l; constructor; done. Qed.

Lemma schema_fields_only_witness :
  Forall2 same_on_schema sample_ground_truth sample_ground_truth_annotated
  ∧ Forall2 same_on_schema sample_predictions sample_predictions
  ∧ evaluate_dataset sample_ground_truth sample_predictions
    = evaluate_dataset sample_ground_truth_annotated sample_predictions.
Proof.
  split; [exact sample_same_on_schema|]. split; [apply same_on_schema_refl|].
  apply (schema_fields_only sample_ground_truth sample_ground_truth_annotated
           sample_predictions sample_predictions).
  - exact sample_same_on_schema.
  - apply same_on_schema_refl.
Defined.

Lemma individual_results_closed_witness :
  0 < min (length sample_ground_truth) (length sample_predictions)
  ∧ ∃ report,
      evaluate_dataset sample_ground_truth sample_predictions = Ok report
      ∧ individual_results report
        = map record_verdict (combine sample_ground_truth sample_predictions)
      ∧ ∀ i g p, sample_ground_truth !! i = Some g → sample_predictions !! i = Some p →
          individual_results report !! i = Some (record_verdict (g, p)).
Proof.
  split; [simpl; lia|].
  apply (individual_results_closed sample_ground_truth sample_predictions).
  simpl. lia.
Defined.

Lemma accumulators_closed_witness :
  dict_get FIELD_DEFINITIONS "Public Note"
  = Some {| field_type := "text"; is_identifier := false; evaluation := "semantic" |}
  ∧ ∃ results fm,
      evaluation_loop sample_ground_truth sample_predictions = Ok (results, fm)
      ∧ fm !! "Public Note"
        = Some (field_tally "Public Note"
                  {| field_type := "text"; is_identifier := false; evaluation := "semantic" |}
                  (combine sample_ground_truth sample_predictions)).
Proof.
  split; [reflexivity|].
  apply (accumulators_closed sample_ground_truth sample_predictions "Public Note").
  reflexivity.
Defined.

Lemma evaluation_loop_app_witness :
  length sample_ground_truth = length sample_predictions
  ∧ ∃ results1 fm1 results2 fm2 fm,
      evaluation_loop sample_ground_truth sample_predictions = Ok (results1, fm1)
      ∧ evaluation_loop sample_ground_truth_lower sample_predictions = Ok (results2, fm2)
      ∧ evaluation_loop (sample_ground_truth ++ sample_ground_truth_lower)
                        (sample_predictions ++ sample_predictions)
        = Ok (results1 ++ results2, fm)
      ∧ ∀ field d, dict_get FIELD_DEFINITIONS field = Some d →
          ∃ m1 m2, fm1 !! field = Some m1 ∧ fm2 !! field = Some m2
                   ∧ fm !! field = Some (metrics_add m1 m2).
Proof.
  split; [reflexivity|].
  apply (evaluation_loop_app sample_ground_truth sample_ground_truth_lower
           sample_predictions sample_predictions).
  reflexivity.
Defined.

Lemma aggregate_bounds_witness :
  0 < min (length sample_ground_truth) (length sample_predictions)
  ∧ ∃ report precision recall f1 rate,
      evaluate_dataset sample_ground_truth sample_predictions = Ok report
      ∧ dict_get (aggregate_results report) "Public Name Tag"
        = Some [("precision", PRatio precision); ("recall", PRatio recall);
                ("f1_score", PFloat f1); ("exact_match_rate", PRatio rate)]
      ∧ (0 <= precision)%Q ∧ (precision <= recall)%Q ∧ (recall <= 1)%Q
      ∧ rate = precision
      ∧ f1 = calculate_f1_score (float64 precision) (float64 recall).
Proof.
  split; [simpl; lia|].
  apply (aggregate_bounds sample_ground_truth sample_predictions "Public Name Tag"
           {| field_type := "text"; is_identifier := true; evaluation := "ner" |}).
  - simpl. lia.
  - reflexivity.
  - right. reflexivity.
Defined.

Lemma semantic_rate_bounds_witness :
  0 < min (length sample_ground_truth) (length sample_predictions)
  ∧ ∃ report rate,
      evaluate_dataset sample_ground_truth sample_predictions = Ok report
      ∧ dict_get (aggregate_results report) "Public Note"
        = Some [("semantic_similarity_rate", PRatio rate)]
      ∧ (0 <= rate <= 1)%Q.
Proof.
  split; [simpl; lia|].
  apply (semantic_rate_bounds sample_ground_truth sample_predictions "Public Note"
           {| field_type := "text"; is_identifier := false; evaluation := "semantic" |}).
  - simpl. lia.
  - reflexivity.
  - reflexivity.
Defined.

Lemma exact_strategy_metrics_witness :
  0 < min (length sample_ground_truth) (length sample_predictions)
  ∧ ∃ report precision recall f1 rate,
      evaluate_dataset sample_ground_truth sample_predictions = Ok report
      ∧ dict_get (aggregate_results report) "Contract Address"
        = Some [("precision", PRatio precision); ("recall", PRatio recall);
                ("f1_score", PFloat f1); ("exact_match_rate", PRatio rate)]
      ∧ recall = precision ∧ rate = precision
      ∧ f1 = calculate_f1_score (float64 precision) (float64 precision).
Proof.
  split; [simpl; lia|].
  apply (exact_strategy_metrics sample_ground_truth sample_predictions "Contract Address"
           {| field_type := "rich_address"; is_identifier := true; evaluation := "exact" |}).
  - simpl. lia.
  - reflexivity.
  - reflexivity.
Defined.

(** ** Outcome and shape of the report *)

Lemma aggregate_loop_keys fm fds : ∀ agg agg',
  NoDup (dict_keys fds) → (∀ f, f ∈ dict_keys fds → f ∉ dict_keys agg) →
  foldM (aggregate_field fm) fds agg = Ok agg' →
  dict_keys agg' = dict_keys agg ++ dict_keys fds.
Proof.
  induction fds as [|[f d] fds IH]; intros agg agg' Hnd Hfresh Hrun.
  { injection Hrun as <-. by rewrite app_nil_r. }
  simpl in Hnd. apply NoDup_cons in Hnd as [Hf Hnd].
  cbn [foldM] in Hrun.
  destruct (aggregate_field fm agg (f, d)) as [agg1|e] eqn:Hstep; [|done].
  cbn [mbind py_bind] in Hrun.
  assert (Hagg1 : ∃ v, agg1 = agg ++ [(f, v)]).
  { unfold aggregate_field in Hstep. cbn [fst snd] in Hstep.
    destruct (fm !! f) as [m|]; [|done].
    destruct (_ || _).
    - destruct (py_truediv (exact m) (total m)) as [r|]; [|done].
      injection Hstep as <-. eexists. apply dict_set_fresh, Hfresh. left.
    - destruct (py_truediv (near m) (total m)) as [r|]; [|done].
      injection Hstep as <-. eexists. apply dict_set_fresh, Hfresh. left. }
  destruct Hagg1 as [v ->].
  rewrite (IH (agg ++ [(f, v)]) agg' Hnd); [| |done].
  - rewrite dict_keys_app. simpl. by rewrite <- app_assoc.
  - intros f' Hf'. rewrite dict_keys_app. simpl.
    intros Hin. apply elem_of_app in Hin as [Hin|Hin].
    + apply (Hfresh f'); [by right|done].
    + apply list_elem_of_singleton in Hin as ->. done.
Qed.

Lemma aggregate_entry_keys d m : dict_keys (aggregate_entry d m) = aggregate_keys d.
Proof. unfold aggregate_entry, aggregate_keys. by destruct (_ || _). Qed.

(** [evaluate_dataset] has two outcomes. Without a record pair it raises
    [ZeroDivisionError]. With at least one it returns a report: one Record
    Verdict per pair and one Aggregate Metric per field of the schema, in
    the order of the schema, whose keys are [precision], [recall],
    [f1_score], [exact_match_rate] for the Exact and NearMatch strategies and
    [semantic_similarity_rate] for the Semantic one. *)
Theorem evaluate_dataset_outcome gt preds :
  (min (length gt) (length preds) = 0
   ∧ evaluate_dataset gt preds = Raise ZeroDivisionError)
  ∨ (0 < min (length gt) (length preds)
     ∧ ∃ report,
         evaluate_dataset gt preds = Ok report
         ∧ length (individual_results report) = min (length gt) (length preds)
         ∧ dict_keys (aggregate_results report) = dict_keys FIELD_DEFINITIONS
         ∧ ∀ field d, dict_get FIELD_DEFINITIONS field = Some d →
             ∃ aggregate,
               dict_get (aggregate_results report) field = Some aggregate
               ∧ dict_keys aggregate = aggregate_keys d).
Proof.
  destruct (min (length gt) (length preds)) as [|n] eqn:Hmin.
  - left. split; [done|].
    assert (Hnil : combine gt preds = []).
    { apply length_zero_iff_nil. by rewrite length_combine. }
    unfold evaluate_dataset, evaluation_loop. rewrite Hnil. by vm_compute.
  - right. split; [lia|].
    destruct (evaluate_dataset_closed gt preds) as (fm & agg & Hloop & Hcount & _ & Hrun & Hentry);
      [lia|].
    eexists. split; [exact Hrun|]. cbn [individual_results aggregate_results].
    split_and!.
    + by rewrite length_map, length_combine.
    + unfold evaluate_dataset in Hrun. rewrite Hloop in Hrun. cbn [mbind py_bind] in Hrun.
      destruct (aggregate_pass fm) as [agg0|] eqn:Hagg; [|done].
      injection Hrun as <-.
      apply (aggregate_loop_keys fm FIELD_DEFINITIONS [] agg0 schema_keys_NoDup);
        [|exact Hagg].
      intros f _ Hin. by apply elem_of_nil in Hin.
    + intros field d Hd. rewrite Hmin in Hcount.
      destruct (Hcount field d Hd) as (m & Hm & _).
      exists (aggregate_entry d m). split; [by eapply Hentry|].
      apply aggregate_entry_keys.
Qed.

(** ** Case *)

Lemma cosine_value_lower gt gt' pred pred' :
  lower gt = lower gt' → lower pred = lower pred' →
  cosine_value gt pred = cosine_value gt' pred'.
Proof.
  intros Hgt Hpred. unfold cosine_value, calculate_cosine_similarity.
  by rewrite Hgt, Hpred.
Qed.

Lemma flags_lower d gt gt' pred pred' :
  lower gt = lower gt' → lower pred = lower pred' →
  exact_flag d gt pred = exact_flag d gt' pred'
  ∧ near_flag d gt pred = near_flag d gt' pred'.
Proof.
  intros Hgt Hpred. unfold exact_flag, near_flag, calculate_similarity.
  rewrite (cosine_value_lower gt gt' pred pred') by done.
  by rewrite Hgt, Hpred.
Qed.

Lemma field_tally_lower field d (gt gt' preds preds' : list entry) :
  field ∈ dict_keys FIELD_DEFINITIONS →
  Forall2 same_lower_on_schema gt gt' →
  Forall2 same_lower_on_schema preds preds' →
  field_tally field d (combine gt preds) = field_tally field d (combine gt' preds').
Proof.
  intros Hfield Hgt. revert preds preds'.
  induction Hgt as [|g g' gt gt' Hg Hgt IH]; intros preds preds' Hpreds; [done|].
  destruct Hpreds as [|p p' preds preds' Hp Hpreds]; [done|].
  cbn [combine]. specialize (IH preds preds' Hpreds).
  unfold field_tally in *. cbn [map length fst snd].
  injection IH as IH1 IH2 IH3.
  destruct (flags_lower d (field_value g field) (field_value g' field)
              (field_value p field) (field_value p' field)) as [He Hn];
    [by apply Hg|by apply Hp|].
  unfold Zsum in *. cbn [fold_right]. rewrite He, Hn, IH1, IH2.
  f_equal. lia.
Qed.

Lemma aggregate_pass_ext fm fm' :
  (∀ f d, dict_get FIELD_DEFINITIONS f = Some d → fm !! f = fm' !! f) →
  aggregate_pass fm = aggregate_pass fm'.
Proof.
  intros Hsame. unfold aggregate_pass. apply foldM_ext.
  intros [f d] Hfd agg. unfold aggregate_field. cbn [fst snd].
  rewrite (Hsame f d); [done|]. by apply (elem_dict_get _ _ _ schema_keys_NoDup).
Qed.

(** The aggregate metrics do not depend on the case of the values: two
    datasets whose schema fields are equal up to case, record by record,
    give the same [aggregate_results] (or both raise the same exception). *)
Theorem aggregate_case_insensitive gt gt' preds preds' :
  Forall2 same_lower_on_schema gt gt' →
  Forall2 same_lower_on_schema preds preds' →
  match evaluate_dataset gt preds, evaluate_dataset gt' preds' with
  | Ok report, Ok report' => aggregate_results report = aggregate_results report'
  | Raise e, Raise e' => e = e'
  | _, _ => False
  end.
Proof.
  intros Hgt Hpreds.
  destruct (evaluation_loop_closed gt preds) as (fm & Hloop & Htally).
  destruct (evaluation_loop_closed gt' preds') as (fm' & Hloop' & Htally').
  unfold evaluate_dataset. rewrite Hloop, Hloop'. cbn [mbind py_bind].
  rewrite (aggregate_pass_ext fm fm').
  - by destruct (aggregate_pass fm').
  - intros f d Hd. rewrite (Htally f d Hd), (Htally' f d Hd). f_equal.
    apply field_tally_lower; [|done|done].
    eapply elem_dict_keys. by apply dict_get_elem.
Qed.

Lemma sample_same_lower_on_schema :
  Forall2 same_lower_on_schema sample_ground_truth sample_ground_truth_lower.
Proof.
  constructor; [|constructor]. intros field Hfield.
  repeat (apply elem_of_cons in Hfield as [->|Hfield]); try (by vm_compute).
  by apply elem_of_nil in Hfield.
Qed.

Lemma same_lower_on_schema_refl (l : list entry) : Forall2 same_lower_on_schema l l.
Proof. induction l; constructor; done. Qed.

Lemma aggregate_case_insensitive_witness :
  Forall2 same_lower_on_schema sample_ground_truth sample_ground_truth_lower
  ∧ Forall2 same_lower_on_schema sample_predictions sample_predictions
  ∧ match evaluate_dataset sample_ground_truth sample_predictions,
          evaluate_dataset sample_ground_truth_lower sample_predictions with
    | Ok report, Ok report' => aggregate_results report = aggregate_results report'
    | Raise e, Raise e' => e = e'
    | _, _ => False
    end.
Proof.
  split; [exact sample_same_lower_on_schema|]. split; [apply same_lower_on_schema_refl|].
  apply (aggregate_case_insensitive sample_ground_truth sample_ground_truth_lower
           sample_predictions sample_predictions).
  - exact sample_same_lower_on_schema.
  - apply same_lower_on_schema_refl.
Defined.

(** ** Matching blocks are common runs *)

Section BlocksCommon.
Context {A : Type} `{Countable A}.
Variables (a b : list A).

Lemma common_nil i j : common a b i j 0.
Proof. intros t Ht. lia. Qed.

Lemma common_snoc i j k x :
  common a b i j k → a !! (i + k) = Some x → b !! (j + k) = Some x →
  common a b i j (S k).
Proof.
  intros Hc Ha Hb t Ht. destruct (decide (t = k)) as [->|Hne].
  - by exists x.
  - apply Hc. lia.
Qed.

Lemma common_cons i j k x :
  common a b (S i) (S j) k → a !! i = Some x → b !! j = Some x →
  common a b i j (S k).
Proof.
  intros Hc Ha Hb [|t] Ht.
  - exists x. by rewrite !Nat.add_0_r.
  - destruct (Hc t) as (y & Hy1 & Hy2); [lia|]. exists y.
    by rewrite <- !Nat.add_succ_comm.
Qed.

Lemma elem_eqb_true (x y : option A) :
  elem_eqb x y = true → ∃ v, x = Some v ∧ y = Some v.
Proof.
  destruct x as [u|], y as [v|]; simpl; try done.
  intros Heq. apply bool_decide_eq_true in Heq as ->. by exists v.
Qed.

Lemma scan_row_common i x blo bhi prev js : ∀ new best,
  a !! i = Some x → (∀ j, j ∈ js → b !! j = Some x) →
  row_common a b i prev → row_common a b (S i) new → block_common a b best →
  row_common a b (S i) (fst (scan_row i blo bhi prev js new best))
  ∧ block_common a b (snd (scan_row i blo bhi prev js new best)).
Proof.
  induction js as [|j js IH]; intros new best Hx Hjs Hprev Hnew Hbest; [done|].
  cbn [scan_row].
  assert (Hjs' : ∀ j', j' ∈ js → b !! j' = Some x) by (intros j' Hj'; apply Hjs; by right).
  destruct (j <? blo); [by apply IH|].
  destruct (bhi <=? j); [done|].
  assert (Hj : b !! j = Some x) by (apply Hjs; left).
  assert (Hk : j2lenget prev j + 1 ≤ S i ∧ j2lenget prev j + 1 ≤ S j
               ∧ common a b (S i - (j2lenget prev j + 1)) (S j - (j2lenget prev j + 1))
                        (j2lenget prev j + 1)).
  { destruct j as [|j']; simpl.
    - split; [lia|]. split; [lia|].
      intros t Ht. exists x. assert (t = 0) as -> by lia.
      split; [rewrite <- Hx|rewrite <- Hj]; f_equal; lia.
    - destruct (prev !! j') as [v|] eqn:Hv; simpl.
      + destruct (Hprev j' v Hv) as (Hvi & Hvj & Hc).
        split; [lia|]. split; [lia|].
        replace (S i - (v + 1)) with (i - v) by lia.
        replace (S (S j') - (v + 1)) with (S j' - v) by lia.
        replace (v + 1) with (S v) by lia.
        apply (common_snoc _ _ _ x); [done| |].
        * by replace (i - v + v) with i by lia.
        * by replace (S j' - v + v) with (S j') by lia.
      + split; [lia|]. split; [lia|].
        intros t Ht. exists x. assert (t = 0) as -> by lia.
        split; [rewrite <- Hx|rewrite <- Hj]; f_equal; lia. }
  destruct Hk as (Hki & Hkj & Hkc).
  apply IH; try done.
  - intros c v. destruct (decide (j = c)) as [->|Hne].
    + rewrite lookup_insert_eq. by intros [= <-].
    + rewrite lookup_insert_ne by done. apply Hnew.
  - destruct (match_size best <? j2lenget prev j + 1); [|done].
    unfold block_common, match_size. cbn [fst snd].
    by replace (i + 1 - (j2lenget prev j + 1)) with (S i - (j2lenget prev j + 1)) by lia;
       replace (j + 1 - (j2lenget prev j + 1)) with (S j - (j2lenget prev j + 1)) by lia.
Qed.

Lemma scan_step_common blo bhi st i :
  row_common a b i (fst st) → block_common a b (snd st) →
  row_common a b (S i) (fst (scan_step a b blo bhi st i))
  ∧ block_common a b (snd (scan_step a b blo bhi st i)).
Proof.
  intros Hrow Hbest. unfold scan_step.
  destruct (a !! i) as [x|] eqn:Hx.
  - apply (scan_row_common i x); try done.
    intros j Hj. by apply (proj1 (proj2 (b2j_get_spec b x))).
  - split; [|done]. intros c v. cbn [fst]. by rewrite lookup_empty.
Qed.

Lemma scan_rows_common blo bhi m : ∀ i st,
  row_common a b i (fst st) → block_common a b (snd st) →
  block_common a b (snd (fold_left (scan_step a b blo bhi) (seq i m) st)).
Proof.
  induction m as [|m IH]; intros i st Hrow Hbest; [done|]. simpl.
  destruct (scan_step_common blo bhi st i Hrow Hbest) as [Hrow' Hbest'].
  by apply IH.
Qed.

Lemma extend_left_common want alo blo besti : ∀ bestj bestsize,
  common a b besti bestj bestsize →
  block_common a b (extend_left a b want alo blo besti bestj bestsize).
Proof.
  induction besti as [|i IH]; intros bestj bestsize Hc; [done|].
  cbn [extend_left].
  destruct (_ && _) eqn:Hcond; [|done].
  apply andb_prop in Hcond as [Hcond Heq]. apply andb_prop in Hcond as [Hcond _].
  apply andb_prop in Hcond as [_ Hblo]. apply Nat.ltb_lt in Hblo.
  apply elem_eqb_true in Heq as (x & Hxa & Hxb).
  apply IH. replace (bestsize + 1) with (S bestsize) by lia.
  apply (common_cons _ _ _ x); [|done|done].
  by replace (S (bestj - 1)) with bestj by lia.
Qed.

Lemma extend_right_common want ahi bhi besti bestj gap : ∀ bestsize,
  common a b besti bestj bestsize →
  common a b besti bestj (extend_right a b want ahi bhi besti bestj gap bestsize).
Proof.
  induction gap as [|gap IH]; intros bestsize Hc; [done|].
  cbn [extend_right].
  destruct (_ && _) eqn:Hcond; [|done].
  apply andb_prop in Hcond as [_ Heq].
  apply elem_eqb_true in Heq as (x & Hxa & Hxb).
  apply IH. replace (bestsize + 1) with (S bestsize) by lia.
  by apply (common_snoc _ _ _ x).
Qed.

Lemma extend_common want alo ahi blo bhi best :
  block_common a b best → block_common a b (extend a b want alo ahi blo bhi best).
Proof.
  destruct best as [[besti bestj] bestsize]. intros Hc.
  unfold block_common, match_size in Hc. simpl in Hc. unfold extend.
  pose proof (extend_left_common want alo blo besti bestj bestsize Hc) as Hleft.
  destruct (extend_left a b want alo blo besti bestj bestsize) as [[i j] k].
  unfold block_common, match_size in *. cbn [fst snd] in *.
  by apply extend_right_common.
Qed.

Lemma find_longest_match_common alo ahi blo bhi :
  block_common a b (find_longest_match a b alo ahi blo bhi).
Proof.
  unfold find_longest_match. do 2 apply extend_common.
  unfold scan_rows. apply scan_rows_common.
  - intros c v. cbn [fst]. by rewrite lookup_empty.
  - apply common_nil.
Qed.

End BlocksCommon.

(** ** What the queue loop collects *)

Section BlockLoop.
Context {A : Type} `{Countable A}.
Variables (a b : list A).

Lemma total_size_snoc blocks i j k : total_size (blocks ++ [(i, j, k)]) = total_size blocks + k.
Proof.
  unfold total_size. rewrite map_app, list_sum_app.
  unfold Match in *. simpl. lia.
Qed.

Lemma caps_le_widths queue : caps queue ≤ widths_a queue ∧ caps queue ≤ widths_b queue.
Proof.
  unfold caps, widths_a, widths_b.
  induction queue as [|r queue [IH1 IH2]]; simpl; [lia|].
  assert (region_cap r ≤ width_a r ∧ region_cap r ≤ width_b r)
    by (unfold region_cap; lia).
  lia.
Qed.

Lemma matching_loop_common fuel : ∀ queue blocks,
  Forall (block_common a b) blocks →
  Forall (block_common a b) (matching_loop a b fuel queue blocks).
Proof.
  induction fuel as [|fuel IH]; intros queue blocks Hblocks; [done|].
  destruct queue as [|[[[alo ahi] blo] bhi] queue]; [done|].
  cbn [matching_loop].
  pose proof (find_longest_match_common a b alo ahi blo bhi) as Hc.
  destruct (find_longest_match a b alo ahi blo bhi) as [[i j] k].
  destruct (k =? 0); [by apply IH|].
  apply IH. apply Forall_app. split; [done|]. by constructor.
Qed.

(** The blocks collected from the queued regions never add up to more
    than the regions can hold. *)
Lemma matching_loop_bound fuel : ∀ queue blocks,
  Forall region_ok queue →
  total_size (matching_loop a b fuel queue blocks) ≤ total_size blocks + caps queue.
Proof.
  induction fuel as [|fuel IH]; intros queue blocks Hok; [simpl; lia|].
  destruct queue as [|[[[alo ahi] blo] bhi] queue]; [simpl; lia|].
  cbn [matching_loop].
  apply Forall_cons in Hok as [[Ha Hb] Hok]. simpl in Ha, Hb.
  pose proof (find_longest_match_fits a b alo ahi blo bhi Ha Hb) as Hfits.
  destruct (find_longest_match a b alo ahi blo bhi) as [[i j] k].
  unfold best_fits, match_size in Hfits. cbn [fst snd] in Hfits.
  assert (Hcaps : caps ((alo, ahi, blo, bhi) :: queue)
                  = min (ahi - alo) (bhi - blo) + caps queue) by done.
  rewrite Hcaps.
  destruct (k =? 0) eqn:Hk.
  { specialize (IH queue blocks Hok). lia. }
  set (queue1 := if (alo <? i) && (blo <? j) then (alo, i, blo, j) :: queue else queue).
  set (queue2 := if (i + k <? ahi) && (j + k <? bhi)
                 then (i + k, ahi, j + k, bhi) :: queue1 else queue1).
  assert (Hq1 : Forall region_ok queue1 ∧ caps queue1 ≤ min (i - alo) (j - blo) + caps queue).
  { unfold queue1. destruct ((alo <? i) && (blo <? j)) eqn:Hleft.
    - split.
      + constructor; [|done]. unfold region_ok. simpl. lia.
      + unfold caps at 1. simpl. fold (caps queue). unfold region_cap, width_a, width_b.
        simpl. lia.
    - split; [done|lia]. }
  destruct Hq1 as [Hok1 Hcap1].
  assert (Hq2 : Forall region_ok queue2
                ∧ caps queue2 ≤ min (ahi - (i + k)) (bhi - (j + k)) + caps queue1).
  { unfold queue2. destruct ((i + k <? ahi) && (j + k <? bhi)) eqn:Hright.
    - split.
      + constructor; [|done]. unfold region_ok. simpl. lia.
      + unfold caps at 1. simpl. fold (caps queue1). unfold region_cap, width_a, width_b.
        simpl. lia.
    - split; [done|lia]. }
  destruct Hq2 as [Hok2 Hcap2].
  specialize (IH queue2 (blocks ++ [(i, j, k)]) Hok2).
  rewrite total_size_snoc in IH. lia.
Qed.

Lemma common_app i j k1 k2 :
  common a b i j k1 → common a b (i + k1) (j + k1) k2 → common a b i j (k1 + k2).
Proof.
  intros H1 H2 t Ht. destruct (decide (t < k1)) as [Hlt|Hge].
  - by apply H1.
  - destruct (H2 (t - k1)) as (x & Hx1 & Hx2); [lia|]. exists x.
    by replace (i + t) with (i + k1 + (t - k1)) by lia;
       replace (j + t) with (j + k1 + (t - k1)) by lia.
Qed.

Lemma region_equal_empty (r : nat * nat * nat * nat) :
  width_a r = 0 → width_b r = 0 → region_equal a b r.
Proof.
  unfold width_a, width_b, region_equal. intros Ha Hb. rewrite Ha, Hb.
  split; [done|apply common_nil].
Qed.

Lemma regions_equal_empty queue :
  widths_a queue = 0 → widths_b queue = 0 → Forall (region_equal a b) queue.
Proof.
  unfold widths_a, widths_b.
  induction queue as [|r queue IH]; simpl; intros Ha Hb; [done|].
  constructor; [apply region_equal_empty; lia|apply IH; lia].
Qed.

(** When the blocks collected fill the queued regions on both sides, the
    two sides of every region agree. *)
Lemma matching_loop_full fuel : ∀ queue blocks,
  Forall region_ok queue →
  total_size (matching_loop a b fuel queue blocks) = total_size blocks + widths_a queue →
  total_size (matching_loop a b fuel queue blocks) = total_size blocks + widths_b queue →
  Forall (region_equal a b) queue.
Proof.
  induction fuel as [|fuel IH]; intros queue blocks Hok HA HB.
  { simpl in HA, HB. apply regions_equal_empty; lia. }
  destruct queue as [|[[[alo ahi] blo] bhi] queue]; [done|].
  cbn [matching_loop] in HA, HB.
  pose proof (matching_loop_bound (S fuel) ((alo, ahi, blo, bhi) :: queue) blocks Hok) as Hbound.
  cbn [matching_loop] in Hbound.
  apply Forall_cons in Hok as [[Ha Hb] Hok]. simpl in Ha, Hb.
  pose proof (find_longest_match_fits a b alo ahi blo bhi Ha Hb) as Hfits.
  pose proof (find_longest_match_common a b alo ahi blo bhi) as Hcommon.
  destruct (find_longest_match a b alo ahi blo bhi) as [[i j] k].
  unfold best_fits, block_common, match_size in Hfits, Hcommon. cbn [fst snd] in Hfits, Hcommon.
  assert (HWa : widths_a ((alo, ahi, blo, bhi) :: queue) = (ahi - alo) + widths_a queue) by done.
  assert (HWb : widths_b ((alo, ahi, blo, bhi) :: queue) = (bhi - blo) + widths_b queue) by done.
  rewrite HWa in HA. rewrite HWb in HB.
  destruct (caps_le_widths queue) as [Hcw1 Hcw2].
  destruct (k =? 0) eqn:Hk.
  { pose proof (matching_loop_bound fuel queue blocks Hok) as Hb'.
    constructor.
    - apply region_equal_empty; unfold width_a, width_b; simpl; lia.
    - apply (IH queue blocks); [done|lia|lia]. }
  apply Nat.eqb_neq in Hk.
  set (queue1 := if (alo <? i) && (blo <? j) then (alo, i, blo, j) :: queue else queue) in *.
  set (queue2 := if (i + k <? ahi) && (j + k <? bhi)
                 then (i + k, ahi, j + k, bhi) :: queue1 else queue1) in *.
  assert (Hq1 : Forall region_ok queue1
                ∧ caps queue1 ≤ min (i - alo) (j - blo) + caps queue
                ∧ widths_a queue1 ≤ (i - alo) + widths_a queue
                ∧ widths_b queue1 ≤ (j - blo) + widths_b queue
                ∧ (Forall (region_equal a b) queue1 →
                   widths_a queue1 = (i - alo) + widths_a queue →
                   widths_b queue1 = (j - blo) + widths_b queue →
                   (i - alo = j - blo ∧ common a b alo blo (i - alo))
                   ∧ Forall (region_equal a b) queue)).
  { unfold queue1. destruct ((alo <? i) && (blo <? j)) eqn:Hleft.
    - split_and!.
      + constructor; [|done]. unfold region_ok. simpl. lia.
      + unfold caps at 1. simpl. fold (caps queue). unfold region_cap, width_a, width_b.
        simpl. lia.
      + unfold widths_a at 1. simpl. fold (widths_a queue). unfold width_a. simpl. lia.
      + unfold widths_b at 1. simpl. fold (widths_b queue). unfold width_b. simpl. lia.
      + intros Heq _ _. apply Forall_cons in Heq as [[Hw Hc] Heq]. simpl in Hw, Hc. done.
    - split_and!; try done; try lia.
      intros Heq Hwa Hwb. split; [|done].
      assert (i - alo = 0) as -> by lia. assert (j - blo = 0) as -> by lia.
      split; [done|apply common_nil]. }
  destruct Hq1 as (Hok1 & Hcap1 & Hwa1 & Hwb1 & Hback1).
  assert (Hq2 : Forall region_ok queue2
                ∧ caps queue2 ≤ min (ahi - (i + k)) (bhi - (j + k)) + caps queue1
                ∧ widths_a queue2 ≤ (ahi - (i + k)) + widths_a queue1
                ∧ widths_b queue2 ≤ (bhi - (j + k)) + widths_b queue1
                ∧ (Forall (region_equal a b) queue2 →
                   widths_a queue2 = (ahi - (i + k)) + widths_a queue1 →
                   widths_b queue2 = (bhi - (j + k)) + widths_b queue1 →
                   (ahi - (i + k) = bhi - (j + k)
                    ∧ common a b (i + k) (j + k) (ahi - (i + k)))
                   ∧ Forall (region_equal a b) queue1)).
  { unfold queue2. destruct ((i + k <? ahi) && (j + k <? bhi)) eqn:Hright.
    - split_and!.
      + constructor; [|done]. unfold region_ok. simpl. lia.
      + unfold caps at 1. simpl. fold (caps queue1). unfold region_cap, width_a, width_b.
        simpl. lia.
      + unfold widths_a at 1. simpl. fold (widths_a queue1). unfold width_a. simpl. lia.
      + unfold widths_b at 1. simpl. fold (widths_b queue1). unfold width_b. simpl. lia.
      + intros Heq _ _. apply Forall_cons in Heq as [[Hw Hc] Heq]. simpl in Hw, Hc. done.
    - split_and!; try done; try lia.
      intros Heq Hwa Hwb. split; [|done].
      assert (ahi - (i + k) = 0) as -> by lia. assert (bhi - (j + k) = 0) as -> by lia.
      split; [done|apply common_nil]. }
  destruct Hq2 as (Hok2 & Hcap2 & Hwa2 & Hwb2 & Hback2).
  pose proof (matching_loop_bound fuel queue2 (blocks ++ [(i, j, k)]) Hok2) as Hb2.
  rewrite total_size_snoc in Hb2.
  destruct (caps_le_widths queue1) as [Hc1a Hc1b].
  destruct (caps_le_widths queue2) as [Hc2a Hc2b].
  assert (Heq2 : Forall (region_equal a b) queue2).
  { apply (IH queue2 (blocks ++ [(i, j, k)]) Hok2); rewrite total_size_snoc; lia. }
  destruct (Hback2 Heq2) as [[Hwr Hcr] Heq1]; [lia|lia|].
  destruct (Hback1 Heq1) as [[Hwl Hcl] Heq0]; [lia|lia|].
  constructor; [|done].
  split; simpl; [lia|].
  replace (ahi - alo) with ((i - alo) + (k + (ahi - (i + k)))) by lia.
  apply common_app; [done|].
  replace (alo + (i - alo)) with i by lia. replace (blo + (i - alo)) with j by lia.
  by apply common_app.
Qed.

End BlockLoop.

(** ** Sorting and collapsing keep the blocks and their total size *)

Section BlocksFinal.
Context {A : Type} `{Countable A}.
Variables (a b : list A).

Lemma total_size_cons m blocks : total_size (m :: blocks) = match_size m + total_size blocks.
Proof. done. Qed.

Lemma total_size_insert x l : total_size (insert_match x l) = match_size x + total_size l.
Proof.
  induction l as [|y l IH]; [done|]. cbn [insert_match].
  destruct (match_leb x y); [done|].
  rewrite !total_size_cons, IH. lia.
Qed.

Lemma total_size_sort l : total_size (sort_matches l) = total_size l.
Proof.
  induction l as [|x l IH]; [done|].
  unfold sort_matches in *. cbn [fold_right].
  by rewrite total_size_insert, IH, total_size_cons.
Qed.

Lemma insert_match_Forall (P : Match → Prop) x l :
  P x → Forall P l → Forall P (insert_match x l).
Proof.
  intros Hx. induction 1 as [|y l Hy Hl IH]; cbn [insert_match]; [by constructor|].
  destruct (match_leb x y); repeat constructor; done.
Qed.

Lemma sort_matches_Forall (P : Match → Prop) l :
  Forall P l → Forall P (sort_matches l).
Proof.
  unfold sort_matches. induction 1; cbn [fold_right]; [done|].
  by apply insert_match_Forall.
Qed.

Lemma collapse_total l : ∀ st,
  match_size (fst (fold_left collapse_step l st)) + total_size (snd (fold_left collapse_step l st))
  = match_size (fst st) + total_size (snd st) + total_size l.
Proof.
  induction l as [|[[i2 j2] k2] l IH]; intros [[[i1 j1] k1] na].
  { unfold total_size at 3. simpl. lia. }
  cbn [fold_left]. rewrite IH, total_size_cons. unfold collapse_step.
  destruct ((i1 + k1 =? i2) && (j1 + k1 =? j2)).
  - unfold match_size. cbn [fst snd]. lia.
  - destruct (k1 =? 0) eqn:Hk.
    + apply Nat.eqb_eq in Hk. unfold match_size. cbn [fst snd]. lia.
    + cbn [fst snd]. rewrite total_size_snoc. unfold match_size. cbn [fst snd]. lia.
Qed.

Lemma collapse_common l : ∀ st,
  block_common a b (fst st) → Forall (block_common a b) (snd st) →
  Forall (block_common a b) l →
  block_common a b (fst (fold_left collapse_step l st))
  ∧ Forall (block_common a b) (snd (fold_left collapse_step l st)).
Proof.
  induction l as [|[[i2 j2] k2] l IH]; intros [[[i1 j1] k1] na] Hm Hna Hl; [done|].
  apply Forall_cons in Hl as [Hx Hl].
  cbn [fold_left]. apply IH; [| |done]; unfold collapse_step;
    destruct ((i1 + k1 =? i2) && (j1 + k1 =? j2)) eqn:Hadj; cbn [fst snd]; try done.
  - apply andb_true_iff in Hadj as [Hi Hj].
    apply Nat.eqb_eq in Hi. apply Nat.eqb_eq in Hj. subst i2 j2.
    unfold block_common, match_size in *. cbn [fst snd] in *.
    by apply common_app.
  - destruct (k1 =? 0); [done|]. apply Forall_app. split; [done|]. by constructor.
Qed.

Lemma get_matching_blocks_total :
  total_size (get_matching_blocks a b)
  = total_size (matching_loop a b (matching_fuel a) [(0, length a, 0, length b)] []).
Proof.
  unfold get_matching_blocks.
  pose proof (collapse_total
    (sort_matches (matching_loop a b (matching_fuel a) [(0, length a, 0, length b)] []))
    ((0, 0, 0), [])) as Hsum.
  rewrite total_size_sort in Hsum.
  destruct (fold_left collapse_step _ _) as [[[i1 j1] k1] na].
  unfold match_size in Hsum. cbn [fst snd] in Hsum.
  change (total_size []) with 0 in Hsum.
  destruct (k1 =? 0) eqn:Hk.
  - apply Nat.eqb_eq in Hk. rewrite total_size_snoc. lia.
  - rewrite !total_size_snoc. lia.
Qed.

Lemma start_region_ok : Forall region_ok [(0, length a, 0, length b)].
Proof. constructor; [|done]. unfold region_ok. simpl. lia. Qed.

Lemma get_matching_blocks_bound :
  total_size (get_matching_blocks a b) ≤ min (length a) (length b).
Proof.
  rewrite get_matching_blocks_total.
  pose proof (matching_loop_bound a b (matching_fuel a) _ [] start_region_ok) as Hb.
  unfold caps, region_cap, width_a, width_b in Hb. simpl in Hb.
  change (total_size []) with 0 in Hb. lia.
Qed.

Lemma get_matching_blocks_common_all :
  Forall (block_common a b) (get_matching_blocks a b).
Proof.
  unfold get_matching_blocks.
  destruct (collapse_common
    (sort_matches (matching_loop a b (matching_fuel a) [(0, length a, 0, length b)] []))
    ((0, 0, 0), [])) as [Hm Hna].
  - apply common_nil.
  - done.
  - apply sort_matches_Forall, matching_loop_common. done.
  - destruct (fold_left collapse_step _ _) as [[[i1 j1] k1] na].
    cbn [fst snd] in Hm, Hna.
    apply Forall_app. split; [|constructor; [apply common_nil|done]].
    destruct (k1 =? 0); [done|]. apply Forall_app. split; [done|]. by constructor.
Qed.

Lemma common_all_eq : length a = length b → common a b 0 0 (length a) → a = b.
Proof.
  intros Hlen Hc. apply list_eq. intros t.
  destruct (decide (t < length a)) as [Hlt|Hge].
  - destruct (Hc t Hlt) as (x & Hx1 & Hx2). simpl in Hx1, Hx2. by rewrite Hx1, Hx2.
  - rewrite !lookup_ge_None_2; [done|lia|lia].
Qed.

Lemma calculate_ratio_bounds (m len : nat) :
  2 * m ≤ len → (0 <= _calculate_ratio m len)%Q ∧ (_calculate_ratio m len <= 1)%Q.
Proof.
  intros Hle. unfold _calculate_ratio. destruct (len =? 0) eqn:Hlen; [done|].
  apply Nat.eqb_neq in Hlen. rewrite !Qred_correct.
  unfold Qle. cbn [Qnum Qden]. rewrite positive_of_nat by done. lia.
Qed.

Lemma calculate_ratio_one (m len : nat) :
  _calculate_ratio m len = 1%Q → 2 * m = len ∨ len = 0.
Proof.
  unfold _calculate_ratio. destruct (len =? 0) eqn:Hlen.
  - apply Nat.eqb_eq in Hlen. by right.
  - apply Nat.eqb_neq in Hlen. intros Heq. left.
    pose proof (Qred_correct (Z.of_nat (2 * m) # Pos.of_nat len)) as Hq.
    rewrite Heq in Hq.
    unfold Qeq in Hq. cbn [Qnum Qden] in Hq. rewrite positive_of_nat in Hq by done. lia.
Qed.

End BlocksFinal.

(** ** The ratio *)

Section RatioFacts.
Context {A : Type} `{Countable A}.
Variables (a b : list A).

Lemma ratio_bounds : (0 <= ratio a b)%Q ∧ (ratio a b <= 1)%Q.
Proof.
  unfold ratio. fold (total_size (get_matching_blocks a b)).
  apply calculate_ratio_bounds.
  pose proof (get_matching_blocks_bound a b). lia.
Qed.

Lemma ratio_one : ratio a b = 1%Q → a = b.
Proof.
  unfold ratio. fold (total_size (get_matching_blocks a b)). intros Hone.
  pose proof (get_matching_blocks_bound a b) as Hbound.
  apply calculate_ratio_one in Hone as [Hfull|Hzero].
  - assert (Hla : total_size (get_matching_blocks a b) = length a) by lia.
    assert (Hlb : total_size (get_matching_blocks a b) = length b) by lia.
    rewrite get_matching_blocks_total in Hla, Hlb.
    pose proof (matching_loop_full a b (matching_fuel a) [(0, length a, 0, length b)] []
                  (start_region_ok a b)) as Heq.
    apply Forall_cons in Heq as [[Hlen Hc] _].
    + simpl in Hlen, Hc. rewrite !Nat.sub_0_r in *. by apply common_all_eq.
    + rewrite Hla. unfold widths_a, width_a, total_size. simpl. lia.
    + rewrite Hlb. unfold widths_b, width_b, total_size. simpl. lia.
  - assert (length a = 0) as Ha by lia. assert (length b = 0) as Hb by lia.
    apply nil_length_inv in Ha, Hb. by subst.
Qed.

Lemma common_slices i j k :
  common a b i j k →
  take k (drop i a) = take k (drop j b) ∧ length (take k (drop i a)) = k.
Proof.
  intros Hc. split.
  - apply list_eq. intros t. destruct (decide (t < k)) as [Hlt|Hge].
    + rewrite !lookup_take_lt, !lookup_drop by done.
      destruct (Hc t Hlt) as (x & -> & ->). done.
    + rewrite !lookup_take_ge by lia. done.
  - rewrite length_take, length_drop. destruct k as [|k]; [done|].
    destruct (Hc k) as (x & Hx & _); [lia|]. apply lookup_lt_Some in Hx. lia.
Qed.

End RatioFacts.

(** Every triple [(i, j, n)] returned by [get_matching_blocks] describes
    [a[i:i+n] == b[j:j+n]], with both slices of length [n]; the list ends
    with the sentinel [(len(a), len(b), 0)], and the sizes add up to at most
    the length of the shorter sequence. *)
Theorem get_matching_blocks_sound {A : Type} `{Countable A} (a b : list A) :
  Forall (λ m : Match,
            take (match_size m) (drop (fst (fst m)) a)
            = take (match_size m) (drop (snd (fst m)) b)
            ∧ length (take (match_size m) (drop (fst (fst m)) a)) = match_size m)
         (get_matching_blocks a b)
  ∧ last (get_matching_blocks a b) = Some (length a, length b, 0)
  ∧ list_sum (map match_size (get_matching_blocks a b)) ≤ min (length a) (length b).
Proof.
  split_and!.
  - eapply Forall_impl; [apply get_matching_blocks_common_all|].
    intros m Hm. by apply common_slices.
  - unfold get_matching_blocks.
    destruct (fold_left collapse_step _ _) as [[[i1 j1] k1] na]. apply last_snoc.
  - apply get_matching_blocks_bound.
Qed.

Lemma chars_inj (s t : string) : list_ascii_of_string s = list_ascii_of_string t → s = t.
Proof.
  intros Heq. rewrite <- (string_of_list_ascii_of_string s), Heq.
  apply string_of_list_ascii_of_string.
Qed.

(** [sequence_similarity] always lies between 0.0 and 1.0. *)
Theorem calculate_similarity_range (text1 text2 : string) :
  (0 <= calculate_similarity text1 text2)%Q ∧ (calculate_similarity text1 text2 <= 1)%Q.
Proof. apply ratio_bounds. Qed.

(** [sequence_similarity] is 1.0 only for strings that are equal up to
    case: the converse of reflexivity. *)
Theorem calculate_similarity_one_iff (text1 text2 : string) :
  calculate_similarity text1 text2 = 1%Q ↔ lower text1 = lower text2.
Proof.
  split.
  - intros Hone. by apply chars_inj, ratio_one.
  - intros Heq. unfold calculate_similarity. rewrite Heq. apply ratio_same.
Qed.

(** In the verdict of the NearMatch comparator, [exact_match] is true
    exactly when [similarity] is 1.0; a verdict with [near_match] false
    has [exact_match] false and a similarity of at most 0.9. *)
Theorem evaluate_ner_field_consistent (gt pred : string) :
  ∃ exact_match near_match similarity,
    dict_get (evaluate_ner_field gt pred) "exact_match" = Some (PInt exact_match)
    ∧ dict_get (evaluate_ner_field gt pred) "near_match" = Some (PInt near_match)
    ∧ dict_get (evaluate_ner_field gt pred) "similarity" = Some (PRatio similarity)
    ∧ (exact_match = 1%Z ↔ similarity = 1%Q)
    ∧ (exact_match = 1%Z → near_match = 1%Z)
    ∧ (near_match = 0%Z → exact_match = 0%Z ∧ (similarity <= 9 # 10)%Q)
    ∧ (0 <= similarity)%Q ∧ (similarity <= 1)%Q.
Proof.
  eexists _, _, _. split; [reflexivity|]. split; [reflexivity|]. split; [reflexivity|].
  assert (Hone : calculate_similarity gt pred = 1%Q ↔ lower gt = lower pred).
  { split; [intros Hsim; by apply chars_inj, ratio_one|].
    intros Heq. unfold calculate_similarity. rewrite Heq. apply ratio_same. }
  pose proof (ratio_bounds (list_ascii_of_string (lower gt)) (list_ascii_of_string (lower pred)))
    as [Hlo Hhi].
  fold (calculate_similarity gt pred) in Hlo, Hhi.
  destruct (bool_decide (lower gt = lower pred)) eqn:Hexact.
  - apply bool_decide_eq_true in Hexact.
    pose proof (proj2 Hone Hexact) as Hsim. rewrite Hsim.
    split_and!; try done.
  - apply bool_decide_eq_false in Hexact.
    destruct (negb (Qle_bool (calculate_similarity gt pred) NEAR_THRESHOLD)) eqn:Hnear.
    + split_and!; try done. split; [done|]. intros Hsim. by apply Hone in Hsim.
    + split_and!; try done.
      * split; [done|]. intros Hsim. by apply Hone in Hsim.
      * intros _. split; [done|]. apply negb_false_iff in Hnear. by apply Qle_bool_iff.
Qed.

(** ** When the ratio is zero *)

Section Positive.
Context {A : Type} `{Countable A}.
Variables (a b : list A).

Lemma scan_row_size i blo bhi prev js : ∀ new best,
  match_size best ≤ match_size (snd (scan_row i blo bhi prev js new best)).
Proof.
  induction js as [|j js IH]; intros new best; cbn [scan_row]; [done|].
  destruct (j <? blo); [apply IH|]. destruct (bhi <=? j); [done|].
  etrans; [|apply IH].
  destruct (match_size best <? j2lenget prev j + 1) eqn:Hlt; [|done].
  apply Nat.ltb_lt in Hlt. unfold match_size in *. simpl. lia.
Qed.

Lemma scan_row_hit i bhi prev j js new best :
  j < bhi → 1 ≤ match_size (snd (scan_row i 0 bhi prev (j :: js) new best)).
Proof.
  intros Hj. cbn [scan_row].
  replace (bhi <=? j) with false by (symmetry; apply Nat.leb_gt; lia).
  change (j <? 0) with false. cbn match.
  etrans; [|apply scan_row_size].
  destruct (match_size best <? j2lenget prev j + 1) eqn:Hlt.
  - unfold match_size. simpl. lia.
  - apply Nat.ltb_ge in Hlt. lia.
Qed.

Lemma scan_step_size blo bhi st i :
  match_size (snd st) ≤ match_size (snd (scan_step a b blo bhi st i)).
Proof. unfold scan_step. destruct (a !! i); [apply scan_row_size|done]. Qed.

Lemma scan_steps_size blo bhi rows : ∀ st,
  match_size (snd st) ≤ match_size (snd (fold_left (scan_step a b blo bhi) rows st)).
Proof.
  induction rows as [|i rows IH]; intros st; [done|]. cbn [fold_left].
  etrans; [apply (scan_step_size blo bhi st i)|apply IH].
Qed.

(** Without the purge, an element of [a] that occurs in [b] gives the scan
    a block of at least one element. *)
Lemma scan_rows_hit i x :
  length b < 200 → a !! i = Some x → x ∈ b →
  1 ≤ match_size (snd (scan_rows a b 0 (length a) 0 (length b))).
Proof.
  intros Hshort Hi Hx. unfold scan_rows. rewrite Nat.sub_0_r.
  assert (Hin : i ∈ seq 0 (length a)).
  { apply elem_of_seq. apply lookup_lt_Some in Hi. lia. }
  apply list_elem_of_split in Hin as (l1 & l2 & ->).
  rewrite fold_left_app. cbn [fold_left].
  etrans; [|apply scan_steps_size].
  unfold scan_step at 1. rewrite Hi.
  apply list_elem_of_lookup_1 in Hx as [j Hj].
  assert (Hb2j : b2j b = b2j_full b).
  { unfold b2j. by replace (200 <=? length b) with false by (symmetry; apply Nat.leb_gt; lia). }
  destruct (b2j_full_indexes b x) as [_ Hmem]. rewrite Hb2j.
  destruct (default [] (b2j_full b !! x)) as [|j0 js] eqn:Hjs.
  { apply Hmem in Hj. by apply elem_of_nil in Hj. }
  apply scan_row_hit. apply (lookup_lt_Some b j0 x), Hmem. left.
Qed.

Lemma extend_left_size want alo blo besti : ∀ bestj bestsize,
  bestsize ≤ match_size (extend_left a b want alo blo besti bestj bestsize).
Proof.
  induction besti as [|i IH]; intros bestj bestsize; cbn [extend_left]; [done|].
  destruct (_ && _); [|done]. etrans; [|apply IH]. lia.
Qed.

Lemma extend_right_size want ahi bhi besti bestj gap : ∀ bestsize,
  bestsize ≤ extend_right a b want ahi bhi besti bestj gap bestsize.
Proof.
  induction gap as [|gap IH]; intros bestsize; cbn [extend_right]; [done|].
  destruct (_ && _); [|done]. etrans; [|apply IH]. lia.
Qed.

Lemma extend_size want alo ahi blo bhi m :
  match_size m ≤ match_size (extend a b want alo ahi blo bhi m).
Proof.
  destruct m as [[besti bestj] bestsize]. unfold extend.
  pose proof (extend_left_size want alo blo besti bestj bestsize) as Hleft.
  destruct (extend_left a b want alo blo besti bestj bestsize) as [[i j] k].
  unfold match_size in *. cbn [fst snd] in *.
  etrans; [exact Hleft|apply extend_right_size].
Qed.

Lemma matching_loop_grows fuel : ∀ queue blocks,
  total_size blocks ≤ total_size (matching_loop a b fuel queue blocks).
Proof.
  induction fuel as [|fuel IH]; intros queue blocks; [done|].
  destruct queue as [|[[[alo ahi] blo] bhi] queue]; [done|].
  cbn [matching_loop].
  destruct (find_longest_match a b alo ahi blo bhi) as [[i j] k].
  destruct (k =? 0); [apply IH|].
  etrans; [|apply IH]. rewrite total_size_snoc. lia.
Qed.

Lemma get_matching_blocks_hit i x :
  length b < 200 → a !! i = Some x → x ∈ b →
  1 ≤ total_size (get_matching_blocks a b).
Proof.
  intros Hshort Hi Hx. rewrite get_matching_blocks_total.
  unfold matching_fuel. replace (2 * length a + 1) with (S (2 * length a)) by lia.
  cbn [matching_loop].
  assert (Hk : 1 ≤ match_size (find_longest_match a b 0 (length a) 0 (length b))).
  { unfold find_longest_match.
    etrans; [|apply extend_size]. etrans; [|apply extend_size].
    by apply (scan_rows_hit i x). }
  destruct (find_longest_match a b 0 (length a) 0 (length b)) as [[i' j'] k].
  unfold match_size in Hk. cbn [snd] in Hk.
  replace (k =? 0) with false by (symmetry; apply Nat.eqb_neq; lia).
  etrans; [|apply matching_loop_grows].
  change ([] ++ [(i', j', k)]) with ([(i', j', k)]).
  unfold total_size, match_size. simpl. lia.
Qed.

Lemma calculate_ratio_positive (m len : nat) :
  1 ≤ m → len ≠ 0 → (0 < _calculate_ratio m len)%Q.
Proof.
  intros Hm Hlen. unfold _calculate_ratio.
  replace (len =? 0) with false by (symmetry; by apply Nat.eqb_neq).
  rewrite Qred_correct. unfold Qlt. simpl. lia.
Qed.

Lemma ratio_positive i x :
  length b < 200 → a !! i = Some x → x ∈ b → (0 < ratio a b)%Q.
Proof.
  intros Hshort Hi Hx. unfold ratio. fold (total_size (get_matching_blocks a b)).
  apply calculate_ratio_positive; [by apply (get_matching_blocks_hit i x)|].
  apply lookup_lt_Some in Hi. lia.
Qed.

End Positive.

Section ZeroRatio.
Context {A : Type} `{Countable A}.
Variables (a b : list A).

Lemma ratio_zero_iff :
  length b < 200 →
  ratio a b = 0%Q ↔ disjoint_seqs a b ∧ ¬ (a = [] ∧ b = []).
Proof.
  intros Hshort. split.
  - intros Hzero. split.
    + intros x Hx1 Hx2. apply list_elem_of_lookup_1 in Hx1 as [i Hi].
      pose proof (ratio_positive _ _ i x Hshort Hi Hx2) as Hpos.
      rewrite Hzero in Hpos. by apply Qlt_irrefl in Hpos.
    + intros [-> ->]. by vm_compute in Hzero.
  - intros [Hdis Hne]. rewrite ratio_disjoint, calculate_ratio_none by done.
    destruct a, b; try done. exfalso. by apply Hne.
Qed.

End ZeroRatio.

Lemma length_chars s : length (list_ascii_of_string s) = String.length s.
Proof. induction s as [|c s IH]; simpl; congruence. Qed.

Lemma chars_nil s : list_ascii_of_string s = [] ↔ s = EmptyString.
Proof. by destruct s. Qed.

(** When the lowered second string, the sequence handed to
    [SequenceMatcher] as [b], is shorter than 200 characters (no purge of
    popular characters), [sequence_similarity] is 0.0 exactly when the
    lowered strings share no character and are not both empty. The bound
    and the emptiness are those of the lowered strings, not of the texts;
    the proof is that of [ratio_zero_iff], for sequences over any
    alphabet. *)
Theorem calculate_similarity_zero_iff (text1 text2 : string) :
  String.length (lower text2) < 200 →
  calculate_similarity text1 text2 = 0%Q
  ↔ disjoint_seqs (list_ascii_of_string (lower text1)) (list_ascii_of_string (lower text2))
    ∧ ¬ (lower text1 = EmptyString ∧ lower text2 = EmptyString).
Proof.
  intros Hshort. rewrite <- length_chars in Hshort.
  unfold calculate_similarity. rewrite (ratio_zero_iff _ _ Hshort).
  by rewrite !chars_nil.
Qed.

Lemma calculate_similarity_zero_iff_witness :
  String.length (lower "AB") < 200
  ∧ (calculate_similarity "xy" "AB" = 0%Q
     ↔ disjoint_seqs (list_ascii_of_string (lower "xy")) (list_ascii_of_string (lower "AB"))
       ∧ ¬ (lower "xy" = EmptyString ∧ lower "AB" = EmptyString)).
Proof.
  split; [simpl; lia|].
  apply (calculate_similarity_zero_iff "xy" "AB"). simpl. lia.
Defined.

(** ** Texts without a common word *)

Lemma term_count_elem t tokens : term_count t tokens ≠ 0 → t ∈ tokens.
Proof.
  unfold term_count. intros Hcount.
  destruct (filter (λ u, u = t) tokens) as [|u l] eqn:Hfilter; [done|].
  assert (Hu : u ∈ filter (λ u, u = t) tokens) by (rewrite Hfilter; left).
  apply list_elem_of_filter in Hu as [-> Hu]. done.
Qed.

Lemma count_row_columns vocab tokens : ∀ col c v,
  (c, v) ∈ count_row col vocab tokens →
  ∃ t, col ≤ c ∧ vocab !! (c - col) = Some t ∧ t ∈ tokens.
Proof.
  induction vocab as [|t vocab IH]; intros col c v Hin; [by apply elem_of_nil in Hin|].
  cbn [count_row] in Hin.
  assert (Hrest : (c, v) ∈ count_row (S col) vocab tokens →
                  ∃ t', col ≤ c ∧ (t :: vocab) !! (c - col) = Some t' ∧ t' ∈ tokens).
  { intros Hin'. destruct (IH _ _ _ Hin') as (t' & Hle & Hlookup & Ht').
    exists t'. split; [lia|]. split; [|done].
    replace (c - col) with (S (c - S col)) by lia. done. }
  destruct (term_count t tokens =? 0) eqn:Hcount; [by apply Hrest|].
  apply Nat.eqb_neq in Hcount.
  apply elem_of_cons in Hin as [[= -> ->]|Hin]; [|by apply Hrest].
  exists t. split; [done|]. rewrite Nat.sub_diag. split; [done|].
  by apply term_count_elem.
Qed.

Lemma normalize_row_columns r c v :
  (c, v) ∈ normalize_row r → ∃ v', (c, v') ∈ r.
Proof.
  unfold normalize_row. destruct (sum_squares r =? 0)%float; [by exists v|].
  intros Hin. apply list_elem_of_fmap in Hin as ([c' v'] & [= -> ->] & Hin).
  by exists v'.
Qed.

Lemma row_lookup_elem r c w : row_lookup r c = Some w → (c, w) ∈ r.
Proof.
  induction r as [|[k v] r IH]; simpl; [done|].
  destruct (k =? c) eqn:Hk.
  - apply Nat.eqb_eq in Hk as ->. intros [= ->]. left.
  - intros Hw. right. by apply IH.
Qed.

Lemma sparse_dot_disjoint r0 r1 :
  (∀ c v, (c, v) ∈ r0 → row_lookup r1 c = None) → sparse_dot r0 r1 = 0%float.
Proof.
  unfold sparse_dot. generalize 0%float as acc.
  induction r0 as [|[c v] r0 IH]; intros acc Hdis; [done|].
  cbn [fold_left fst snd]. rewrite (Hdis c v) by left.
  apply IH. intros c' v' Hin. apply (Hdis c' v'). by right.
Qed.

(** Two texts without a common word have a cosine similarity of exactly
    0.0, so the Semantic verdict does not meet the threshold: no column of
    the count matrix is stored in both rows. *)
Theorem cosine_disjoint_zero (gt pred : string) :
  (∀ word, word ∈ analyze gt → word ∈ analyze pred → False) →
  calculate_cosine_similarity gt pred = Ok 0%float
  ∧ ∃ verdict,
      evaluate_semantic_field gt pred = Ok verdict
      ∧ dict_get verdict "meets_threshold" = Some (PInt 0).
Proof.
  intros Hdis.
  assert (Hzero : calculate_cosine_similarity gt pred = Ok 0%float).
  { unfold calculate_cosine_similarity, fit_transform. rewrite !analyze_lower.
    destruct (vocabulary [analyze gt; analyze pred]) as [|t vocab] eqn:Hvocab; [done|].
    unfold cosine_similarity. cbn -[count_row normalize_row sparse_dot]. f_equal.
    apply sparse_dot_disjoint. intros c v Hin.
    destruct (row_lookup _ c) as [w|] eqn:Hw; [|done]. exfalso.
    apply row_lookup_elem, normalize_row_columns in Hw as [w' Hw].
    apply normalize_row_columns in Hin as [v' Hin].
    apply count_row_columns in Hin as (t1 & _ & Ht1 & Hin1).
    apply count_row_columns in Hw as (t2 & _ & Ht2 & Hin2).
    rewrite Ht1 in Ht2. injection Ht2 as <-. by apply (Hdis t1). }
  split; [done|]. unfold evaluate_semantic_field. rewrite Hzero.
  eexists. split; [reflexivity|]. done.
Qed.

Lemma cosine_disjoint_zero_witness :
  (∀ word, word ∈ analyze "Token bridge" → word ∈ analyze "DEX router" → False)
  ∧ calculate_cosine_similarity "Token bridge" "DEX router" = Ok 0%float
  ∧ ∃ verdict,
      evaluate_semantic_field "Token bridge" "DEX router" = Ok verdict
      ∧ dict_get verdict "meets_threshold" = Some (PInt 0).
Proof.
  assert (Hdis : ∀ word, word ∈ analyze "Token bridge" → word ∈ analyze "DEX router" → False).
  { intros word H1 H2. vm_compute in H1, H2.
    repeat (apply elem_of_cons in H1 as [->|H1]);
      repeat (apply elem_of_cons in H2 as [?|H2]); try done;
      by apply elem_of_nil in H1 || by apply elem_of_nil in H2. }
  split; [exact Hdis|].
  exact (cosine_disjoint_zero "Token bridge" "DEX router" Hdis).
Defined.

(** ** The summary *)

Lemma summary_block_entry d m :
  ∃ block, summary_block (aggregate_entry d m) = Ok block
           ∧ map fst block = summary_labels d.
Proof.
  unfold aggregate_entry, summary_labels.
  destruct (String.eqb (evaluation d) "exact" || String.eqb (evaluation d) "ner");
    eexists; (split; [by vm_compute|done]).
Qed.

Lemma print_summary_loop (agg : dict (dict pyval)) (labels : string → list string) : ∀ printed,
  (∀ field metrics, (field, metrics) ∈ agg →
     ∃ block, summary_block metrics = Ok block ∧ map fst block = labels field) →
  ∃ blocks,
    foldM (λ printed fm,
             block ← summary_block (snd fm);
             mret (printed ++ [(fst fm, block)])) agg printed
    = Ok (printed ++ blocks)
    ∧ map fst blocks = dict_keys agg
    ∧ ∀ field block, (field, block) ∈ blocks → map fst block = labels field.
Proof.
  induction agg as [|[field metrics] agg IH]; intros printed Hall.
  - exists []. split; [by rewrite app_nil_r|]. split; [done|].
    intros ? ? Hin. by apply elem_of_nil in Hin.
  - destruct (Hall field metrics) as (block & Hblock & Hlabels); [left|].
    destruct (IH (printed ++ [(field, block)])) as (blocks & Hrun & Hkeys & Hblocks).
    { intros f m Hin. apply Hall. by right. }
    exists ((field, block) :: blocks). cbn [foldM fst snd]. rewrite Hblock.
    cbn [mbind py_bind mret py_ret]. rewrite Hrun, <- app_assoc.
    split; [done|]. split; [simpl; by rewrite Hkeys|].
    intros f b Hin. apply elem_of_cons in Hin as [[= -> ->]|Hin]; [done|by eapply Hblocks].
Qed.

(** On a dataset with at least one record pair the script prints its
    summary without a [KeyError]: one block per field of the schema, in
    order, with F1 score, precision and recall for the Exact and NearMatch
    fields and the semantic similarity rate for the Semantic field. On an
    empty dataset nothing is printed: the evaluation has already raised
    [ZeroDivisionError]. *)
Theorem script_summary (gt preds : list entry) :
  (min (length gt) (length preds) = 0 ∧ script gt preds = Raise ZeroDivisionError)
  ∨ (0 < min (length gt) (length preds)
     ∧ ∃ blocks,
         script gt preds = Ok blocks
         ∧ map fst blocks = dict_keys FIELD_DEFINITIONS
         ∧ ∀ field d block,
             dict_get FIELD_DEFINITIONS field = Some d → (field, block) ∈ blocks →
             map fst block = summary_labels d).
Proof.
  unfold script. destruct (min (length gt) (length preds)) as [|n] eqn:Hmin.
  - left. split; [done|].
    assert (Hnil : combine gt preds = []).
    { apply length_zero_iff_nil. by rewrite length_combine. }
    unfold evaluate_dataset, evaluation_loop. rewrite Hnil. by vm_compute.
  - right. split; [lia|].
    destruct (evaluate_dataset_closed gt preds) as (fm & agg & Hloop & Hcount & _ & Hrun & Hentry);
      [lia|].
    rewrite Hrun. cbn [mbind py_bind aggregate_results].
    assert (Hkeys : dict_keys agg = dict_keys FIELD_DEFINITIONS).
    { unfold evaluate_dataset in Hrun. rewrite Hloop in Hrun. cbn [mbind py_bind] in Hrun.
      destruct (aggregate_pass fm) as [agg0|] eqn:Hagg; [|done].
      injection Hrun as <-.
      apply (aggregate_loop_keys fm FIELD_DEFINITIONS [] agg0 schema_keys_NoDup); [|exact Hagg].
      intros f _ Hin. by apply elem_of_nil in Hin. }
    assert (Hnd : NoDup (dict_keys agg)) by (rewrite Hkeys; apply schema_keys_NoDup).
    set (labels := λ field, match dict_get FIELD_DEFINITIONS field with
                            | Some d => summary_labels d
                            | None => []
                            end).
    destruct (print_summary_loop agg labels []) as (blocks & Hprint & Hfields & Hblocks).
    { intros field metrics Hin.
      assert (Hfield : field ∈ dict_keys FIELD_DEFINITIONS).
      { rewrite <- Hkeys. by eapply elem_dict_keys. }
      apply list_elem_of_fmap in Hfield as ([f d] & -> & Hfd). cbn [fst] in *.
      apply (elem_dict_get _ _ _ schema_keys_NoDup) in Hfd.
      rewrite Hmin in Hcount. destruct (Hcount f d Hfd) as (m & Hm & _).
      apply (elem_dict_get _ _ _ Hnd) in Hin.
      rewrite (Hentry f d m Hfd Hm) in Hin. injection Hin as <-.
      unfold labels. rewrite Hfd. apply summary_block_entry. }
    exists blocks. split; [exact Hprint|]. split; [by rewrite Hfields|].
    intros field d block Hd Hin. rewrite (Hblocks field block Hin).
    unfold labels. by rewrite Hd.
Qed.

(** * The prediction script *)

(** ** [str.strip] *)

Lemma lstrip_blank s : lstrip s = EmptyString ↔ blank s = true.
Proof.
  unfold blank. induction s as [|c s IH]; simpl; [done|].
  destruct (is_space c); simpl; [done|]. split; intros; done.
Qed.

Lemma lstrip_head s c t : lstrip s = String c t → is_space c = false.
Proof.
  induction s as [|c' s IH]; simpl; [done|].
  destruct (is_space c') eqn:Hc; [done|]. by intros [= <- <-].
Qed.

Lemma rstrip_blank s : rstrip s = EmptyString ↔ blank s = true.
Proof.
  unfold blank. induction s as [|c s IH]; simpl; [done|].
  destruct (rstrip s) as [|c' t].
  - destruct (is_space c); simpl; [|done]. split; [intros _; by apply IH|done].
  - split; [done|]. intros Hall. apply andb_true_iff in Hall as [_ Hall].
    by apply IH in Hall.
Qed.

Lemma strip_blank s : strip s = EmptyString ↔ blank s = true.
Proof.
  unfold strip. rewrite rstrip_blank. split.
  - intros Hb. apply lstrip_blank.
    destruct (lstrip s) as [|c t] eqn:Hl; [done|].
    apply lstrip_head in Hl. unfold blank in Hb. simpl in Hb. by rewrite Hl in Hb.
  - intros Hb. apply lstrip_blank in Hb. by rewrite Hb.
Qed.

(** ** The address pattern *)

Lemma strip_prefix_spec p s rest :
  strip_prefix p s = Some rest ↔ s = (p ++ rest)%string.
Proof.
  revert s. induction p as [|c p IH]; intros s; simpl.
  - split; [by intros [= ->]|by intros ->].
  - destruct s as [|c' s]; [done|].
    destruct (Ascii.eqb c c') eqn:Hc.
    + apply Ascii.eqb_eq in Hc as ->. rewrite IH. split; [by intros ->|by intros [= ->]].
    + apply Ascii.eqb_neq in Hc. split; [done|]. intros [= <- _]. done.
Qed.

Lemma span_digits_spec s digits rest :
  span_digits s = (digits, rest) →
  s = (digits ++ rest)%string ∧ all_digits digits = true
  ∧ match rest with
    | EmptyString => True
    | String c _ => is_digit c = false
    end.
Proof.
  unfold all_digits. revert digits rest. induction s as [|c s IH]; intros digits rest; simpl.
  - by intros [= <- <-].
  - destruct (is_digit c) eqn:Hc.
    + destruct (span_digits s) as [ds r]. intros [= <- <-].
      destruct (IH ds r eq_refl) as (-> & Hds & Hr). simpl. by rewrite Hc.
    + by intros [= <- <-].
Qed.

Lemma span_digits_app digits rest :
  all_digits digits = true →
  match rest with
  | EmptyString => True
  | String c _ => is_digit c = false
  end →
  span_digits (digits ++ rest) = (digits, rest).
Proof.
  unfold all_digits. intros Hds Hrest. induction digits as [|c ds IH]; simpl in *.
  - destruct rest as [|c r]; [done|]. simpl. by rewrite Hrest.
  - apply andb_true_iff in Hds as [Hc Hds]. by rewrite Hc, IH.
Qed.

(** The pattern matches the addresses that start with [eip155:], a
    non-empty run of digits and a colon; the group is that run. *)
Lemma match_chain_id_spec address group :
  match_chain_id address = Some group
  ↔ ∃ rest, address = ("eip155:" ++ group ++ ":" ++ rest)%string
            ∧ group ≠ EmptyString ∧ all_digits group = true.
Proof.
  unfold match_chain_id. split.
  - destruct (strip_prefix "eip155:" address) as [r|] eqn:Hp; [|done].
    apply strip_prefix_spec in Hp as ->.
    destruct (span_digits r) as [[|c ds] [|sep rest]] eqn:Hs; try done.
    destruct (Ascii.eqb sep ":") eqn:Hsep; [|done].
    apply Ascii.eqb_eq in Hsep as ->. intros [= <-].
    apply span_digits_spec in Hs as (-> & Hds & _).
    exists rest. done.
  - intros (rest & -> & Hne & Hds).
    assert (Hp : strip_prefix "eip155:" ("eip155:" ++ group ++ ":" ++ rest)
                 = Some (group ++ ":" ++ rest)%string) by (by apply strip_prefix_spec).
    rewrite Hp, span_digits_app by done.
    destruct group as [|c ds]; done.
Qed.

Lemma length_append (s t : string) :
  String.length (s ++ t) = String.length s + String.length t.
Proof. induction s as [|c s IH]; simpl; [done|]. by rewrite IH. Qed.

Lemma match_chain_id_length address group :
  match_chain_id address = Some group → String.length group < String.length address.
Proof.
  intros Hm. apply match_chain_id_spec in Hm as (rest & -> & _).
  rewrite !length_append. simpl. lia.
Qed.

Lemma py_int_ok digits :
  String.length digits ≤ MAX_STR_DIGITS → py_int digits = Ok (int_of_digits digits).
Proof.
  intros Hlen. unfold py_int.
  by replace (MAX_STR_DIGITS <? String.length digits) with false
    by (symmetry; apply Nat.ltb_ge; lia).
Qed.

Lemma py_int_inv digits n :
  py_int digits = Ok n → String.length digits ≤ MAX_STR_DIGITS ∧ n = int_of_digits digits.
Proof.
  unfold py_int. destruct (MAX_STR_DIGITS <? String.length digits) eqn:Hlen; [done|].
  apply Nat.ltb_ge in Hlen. by intros [= <-].
Qed.

Lemma chain_map_named n name : int_get chain_map n = Some name → name ≠ "Unknown".
Proof.
  unfold chain_map. cbn [int_get].
  repeat (destruct (_ =? n)%N; [by intros [= <-]|]). done.
Qed.

Lemma chain_map_explorer n name :
  int_get chain_map n = Some name →
  ∃ c domain, int_get explorer_map n = Some (String c domain).
Proof.
  unfold chain_map. cbn [int_get].
  repeat match goal with
         | |- context [(?k =? n)%N] =>
             destruct (N.eqb_spec k n) as [<-|_]; [intros _; by eexists _, _|]
         end.
  done.
Qed.

(** [get_chain_name] returns a chain name other than ["Unknown"] only for
    an address [eip155:<digits>:<anything>] whose digits, read as a decimal
    number (leading zeros allowed), are a key of [chain_map], and the name
    is the one stored under that key; conversely every such address with
    at most 4300 digits gets that name. *)
Theorem get_chain_name_named (address name : string) :
  (get_chain_name address = Ok name → name ≠ "Unknown" →
   ∃ digits rest,
     address = ("eip155:" ++ digits ++ ":" ++ rest)%string
     ∧ digits ≠ EmptyString ∧ all_digits digits = true
     ∧ int_get chain_map (int_of_digits digits) = Some name)
  ∧ (∀ digits rest,
       address = ("eip155:" ++ digits ++ ":" ++ rest)%string →
       digits ≠ EmptyString → all_digits digits = true →
       String.length digits ≤ MAX_STR_DIGITS →
       int_get chain_map (int_of_digits digits) = Some name →
       get_chain_name address = Ok name ∧ name ≠ "Unknown").
Proof.
  unfold get_chain_name. split.
  - intros Hrun Hname.
    destruct (match_chain_id address) as [group|] eqn:Hm; [|by injection Hrun as <-].
    apply match_chain_id_spec in Hm as (rest & -> & Hne & Hds).
    destruct (py_int group) as [n|] eqn:Hint; [|done].
    apply py_int_inv in Hint as [Hlen ->]. cbn [mbind py_bind mret py_ret] in Hrun.
    exists group, rest. split_and!; try done.
    destruct (int_get chain_map (int_of_digits group)) as [name'|];
      cbn [default] in Hrun; injection Hrun as <-; [done|by destruct Hname].
  - intros digits rest -> Hne Hds Hlen Hget.
    assert (Hm : match_chain_id ("eip155:" ++ digits ++ ":" ++ rest) = Some digits)
      by (apply match_chain_id_spec; eauto).
    rewrite Hm, py_int_ok by done. cbn [mbind py_bind mret py_ret]. rewrite Hget.
    split; [done|]. by eapply chain_map_named.
Qed.

(** On an address of at most 4300 characters neither function raises;
    [get_explorer_domain_to_block] returns at most one domain, and it
    returns one for every address that [get_chain_name] can name. *)
Theorem chains_consistent (address : string) :
  String.length address ≤ MAX_STR_DIGITS →
  ∃ name domains,
    get_chain_name address = Ok name
    ∧ get_explorer_domain_to_block address = Ok domains
    ∧ length domains ≤ 1
    ∧ (name ≠ "Unknown" → ∃ domain, domains = [domain] ∧ domain ≠ EmptyString).
Proof.
  intros Hlen. unfold get_chain_name, get_explorer_domain_to_block.
  destruct (match_chain_id address) as [group|] eqn:Hm.
  - apply match_chain_id_length in Hm.
    rewrite py_int_ok by lia. cbn [mbind py_bind mret py_ret].
    eexists _, _. split; [done|]. split; [done|]. split.
    + destruct (int_get explorer_map _) as [[|c d]|]; simpl; lia.
    + intros Hname.
      destruct (int_get chain_map (int_of_digits group)) as [name|] eqn:Hget; [|done].
      destruct (chain_map_explorer _ _ Hget) as (c & d & ->). eauto.
  - exists "Unknown", []. split_and!; try done. simpl. lia.
Qed.

Lemma chains_consistent_witness :
  String.length "eip155:137:0x7ceb23fd6bc0add59e62ac25578270cff1b9f619" ≤ MAX_STR_DIGITS
  ∧ ∃ name domains,
      get_chain_name "eip155:137:0x7ceb23fd6bc0add59e62ac25578270cff1b9f619" = Ok name
      ∧ get_explorer_domain_to_block "eip155:137:0x7ceb23fd6bc0add59e62ac25578270cff1b9f619"
        = Ok domains
      ∧ length domains ≤ 1
      ∧ (name ≠ "Unknown" → ∃ domain, domains = [domain] ∧ domain ≠ EmptyString).
Proof.
  split; [vm_compute; lia|].
  apply (chains_consistent "eip155:137:0x7ceb23fd6bc0add59e62ac25578270cff1b9f619").
  vm_compute. lia.
Defined.

(** ** Decimal chain ids *)

Lemma int_of_digits_cons c digits :
  int_of_digits (String c digits)
  = fold_left digit_step (list_ascii_of_string digits) (digit_step 0 c).
Proof. done. Qed.

Lemma fold_digits_acc d : ∀ acc,
  fold_left digit_step (list_ascii_of_string (DecimalString.NilEmpty.string_of_uint d))
            (N.pos acc)
  = N.pos (Pos.of_uint_acc d acc).
Proof.
  induction d as [|d IH|d IH|d IH|d IH|d IH|d IH|d IH|d IH|d IH|d IH]; intros acc;
    [done|..];
    cbn [DecimalString.NilEmpty.string_of_uint list_ascii_of_string fold_left Pos.of_uint_acc];
    rewrite <- IH; f_equal; unfold digit_step;
    match goal with |- context [N_of_ascii ?c] =>
      let v := eval vm_compute in (N_of_ascii c) in change (N_of_ascii c) with v
    end; lia.
Qed.

Lemma fold_digits d :
  fold_left digit_step (list_ascii_of_string (DecimalString.NilEmpty.string_of_uint d)) 0%N
  = N.of_uint d.
Proof.
  induction d as [|d IH|d IH|d IH|d IH|d IH|d IH|d IH|d IH|d IH|d IH];
    [done|exact IH|..];
    cbn [DecimalString.NilEmpty.string_of_uint list_ascii_of_string fold_left
         N.of_uint Pos.of_uint];
    rewrite <- fold_digits_acc; f_equal.
Qed.

Lemma int_of_decimal n : int_of_digits (decimal n) = n.
Proof.
  unfold int_of_digits, decimal. rewrite fold_digits. apply DecimalN.Unsigned.of_to.
Qed.

Lemma all_digits_string_of_uint d :
  all_digits (DecimalString.NilEmpty.string_of_uint d) = true.
Proof. unfold all_digits. induction d; simpl; done. Qed.

Lemma decimal_nonempty n : decimal n ≠ EmptyString.
Proof.
  unfold decimal. destruct n as [|p]; [done|]. simpl.
  pose proof (DecimalPos.Unsigned.to_uint_nonnil p) as Hnil.
  by destruct (Pos.to_uint p).
Qed.

Lemma explorer_map_domain n :
  match int_get explorer_map n with
  | None => []
  | Some EmptyString => []
  | Some domain => [domain]
  end
  = match int_get explorer_map n with
    | Some domain => [domain]
    | None => []
    end.
Proof.
  unfold explorer_map. cbn [int_get].
  repeat match goal with
         | |- context [(?k =? n)%N] => destruct (N.eqb_spec k n) as [_|_]; [done|]
         end.
  done.
Qed.

(** Formatting and parsing a chain id are inverse: an address built from
    the decimal notation of a chain id [n] and any account part gets the
    name and the explorer domain stored under [n], whatever follows the
    second colon. *)
Theorem chain_id_round_trip (n : N) (account : string) :
  String.length (decimal n) ≤ MAX_STR_DIGITS →
  get_chain_name ("eip155:" ++ decimal n ++ ":" ++ account)
  = Ok (default "Unknown" (int_get chain_map n))
  ∧ get_explorer_domain_to_block ("eip155:" ++ decimal n ++ ":" ++ account)
    = Ok (match int_get explorer_map n with
          | Some domain => [domain]
          | None => []
          end).
Proof.
  intros Hlen. unfold get_chain_name, get_explorer_domain_to_block.
  assert (Hm : match_chain_id ("eip155:" ++ decimal n ++ ":" ++ account) = Some (decimal n)).
  { apply match_chain_id_spec. exists account.
    split; [done|]. split; [apply decimal_nonempty|apply all_digits_string_of_uint]. }
  rewrite Hm, py_int_ok, int_of_decimal by done. cbn [mbind py_bind mret py_ret].
  by rewrite explorer_map_domain.
Qed.

Lemma chain_id_round_trip_witness :
  String.length (decimal 42161) ≤ MAX_STR_DIGITS
  ∧ get_chain_name ("eip155:" ++ decimal 42161 ++ ":" ++ "0xAbC")
    = Ok (default "Unknown" (int_get chain_map 42161%N))
  ∧ get_explorer_domain_to_block ("eip155:" ++ decimal 42161 ++ ":" ++ "0xAbC")
    = Ok (match int_get explorer_map 42161%N with
          | Some domain => [domain]
          | None => []
          end).
Proof.
  split; [vm_compute; lia|].
  apply (chain_id_round_trip 42161%N "0xAbC"). vm_compute. lia.
Defined.

(** ** Validation *)

Lemma blank_nonempty s : blank s = false → s ≠ EmptyString.
Proof. by destruct s. Qed.

Lemma field_invalid_spec members field :
  field_invalid members field = false
  ↔ ∃ text, dict_get members field = Some (JStr text) ∧ blank text = false.
Proof.
  unfold field_invalid. destruct (dict_get members field) as [v|]; [|split; [done|by intros (? & ? & ?)]].
  split.
  - intros Hv. apply orb_false_iff in Hv as [_ Hv].
    destruct v as [| | | |s| |]; try done.
    exists s. split; [done|].
    destruct (blank s) eqn:Hb; [|done].
    apply strip_blank in Hb. by rewrite Hb in Hv.
  - intros (text & [= ->] & Hb). apply orb_false_iff. split.
    + destruct text; done.
    + destruct (strip text) eqn:Hs; [|done].
      apply strip_blank in Hs. congruence.
Qed.

Lemma validate_prediction_fields (data : json) :
  validate_prediction data = true →
  ∃ members,
    data = JObj members
    ∧ ∀ field, field ∈ required_fields →
        ∃ text, dict_get members field = Some (JStr text) ∧ blank text = false.
Proof.
  unfold validate_prediction, validate_fields.
  destruct data as [| | | | | |members]; try done.
  intros Hall. exists members.
  change (forallb (λ field, negb (field_invalid members field)) required_fields = true)
    in Hall. split; [done|]. intros field Hfield.
  apply field_invalid_spec. apply negb_true_iff.
  rewrite forallb_forall in Hall. apply Hall. by apply list_elem_of_In.
Qed.

(** [validate_prediction] accepts exactly the dicts in which each of the
    four required fields holds a string with a character other than
    whitespace; every other JSON value is rejected, never raised on. *)
Theorem validate_prediction_spec (data : json) :
  validate_prediction data = true
  ↔ ∃ members,
      data = JObj members
      ∧ ∀ field, field ∈ required_fields →
          ∃ text, dict_get members field = Some (JStr text) ∧ blank text = false.
Proof.
  split; [apply validate_prediction_fields|].
  unfold validate_prediction, validate_fields.
  intros (members & -> & Hall).
  change (forallb (λ field, negb (field_invalid members field)) required_fields = true).
  apply forallb_forall.
    intros field Hfield. apply negb_true_iff, field_invalid_spec, Hall.
    by apply list_elem_of_In.
Qed.

(** ** Merging the API answer *)

Lemma dict_keys_set {V} (d : dict V) key v :
  ∃ extra, dict_keys (dict_set d key v) = dict_keys d ++ extra.
Proof.
  induction d as [|[k w] d [extra IH]]; simpl.
  - by exists [key].
  - destruct (String.eqb k key); simpl.
    + exists []. by rewrite app_nil_r.
    + exists extra. by rewrite IH.
Qed.

Lemma dict_keys_update {V} (other : dict V) : ∀ d,
  ∃ extra, dict_keys (dict_update d other) = dict_keys d ++ extra.
Proof.
  unfold dict_update. induction other as [|[k v] other IH]; intros d; simpl.
  - exists []. by rewrite app_nil_r.
  - destruct (IH (dict_set d k v)) as [extra1 ->].
    destruct (dict_keys_set d k v) as [extra2 ->].
    exists (extra2 ++ extra1). by rewrite app_assoc.
Qed.

Lemma dict_get_update {V} (other : dict V) : ∀ d key,
  NoDup (dict_keys other) →
  dict_get (dict_update d other) key
  = match dict_get other key with
    | Some v => Some v
    | None => dict_get d key
    end.
Proof.
  unfold dict_update. induction other as [|[k v] other IH]; intros d key Hnd; [done|].
  simpl in Hnd. apply NoDup_cons in Hnd as [Hk Hnd]. simpl.
  rewrite IH by done.
  destruct (String.eqb k key) eqn:Hkey.
  - apply String.eqb_eq in Hkey as <-.
    destruct (dict_get other k) as [w|] eqn:Hw.
    + destruct Hk. eapply elem_dict_keys. by apply dict_get_elem.
    + apply dict_get_set_eq.
  - apply String.eqb_neq in Hkey.
    destruct (dict_get other key); [done|]. by apply dict_get_set_ne.
Qed.

(** The prediction kept for a record always starts with the five fields of
    the schema, in order. Either the API answer was accepted, and the four
    predicted fields are the non-blank strings of the answer, or it was
    not, and the prediction is the empty one. The address is that of the
    record unless the answer itself has a ["Contract Address"] member,
    which then replaces it. *)
Theorem prediction_of_shape (address : string) (result : json) :
  (∀ members, result = JObj members → NoDup (dict_keys members)) →
  let prediction := prediction_of address result in
  take 5 (dict_keys prediction) = dict_keys (empty_prediction address)
  ∧ ((accepted result = true
      ∧ ∀ field, field ∈ required_fields →
          ∃ text, dict_get prediction field = Some (JStr text)
                  ∧ blank text = false
                  ∧ getitem result field = Ok (JStr text))
     ∨ (accepted result = false ∧ prediction = empty_prediction address))
  ∧ (dict_get prediction "Contract Address" = Some (JStr address)
     ∨ ∃ v, getitem result "Contract Address" = Ok v
            ∧ dict_get prediction "Contract Address" = Some v).
Proof.
  intros Hnd. cbv zeta. unfold prediction_of, accepted.
  destruct (truthy result && validate_prediction result) eqn:Hacc.
  - apply andb_true_iff in Hacc as [_ Hvalid].
    apply validate_prediction_fields in Hvalid as (members & -> & Hfields).
    specialize (Hnd members eq_refl).
    split_and!.
    + destruct (dict_keys_update members (empty_prediction address)) as [extra ->].
      by apply take_app_length'.
    + left. split; [done|]. intros field Hfield.
      destruct (Hfields field Hfield) as (text & Hget & Hb).
      exists text. rewrite dict_get_update, Hget by done. split; [done|]. split; [done|].
      unfold getitem. by rewrite Hget.
    + rewrite dict_get_update by done. unfold getitem.
      destruct (dict_get members "Contract Address") as [v|]; [right; eauto|by left].
  - split_and!; [done|by right|by left].
Qed.

Lemma prediction_of_shape_witness :
  let result :=
    JObj [("Project Name", JStr "Uniswap"); ("Public Name Tag", JStr "Uniswap V3: Router");
          ("UI/Website Link", JStr "uniswap.org"); ("Public Note", JStr "Swap router");
          ("Confidence", JFloat 0.5%float)] in
  (∀ members, result = JObj members → NoDup (dict_keys members))
  ∧ let prediction := prediction_of "eip155:1:0xE592" result in
    take 5 (dict_keys prediction) = dict_keys (empty_prediction "eip155:1:0xE592")
    ∧ ((accepted result = true
        ∧ ∀ field, field ∈ required_fields →
            ∃ text, dict_get prediction field = Some (JStr text)
                    ∧ blank text = false
                    ∧ getitem result field = Ok (JStr text))
       ∨ (accepted result = false ∧ prediction = empty_prediction "eip155:1:0xE592"))
    ∧ (dict_get prediction "Contract Address" = Some (JStr "eip155:1:0xE592")
       ∨ ∃ v, getitem result "Contract Address" = Ok v
              ∧ dict_get prediction "Contract Address" = Some v).
Proof.
  cbv zeta.
  assert (Hnd : ∀ members,
            JObj [("Project Name", JStr "Uniswap"); ("Public Name Tag", JStr "Uniswap V3: Router");
                  ("UI/Website Link", JStr "uniswap.org"); ("Public Note", JStr "Swap router");
                  ("Confidence", JFloat 0.5%float)] = JObj members →
            NoDup (dict_keys members)).
  { intros members [= <-]. apply (bool_decide_unpack _). by vm_compute. }
  split; [exact Hnd|].
  exact (prediction_of_shape "eip155:1:0xE592" _ Hnd).
Defined.

(** ** The loop of [main] *)

Lemma get_chain_name_total address :
  String.length address ≤ MAX_STR_DIGITS → get_chain_name address = Ok (chain_of address).
Proof.
  intros Hlen. unfold chain_of, get_chain_name.
  destruct (match_chain_id address) as [group|] eqn:Hm; [|done].
  apply match_chain_id_length in Hm. by rewrite py_int_ok by lia.
Qed.

Section MainFacts.
Variable query_perplexity : nat → string → string → json.

Lemma process_entry_ok s entry address :
  entry_address entry = Some address → String.length address ≤ MAX_STR_DIGITS →
  process_entry query_perplexity s entry
  = Ok {| written := written s ++ [prediction_of address (answer query_perplexity (requests s) address)];
          predictions := predictions s
                         ++ [prediction_of address (answer query_perplexity (requests s) address)];
          failed_addresses :=
            failed_addresses s
            ++ (if accepted (answer query_perplexity (requests s) address) then [] else [address]);
          requests := S (requests s) |}.
Proof.
  intros Haddr Hlen. unfold process_entry, entry_address, getitem in *.
  destruct entry as [| | | | | |members]; try done.
  destruct (dict_get members "Contract Address") as [[| | | |a| |]|]; try done.
  injection Haddr as ->. cbn [mbind py_bind].
  rewrite get_chain_name_total by done. cbn [mbind py_bind mret py_ret].
  unfold answer, accepted. f_equal. f_equal.
  destruct (truthy _ && validate_prediction _); [by rewrite app_nil_r|done].
Qed.

Lemma process_entry_raises s entry :
  entry_address entry = None →
  process_entry query_perplexity s entry = Raise KeyError
  ∨ process_entry query_perplexity s entry = Raise TypeError.
Proof.
  intros Haddr. unfold process_entry, entry_address, getitem in *.
  destruct entry as [| | | | | |members]; try (by right).
  destruct (dict_get members "Contract Address") as [[| | | |a| |]|]; try done;
    try (by right). by left.
Qed.

Lemma main_loop_app entries1 entries2 : ∀ s,
  main_loop query_perplexity (entries1 ++ entries2) s
  = match main_loop query_perplexity entries1 s with
    | (Ok _, s') => main_loop query_perplexity entries2 s'
    | (Raise e, s') => (Raise e, s')
    end.
Proof.
  induction entries1 as [|entry entries1 IH]; intros s; [done|].
  cbn [app main_loop]. destruct (process_entry query_perplexity s entry); [apply IH|done].
Qed.

(** The loop on entries that all carry an address, in closed form. *)
Lemma main_loop_closed entries : ∀ s,
  Forall entry_ok entries →
  main_loop query_perplexity entries s
  = (Ok tt,
     {| written := written s ++ outputs query_perplexity (requests s) (omap entry_address entries);
        predictions :=
          predictions s ++ outputs query_perplexity (requests s) (omap entry_address entries);
        failed_addresses :=
          failed_addresses s
          ++ failures query_perplexity (requests s) (omap entry_address entries);
        requests := requests s + length entries |}).
Proof.
  induction entries as [|entry entries IH]; intros s Hok.
  - simpl. rewrite !app_nil_r, Nat.add_0_r. by destruct s.
  - apply Forall_cons in Hok as [(address & Haddr & Hlen) Hok].
    cbn [main_loop]. rewrite (process_entry_ok s entry address) by done.
    rewrite IH by done. cbn [written predictions failed_addresses requests omap list_omap].
    rewrite Haddr. cbn [outputs failures length].
    rewrite <- !app_assoc. cbn [app].
    replace (S (requests s) + length entries) with (requests s + S (length entries)) by lia.
    by destruct (accepted _).
Qed.

Lemma omap_entry_address entries :
  Forall entry_ok entries →
  length (omap entry_address entries) = length entries
  ∧ ∀ i entry address, entries !! i = Some entry → entry_address entry = Some address →
      omap entry_address entries !! i = Some address.
Proof.
  induction 1 as [|entry entries (a & Ha & _) Hok [IHlen IH]]; [done|].
  cbn [omap list_omap]. rewrite Ha. split; [simpl; by rewrite IHlen|].
  intros [|i] entry' address Hi Haddr; simpl in *.
  - injection Hi as <-. congruence.
  - by eapply IH.
Qed.

Lemma length_outputs addresses : ∀ k, length (outputs query_perplexity k addresses) = length addresses.
Proof. induction addresses as [|a l IH]; intros k; simpl; [done|]. by rewrite IH. Qed.

Lemma lookup_outputs addresses : ∀ k i address,
  addresses !! i = Some address →
  outputs query_perplexity k addresses !! i
  = Some (prediction_of address (answer query_perplexity (k + i) address)).
Proof.
  induction addresses as [|a l IH]; intros k [|i] address Hi; simpl in *; try done.
  - injection Hi as ->. by rewrite Nat.add_0_r.
  - rewrite (IH (S k) i address Hi). by rewrite Nat.add_succ_comm.
Qed.

Lemma elem_of_failures addresses : ∀ k address,
  address ∈ failures query_perplexity k addresses
  ↔ ∃ i, addresses !! i = Some address
         ∧ accepted (answer query_perplexity (k + i) address) = false.
Proof.
  induction addresses as [|a l IH]; intros k address.
  - split; [by intros ?%elem_of_nil|by intros (i & ? & _)].
  - cbn [failures]. split.
    + destruct (accepted (answer query_perplexity k a)) eqn:Hacc.
      * intros Hin. apply IH in Hin as (i & Hi & Hfail). exists (S i).
        split; [done|]. by rewrite <- Nat.add_succ_comm.
      * intros Hin. apply elem_of_cons in Hin as [->|Hin].
        -- exists 0. split; [done|]. by rewrite Nat.add_0_r.
        -- apply IH in Hin as (i & Hi & Hfail). exists (S i).
           split; [done|]. by rewrite <- Nat.add_succ_comm.
    + intros ([|i] & Hi & Hfail); simpl in Hi.
      * injection Hi as ->. rewrite Nat.add_0_r in Hfail. rewrite Hfail. left.
      * assert (Hin : address ∈ failures query_perplexity (S k) l).
        { apply IH. exists i. split; [done|]. by rewrite Nat.add_succ_comm. }
        destruct (accepted (answer query_perplexity k a)); [done|by right].
Qed.

Lemma length_failures addresses : ∀ k,
  length (failures query_perplexity k addresses) ≤ length addresses.
Proof.
  induction addresses as [|a l IH]; intros k; simpl; [done|].
  specialize (IH (S k)). destruct (accepted _); simpl; lia.
Qed.

(** When every entry carries an address, the loop ends normally after one
    API request per entry, and the output file is aligned with the input:
    it has one line per entry, line [i] is the prediction made for the
    address of entry [i] from the answer to request [i], and [predictions]
    holds the same list. [failed_addresses] lists the addresses whose answer
    was not accepted. *)
Theorem main_aligned (entries : list json) :
  Forall entry_ok entries →
  ∃ s,
    main_loop query_perplexity entries start = (Ok tt, s)
    ∧ main query_perplexity entries = s
    ∧ length (written s) = length entries
    ∧ predictions s = written s
    ∧ requests s = length entries
    ∧ (∀ i entry address,
         entries !! i = Some entry → entry_address entry = Some address →
         written s !! i
         = Some (prediction_of address (answer query_perplexity i address)))
    ∧ (∀ address,
         address ∈ failed_addresses s
         ↔ ∃ i entry, entries !! i = Some entry ∧ entry_address entry = Some address
                      ∧ accepted (answer query_perplexity i address) = false)
    ∧ length (failed_addresses s) ≤ length entries.
Proof.
  intros Hok. destruct (omap_entry_address entries Hok) as [Hlen Hlookup].
  eexists. split; [by apply main_loop_closed|].
  unfold main. rewrite main_loop_closed by done.
  cbn [snd written predictions failed_addresses requests start app].
  split_and!; try done.
  - by rewrite length_outputs.
  - intros i entry address Hi Haddr.
    by rewrite (lookup_outputs _ 0 i address (Hlookup i entry address Hi Haddr)).
  - intros address. rewrite elem_of_failures. split.
    + intros (i & Hi & Hfail).
      destruct (lookup_lt_is_Some_2 entries i) as [entry Hentry].
      { apply lookup_lt_Some in Hi. lia. }
      exists i, entry. split; [done|]. split; [|done].
      destruct (proj1 (Forall_lookup _ _) Hok i entry Hentry) as (a & Ha & _).
      rewrite (Hlookup i entry a Hentry Ha) in Hi. congruence.
    + intros (i & entry & Hi & Haddr & Hfail). exists i. split; [|done].
      by eapply Hlookup.
  - etrans; [apply length_failures|]. by rewrite Hlen.
Qed.

(** An entry without a string under ["Contract Address"] stops the run
    with a [KeyError] or a [TypeError], which [main] swallows: the output
    then holds the lines of the entries before it and nothing for the
    entries after it. *)
Theorem main_truncates (good : list json) (bad : json) (rest : list json) :
  Forall entry_ok good → entry_address bad = None →
  ∃ e s,
    main_loop query_perplexity (good ++ bad :: rest) start = (Raise e, s)
    ∧ (e = KeyError ∨ e = TypeError)
    ∧ main_loop query_perplexity good start = (Ok tt, s)
    ∧ main query_perplexity (good ++ bad :: rest) = main query_perplexity good
    ∧ length (written (main query_perplexity (good ++ bad :: rest))) = length good.
Proof.
  intros Hok Hbad. destruct (omap_entry_address good Hok) as [Hlen _].
  pose proof (main_loop_closed good start Hok) as Hgood.
  unfold main. rewrite main_loop_app, Hgood. cbn [main_loop].
  destruct (process_entry_raises
              {| written := written start ++ outputs query_perplexity (requests start)
                                                (omap entry_address good);
                 predictions := predictions start ++ outputs query_perplexity (requests start)
                                                        (omap entry_address good);
                 failed_addresses := failed_addresses start
                                     ++ failures query_perplexity (requests start)
                                          (omap entry_address good);
                 requests := requests start + length good |} bad Hbad) as [-> | ->];
    eexists _, _; (split; [done|]); (split; [eauto|]); (split; [done|]);
    (split; [done|]); cbn [snd written start app]; by rewrite length_outputs.
Qed.

End MainFacts.

(** ** The statements above on the sample run *)

Lemma sample_entries_ok : Forall entry_ok sample_entries.
Proof.
  repeat constructor; eexists; (split; [reflexivity|vm_compute; lia]).
Qed.

Lemma main_aligned_witness :
  Forall entry_ok sample_entries
  ∧ ∃ s,
      main_loop sample_api sample_entries start = (Ok tt, s)
      ∧ main sample_api sample_entries = s
      ∧ length (written s) = length sample_entries
      ∧ predictions s = written s
      ∧ requests s = length sample_entries
      ∧ (∀ i entry address,
           sample_entries !! i = Some entry → entry_address entry = Some address →
           written s !! i = Some (prediction_of address (answer sample_api i address)))
      ∧ (∀ address,
           address ∈ failed_addresses s
           ↔ ∃ i entry, sample_entries !! i = Some entry ∧ entry_address entry = Some address
                        ∧ accepted (answer sample_api i address) = false)
      ∧ length (failed_addresses s) ≤ length sample_entries.
Proof.
  split; [exact sample_entries_ok|].
  exact (main_aligned sample_api sample_entries sample_entries_ok).
Defined.

Lemma main_truncates_witness :
  Forall entry_ok sample_entries
  ∧ entry_address (JObj [("address", JStr "0x00")]) = None
  ∧ ∃ e s,
      main_loop sample_api (sample_entries ++ JObj [("address", JStr "0x00")] :: sample_entries)
                start = (Raise e, s)
      ∧ (e = KeyError ∨ e = TypeError)
      ∧ main_loop sample_api sample_entries start = (Ok tt, s)
      ∧ main sample_api (sample_entries ++ JObj [("address", JStr "0x00")] :: sample_entries)
        = main sample_api sample_entries
      ∧ length (written (main sample_api
                           (sample_entries ++ JObj [("address", JStr "0x00")] :: sample_entries)))
        = length sample_entries.
Proof.
  split; [exact sample_entries_ok|]. split; [reflexivity|].
  exact (main_truncates sample_api sample_entries (JObj [("address", JStr "0x00")])
           sample_entries sample_entries_ok eq_refl).
Defined.

(** The sample run: the first line carries the four predicted fields, the
    second is the empty prediction and its address is reported as failed. *)
Example sample_run :
  let s := main sample_api sample_entries in
  written s
  = [ [("Contract Address", JStr "eip155:1:0xE592427A0AEce92De3Edee1F18E0157C05861564");
       ("Project Name", JStr "Uniswap");
       ("Public Name Tag", JStr "Uniswap V3: Router");
       ("UI/Website Link", JStr "uniswap.org");
       ("Public Note", JStr "Swap router on Ethereum")];
      empty_prediction "eip155:137:0x7ceB23fD6bC0adD59E62ac25578270cFf1b9f619" ]
  ∧ failed_addresses s = ["eip155:137:0x7ceB23fD6bC0adD59E62ac25578270cFf1b9f619"].
Proof. by vm_compute. Qed.

(** Leading zeros do not change the chain; an unknown id and a missing
    second colon both give ["Unknown"] and no domain. *)
Example chain_names :
  get_chain_name "eip155:0010:0xabc" = Ok "Optimism"
  ∧ get_explorer_domain_to_block "eip155:100:0xabc" = Ok ["-gnosisscan.io"]
  ∧ get_chain_name "eip155:100:0xabc" = Ok "Unknown"
  ∧ get_chain_name "eip155:1" = Ok "Unknown"
  ∧ get_explorer_domain_to_block "0xabc" = Ok [].
Proof. by vm_compute. Qed.

(** * The comparison of model outputs *)

(** ** Characters and substrings *)

Lemma contains_char_Forall c s :
  contains_char c s = false ↔ Forall (λ x, x ≠ c) (list_ascii_of_string s).
Proof.
  induction s as [|c' s IH]; simpl; [done|].
  rewrite orb_false_iff, Forall_cons, IH, Ascii.eqb_neq. done.
Qed.

Lemma Forall_lstrip (P : ascii → Prop) s :
  Forall P (list_ascii_of_string s) → Forall P (list_ascii_of_string (lstrip s)).
Proof.
  induction s as [|c s IH]; simpl; [done|]. intros Hall.
  destruct (is_space c); [|done]. apply IH. by apply Forall_cons in Hall as [_ ?].
Qed.

Lemma Forall_rstrip (P : ascii → Prop) s :
  Forall P (list_ascii_of_string s) → Forall P (list_ascii_of_string (rstrip s)).
Proof.
  induction s as [|c s IH]; simpl; [done|]. intros Hall.
  apply Forall_cons in Hall as [Hc Hall]. specialize (IH Hall).
  destruct (rstrip s) as [|c' t].
  - destruct (is_space c); simpl; [done|by constructor].
  - simpl. by constructor.
Qed.

Lemma Forall_strip (P : ascii → Prop) s :
  Forall P (list_ascii_of_string s) → Forall P (list_ascii_of_string (strip s)).
Proof. intros Hall. by apply Forall_rstrip, Forall_lstrip. Qed.

Lemma chars_lower s :
  list_ascii_of_string (lower s) = map lower_ascii (list_ascii_of_string s).
Proof. induction s as [|c s IH]; simpl; [done|]. by rewrite IH. Qed.

Lemma chars_replace_char a b s :
  list_ascii_of_string (replace_char a b s)
  = map (λ c, if Ascii.eqb c a then b else c) (list_ascii_of_string s).
Proof. induction s as [|c s IH]; simpl; [done|]. by rewrite IH. Qed.

Lemma chars_append (s t : string) :
  list_ascii_of_string (s ++ t) = list_ascii_of_string s ++ list_ascii_of_string t.
Proof. induction s as [|c s IH]; simpl; [done|]. by rewrite IH. Qed.

Lemma lower_ascii_normal c :
  c ≠ ":"%char → c ≠ newline →
  is_upper (lower_ascii c) = false
  ∧ lower_ascii c ≠ ":"%char ∧ lower_ascii c ≠ newline.
Proof.
  destruct c as [[] [] [] [] [] [] [] []]; intros Hcolon Hnl; split_and!; done.
Qed.

(** ** [str.strip] is idempotent *)

Lemma rstrip_head c s : is_space c = false → ∃ t, rstrip (String c s) = String c t.
Proof.
  intros Hc. simpl. destruct (rstrip s); [rewrite Hc|]; eauto.
Qed.

Lemma rstrip_idempotent s : rstrip (rstrip s) = rstrip s.
Proof.
  induction s as [|c s IH]; simpl; [done|].
  destruct (rstrip s) as [|c' t] eqn:Hr.
  - destruct (is_space c) eqn:Hc; [done|]. simpl. by rewrite Hc.
  - cbn [rstrip] in *. by rewrite IH.
Qed.

Lemma lstrip_fixed s :
  match s with
  | EmptyString => True
  | String c _ => is_space c = false
  end → lstrip s = s.
Proof. destruct s as [|c s]; simpl; [done|]. by intros ->. Qed.

Lemma strip_idempotent s : strip (strip s) = strip s.
Proof.
  unfold strip.
  assert (Hl : lstrip (rstrip (lstrip s)) = rstrip (lstrip s)).
  { apply lstrip_fixed. destruct (lstrip s) as [|c t] eqn:Hs; [done|].
    pose proof (lstrip_head _ _ _ Hs) as Hc.
    destruct (rstrip_head c t Hc) as [u ->]. done. }
  by rewrite Hl, rstrip_idempotent.
Qed.

(** ** Strings without whitespace at their ends *)

Lemma strip_head s c t : strip s = String c t → is_space c = false.
Proof.
  unfold strip. destruct (lstrip s) as [|c' t'] eqn:Hl; [done|].
  pose proof (lstrip_head _ _ _ Hl) as Hc'.
  destruct (rstrip_head c' t' Hc') as [u ->]. by intros [= <- _].
Qed.

Lemma rstrip_last s c :
  last (list_ascii_of_string (rstrip s)) = Some c → is_space c = false.
Proof.
  induction s as [|c' s IH]; simpl; [done|].
  destruct (rstrip s) as [|c'' t].
  - destruct (is_space c') eqn:Hc; simpl; [done|]. by intros [= <-].
  - simpl. exact IH.
Qed.

Lemma rstrip_fixed s :
  (∀ c, last (list_ascii_of_string s) = Some c → is_space c = false) → rstrip s = s.
Proof.
  induction s as [|c s IH]; simpl; [done|]. intros Hlast.
  destruct s as [|c' s'].
  - simpl. by rewrite (Hlast c).
  - rewrite IH; [done|]. intros c0 Hc0. apply Hlast.
    cbn [list_ascii_of_string] in *. by rewrite last_cons_cons.
Qed.

Lemma strip_fixed s :
  match s with
  | EmptyString => True
  | String c _ => is_space c = false
  end →
  (∀ c, last (list_ascii_of_string s) = Some c → is_space c = false) →
  strip s = s.
Proof.
  intros Hhead Hlast. unfold strip. rewrite lstrip_fixed by done. by apply rstrip_fixed.
Qed.

Lemma strip_last s c :
  last (list_ascii_of_string (strip s)) = Some c → is_space c = false.
Proof. apply rstrip_last. Qed.

Lemma normalize_char_space c :
  is_space c = false →
  is_space (if Ascii.eqb (lower_ascii c) " " then "_"%char else lower_ascii c) = false.
Proof. destruct c as [[] [] [] [] [] [] [] []]; done. Qed.

Lemma normalize_key_normal key :
  Forall (λ c, c ≠ ":"%char ∧ c ≠ newline) (list_ascii_of_string key) →
  key_normal (normalize_key key).
Proof.
  intros Hkey. unfold key_normal, normalize_key. split.
  - rewrite chars_replace_char, chars_lower, !Forall_fmap.
    eapply Forall_impl; [apply Forall_strip, Hkey|].
    intros c [Hcolon Hnl]. cbn [compose].
    destruct (lower_ascii_normal c Hcolon Hnl) as (Hup & Hc & Hn).
    destruct (Ascii.eqb (lower_ascii c) " ") eqn:Hsp.
    + split_and!; done.
    + apply Ascii.eqb_neq in Hsp. done.
  - apply strip_fixed.
    + destruct (strip key) as [|c t] eqn:Hs; [done|]. simpl.
      apply normalize_char_space. by eapply strip_head.
    + intros c. rewrite chars_replace_char, chars_lower, <- list_fmap_compose, fmap_last.
      destruct (last (list_ascii_of_string (strip key))) as [c0|] eqn:Hlast; [|done].
      intros [= <-]. cbn [compose]. apply normalize_char_space. by eapply strip_last.
Qed.

(** ** Splitting *)

Lemma split_once_two sep s :
  contains_char sep s = true →
  ∃ key value,
    split_once sep s = [key; value]
    ∧ contains_char sep key = false
    ∧ s = (key ++ String sep value)%string.
Proof.
  induction s as [|c s IH]; simpl; [done|].
  destruct (Ascii.eqb c sep) eqn:Hc.
  - apply Ascii.eqb_eq in Hc as ->. intros _. by exists EmptyString, s.
  - simpl. intros Hs. destruct (IH Hs) as (key & value & -> & Hkey & ->).
    exists (String c key), value. simpl. by rewrite Hc.
Qed.

Lemma split_char_lines sep (P : ascii → Prop) s :
  Forall P (list_ascii_of_string s) →
  Forall (λ line, contains_char sep line = false
                  ∧ Forall P (list_ascii_of_string line)) (split_char sep s).
Proof.
  induction s as [|c s IH]; simpl; intros Hall; [by repeat constructor|].
  apply Forall_cons in Hall as [Hc Hall]. specialize (IH Hall).
  destruct (Ascii.eqb c sep) eqn:Heq.
  - constructor; [by split|done].
  - destruct (split_char sep s) as [|w ws]; [by repeat constructor; simpl; rewrite ?Heq|].
    apply Forall_cons in IH as [[Hw1 Hw2] IH]. constructor; [|done].
    simpl. rewrite Heq. split; [done|by constructor].
Qed.

(** ** The parsed output *)

Lemma parse_line_normal parsed_output line :
  contains_char newline line = false → parsed_normal parsed_output →
  ∃ parsed_output',
    parse_line parsed_output line = Ok parsed_output' ∧ parsed_normal parsed_output'.
Proof.
  intros Hline Hnormal. unfold parse_line.
  destruct (contains_char ":" line) eqn:Hcolon; [|by exists parsed_output].
  destruct (split_once_two _ _ Hcolon) as (key & value & -> & Hkey & ->).
  eexists. split; [done|]. intros k v Hkv.
  apply contains_char_Forall in Hline. rewrite chars_append in Hline.
  apply Forall_app in Hline as [Hk Hv]. simpl in Hv. apply Forall_cons in Hv as [_ Hv].
  destruct (decide (k = normalize_key key)) as [->|Hne].
  - rewrite lookup_insert_eq in Hkv. injection Hkv as <-. split.
    + apply normalize_key_normal. apply contains_char_Forall in Hkey.
      apply Forall_forall. intros c Hc. split.
      * by apply (proj1 (Forall_forall _ _) Hkey).
      * by apply (proj1 (Forall_forall _ _) Hk).
    + split; [apply strip_idempotent|]. by apply contains_char_Forall, Forall_strip.
  - rewrite lookup_insert_ne in Hkv by done. by apply Hnormal.
Qed.

Lemma parse_lines_normal lines : ∀ parsed_output,
  Forall (λ line, contains_char newline line = false) lines → parsed_normal parsed_output →
  ∃ parsed_output',
    foldM parse_line lines parsed_output = Ok parsed_output' ∧ parsed_normal parsed_output'.
Proof.
  induction lines as [|line lines IH]; intros parsed_output Hlines Hnormal.
  - by exists parsed_output.
  - apply Forall_cons in Hlines as [Hline Hlines].
    destruct (parse_line_normal parsed_output line Hline Hnormal) as (p1 & Hstep & Hn1).
    destruct (IH p1 Hlines Hn1) as (p2 & Hrun & Hn2).
    exists p2. cbn [foldM]. rewrite Hstep. done.
Qed.

Lemma parse_output_normal actual :
  ∃ parsed_output,
    foldM parse_line (split_char newline (strip actual)) ∅ = Ok parsed_output
    ∧ parsed_normal parsed_output.
Proof.
  apply parse_lines_normal.
  - eapply Forall_impl; [apply (split_char_lines newline (λ _, True))|].
    + apply Forall_forall. done.
    + by intros line [? _].
  - intros key value Hkv. by rewrite lookup_empty in Hkv.
Qed.

(** ** Equality of the two dicts *)

Lemma value_eqb_spec v s : value_eqb v s = true ↔ v = JStr s.
Proof.
  destruct v as [| | | |t| |]; simpl; try (split; [done|by intros [=]]).
  rewrite String.eqb_eq. split; [by intros ->|by intros [= ->]].
Qed.

Lemma dict_eqb_spec (parsed_output : gmap string string) (expected : gmap string json) :
  dict_eqb parsed_output expected = true ↔ expected = JStr <$> parsed_output.
Proof.
  unfold dict_eqb. rewrite andb_true_iff, bool_decide_eq_true, forallb_forall. split.
  - intros [Hdom Hall]. apply map_eq. intros key. rewrite lookup_fmap.
    destruct (parsed_output !! key) as [s|] eqn:Hkey; simpl.
    + specialize (Hall (key, s)). cbn [fst snd] in Hall.
      destruct (expected !! key) as [v|].
      * f_equal. apply value_eqb_spec, Hall.
        by apply list_elem_of_In, elem_of_map_to_list.
      * exfalso. assert (false = true); [|done].
        by apply Hall, list_elem_of_In, elem_of_map_to_list.
    + apply not_elem_of_dom. rewrite <- Hdom. by apply not_elem_of_dom.
  - intros ->. split; [by rewrite dom_fmap_L|].
    intros [key s] Hin. apply list_elem_of_In, elem_of_map_to_list in Hin.
    cbn [fst snd]. rewrite lookup_fmap, Hin. simpl. apply String.eqb_refl.
Qed.

(** ** The scores *)

Lemma compare_body_ok expected actual :
  ∃ parsed_output,
    foldM parse_line (split_char newline (strip actual)) ∅ = Ok parsed_output
    ∧ parsed_normal parsed_output
    ∧ _compare expected actual
      = Ok {| accuracy := if dict_eqb parsed_output expected then 1 else 0;
              completeness :=
                match filter (λ field, parsed_output !! field = None)
                             required_output_fields with
                | [] => 1
                | _ => 0
                end;
              formatting :=
                if 50 <? String.length (default EmptyString (parsed_output !! "public_name_tag"))
                then 0 else 1;
              errors :=
                if 50 <? String.length (default EmptyString (parsed_output !! "public_name_tag"))
                then ["Tag exceeds 50 characters"] else [] |}.
Proof.
  destruct (parse_output_normal actual) as (parsed_output & Hparse & Hnormal).
  exists parsed_output. split; [done|]. split; [done|].
  unfold _compare, compare_body. rewrite Hparse. cbn [mbind py_bind mret py_ret].
  by destruct (50 <? _).
Qed.

(** [_compare] never takes one of its [except] branches. Each score is 0.0
    or 1.0: accuracy is 1.0 exactly when the expected dict is the parsed
    one, completeness exactly when the three required keys were parsed,
    formatting exactly when the parsed name tag has at most 50 characters,
    and the only possible error message is the one about the tag. The
    sample is recorded as correct exactly when the three scores are 1.0,
    so the 0.9 threshold on accuracy never matters. *)
Theorem eval_sample_spec (expected : gmap string json) (response : string) :
  ∃ parsed_output result,
    foldM parse_line (split_char newline (strip response)) ∅ = Ok parsed_output
    ∧ _compare expected response = Ok result
    ∧ eval_sample expected response = Ok (result, correct result)
    ∧ (accuracy result = 1%Q ∧ expected = JStr <$> parsed_output
       ∨ accuracy result = 0%Q ∧ expected ≠ JStr <$> parsed_output)
    ∧ (completeness result = 1%Q
         ∧ (∀ field, field ∈ required_output_fields → is_Some (parsed_output !! field))
       ∨ completeness result = 0%Q
         ∧ ∃ field, field ∈ required_output_fields ∧ parsed_output !! field = None)
    ∧ (formatting result = 1%Q ∧ errors result = []
         ∧ String.length (default EmptyString (parsed_output !! "public_name_tag")) ≤ 50
       ∨ formatting result = 0%Q ∧ errors result = ["Tag exceeds 50 characters"]
         ∧ 50 < String.length (default EmptyString (parsed_output !! "public_name_tag")))
    ∧ (correct result = true
       ↔ accuracy result = 1%Q ∧ completeness result = 1%Q ∧ formatting result = 1%Q).
Proof.
  destruct (compare_body_ok expected response) as (parsed_output & Hparse & _ & Hrun).
  eexists parsed_output, _. split; [done|]. split; [exact Hrun|].
  unfold eval_sample. rewrite Hrun. cbn [mbind py_bind mret py_ret].
  split; [done|]. cbn [accuracy completeness formatting errors]. split_and!.
  - destruct (dict_eqb parsed_output expected) eqn:Heq.
    + left. split; [done|]. by apply dict_eqb_spec.
    + right. split; [done|]. intros Hexp. apply dict_eqb_spec in Hexp. congruence.
  - destruct (filter _ required_output_fields) as [|field missing] eqn:Hmissing.
    + left. split; [done|]. intros field Hfield.
      destruct (parsed_output !! field) as [v|] eqn:Hv; [done|].
      assert (Hin : field ∈ filter (λ field, parsed_output !! field = None)
                                   required_output_fields)
        by (by apply list_elem_of_filter).
      rewrite Hmissing in Hin. by apply elem_of_nil in Hin.
    + right. split; [done|]. exists field.
      assert (Hin : field ∈ filter (λ field, parsed_output !! field = None)
                                   required_output_fields)
        by (rewrite Hmissing; left).
      apply list_elem_of_filter in Hin as [? ?]. done.
  - destruct (50 <? _) eqn:Hlen.
    + right. apply Nat.ltb_lt in Hlen. done.
    + left. apply Nat.ltb_ge in Hlen. done.
  - unfold correct. cbn [accuracy completeness formatting].
    destruct (dict_eqb parsed_output expected);
      destruct (filter _ required_output_fields);
      destruct (50 <? _); split; try done; by intros (? & ? & ?).
Qed.

(** A sample recorded as correct has an expected dict in the form that
    [_compare] parses. *)
Lemma correct_normal_form (expected : gmap string json) (response : string)
    (result : scores) :
  eval_sample expected response = Ok (result, true) →
  (∀ key v, expected !! key = Some v →
     key_normal key ∧ ∃ value, v = JStr value ∧ value_normal value)
  ∧ (∀ field, field ∈ required_output_fields → ∃ value, expected !! field = Some (JStr value))
  ∧ ∃ tag, expected !! "public_name_tag" = Some (JStr tag) ∧ String.length tag ≤ 50.
Proof.
  destruct (compare_body_ok expected response) as (parsed_output & _ & Hnormal & Hrun).
  unfold eval_sample. rewrite Hrun. cbn [mbind py_bind mret py_ret].
  intros [= <- Hcorrect]. unfold correct in Hcorrect.
  cbn [accuracy completeness formatting] in Hcorrect.
  destruct (dict_eqb parsed_output expected) eqn:Heq; [|done].
  apply dict_eqb_spec in Heq as ->.
  destruct (filter _ required_output_fields) as [|field missing] eqn:Hmissing; [|done].
  destruct (50 <? _) eqn:Hlen; [done|]. apply Nat.ltb_ge in Hlen.
  assert (Hrequired : ∀ field, field ∈ required_output_fields →
                        ∃ value, parsed_output !! field = Some value).
  { intros field Hfield. destruct (parsed_output !! field) as [v|] eqn:Hv; [eauto|].
    assert (Hin : field ∈ filter (λ field, parsed_output !! field = None)
                                 required_output_fields)
      by (by apply list_elem_of_filter).
    rewrite Hmissing in Hin. by apply elem_of_nil in Hin. }
  split_and!.
  - intros key v. rewrite lookup_fmap.
    destruct (parsed_output !! key) as [value|] eqn:Hkey; [|done].
    intros [= <-]. destruct (Hnormal key value Hkey). eauto.
  - intros field Hfield. destruct (Hrequired field Hfield) as [value Hvalue].
    exists value. by rewrite lookup_fmap, Hvalue.
  - destruct (Hrequired "public_name_tag") as [tag Htag].
    { right. left. }
    exists tag. rewrite lookup_fmap, Htag. split; [done|]. by rewrite Htag in Hlen.
Qed.

(** ** A response that matches *)

Lemma append_cons_assoc (a : string) c (b t : string) :
  ((a ++ String c b) ++ t)%string = (a ++ String c (b ++ t))%string.
Proof.
  induction a as [|c' a IH]; [done|].
  change (String c' ((a ++ String c b) ++ t) = String c' (a ++ String c (b ++ t)))%string.
  by rewrite IH.
Qed.

Lemma contains_char_append c (a b : string) :
  contains_char c (a ++ b) = contains_char c a || contains_char c b.
Proof. induction a as [|c' a IH]; simpl; [done|]. by rewrite IH, orb_assoc. Qed.

Lemma split_char_whole sep s : contains_char sep s = false → split_char sep s = [s].
Proof.
  induction s as [|c s IH]; simpl; [done|]. intros Hs.
  apply orb_false_iff in Hs as [Hc Hs]. by rewrite Hc, IH.
Qed.

Lemma split_char_append sep (a b : string) :
  contains_char sep a = false →
  split_char sep (a ++ String sep b) = a :: split_char sep b.
Proof.
  induction a as [|c a IH]; simpl.
  - intros _. by rewrite Ascii.eqb_refl.
  - intros Ha. apply orb_false_iff in Ha as [Hc Ha]. by rewrite Hc, IH.
Qed.

Lemma split_once_append sep (a b : string) :
  contains_char sep a = false → split_once sep (a ++ String sep b) = [a; b].
Proof.
  induction a as [|c a IH]; simpl.
  - intros _. by rewrite Ascii.eqb_refl.
  - intros Ha. apply orb_false_iff in Ha as [Hc Ha]. by rewrite Hc, IH.
Qed.

Lemma lower_fixed s :
  Forall (λ c, is_upper c = false) (list_ascii_of_string s) → lower s = s.
Proof.
  induction s as [|c s IH]; simpl; [done|]. intros Hall.
  apply Forall_cons in Hall as [Hc Hall]. rewrite IH by done. f_equal.
  unfold lower_ascii. unfold is_upper in Hc. cbv zeta in *. by rewrite Hc.
Qed.

Lemma replace_char_fixed a b s :
  Forall (λ c, c ≠ a) (list_ascii_of_string s) → replace_char a b s = s.
Proof.
  induction s as [|c s IH]; simpl; [done|]. intros Hall.
  apply Forall_cons in Hall as [Hc Hall]. rewrite IH by done.
  by apply Ascii.eqb_neq in Hc as ->.
Qed.

Lemma normalize_key_fixed key : key_normal key → normalize_key key = key.
Proof.
  intros [Hchars Hstrip]. unfold normalize_key. rewrite Hstrip.
  rewrite lower_fixed, replace_char_fixed; [done| |].
  - eapply Forall_impl; [exact Hchars|]. by intros c (_ & ? & _).
  - eapply Forall_impl; [exact Hchars|]. by intros c (? & _).
Qed.

Lemma parse_rendered_line parsed_output key value :
  pair_normal (key, value) →
  parse_line parsed_output (key ++ String ":" value) = Ok (<[key := value]> parsed_output).
Proof.
  intros [Hkey [Hvalue _]]. cbn [fst snd] in *. unfold parse_line.
  assert (Hcolon : contains_char ":" key = false).
  { apply contains_char_Forall. destruct Hkey as [Hchars _].
    eapply Forall_impl; [exact Hchars|]. by intros c (_ & _ & ? & _). }
  rewrite contains_char_append. simpl. rewrite orb_true_r.
  rewrite split_once_append by done. by rewrite normalize_key_fixed, Hvalue.
Qed.

Lemma parse_rendered_lines pairs : ∀ parsed_output,
  Forall pair_normal pairs →
  foldM parse_line (map (λ kv, fst kv ++ String ":" (snd kv))%string pairs) parsed_output
  = Ok (fold_left (λ parsed kv, <[fst kv := snd kv]> parsed) pairs parsed_output).
Proof.
  induction pairs as [|[key value] pairs IH]; intros parsed_output Hall; [done|].
  apply Forall_cons in Hall as [Hkv Hall]. cbn [map foldM fold_left fst snd].
  rewrite parse_rendered_line by done. cbn [mbind py_bind]. by apply IH.
Qed.

Lemma line_without_newline key value :
  pair_normal (key, value) → contains_char newline (key ++ String ":" value) = false.
Proof.
  intros [[Hchars _] [_ Hvalue]]. cbn [fst snd] in *.
  rewrite contains_char_append. simpl. rewrite Hvalue, orb_false_r.
  apply contains_char_Forall. eapply Forall_impl; [exact Hchars|]. by intros c (_ & _ & _ & ?).
Qed.

Lemma split_rendered pairs :
  pairs ≠ [] → Forall pair_normal pairs →
  split_char newline (render_lines pairs)
  = map (λ kv, fst kv ++ String ":" (snd kv))%string pairs.
Proof.
  induction pairs as [|[key value] pairs IH]; intros Hne Hall; [done|].
  apply Forall_cons in Hall as [Hkv Hall]. cbn [render_lines map fst snd].
  destruct pairs as [|kv pairs].
  - by rewrite split_char_whole by (by apply line_without_newline).
  - rewrite <- append_cons_assoc, split_char_append by (by apply line_without_newline).
    by rewrite IH.
Qed.

Lemma rendered_head pairs :
  Forall pair_normal pairs →
  match render_lines pairs with
  | EmptyString => True
  | String c _ => is_space c = false
  end.
Proof.
  destruct pairs as [|[key value] pairs]; [done|]. intros Hall.
  apply Forall_cons in Hall as [[[_ Hstrip] _] _]. cbn [fst snd] in *.
  cbn [render_lines].
  destruct key as [|c key].
  - destruct pairs; done.
  - assert (Hc : is_space c = false) by (by eapply strip_head).
    destruct pairs; done.
Qed.

Lemma line_last key value c :
  value_normal value →
  last (list_ascii_of_string (key ++ String ":" value)) = Some c → is_space c = false.
Proof.
  intros [Hstrip _]. rewrite chars_append. cbn [list_ascii_of_string].
  rewrite last_app, last_cons.
  destruct (last (list_ascii_of_string value)) as [c'|] eqn:Hlast.
  - intros [= <-]. apply (strip_last value). by rewrite Hstrip.
  - by intros [= <-].
Qed.

Lemma rendered_last pairs c :
  Forall pair_normal pairs →
  last (list_ascii_of_string (render_lines pairs)) = Some c → is_space c = false.
Proof.
  induction pairs as [|[key value] pairs IH]; intros Hall; [done|].
  apply Forall_cons in Hall as [[_ Hvalue] Hall]. cbn [fst snd] in *.
  cbn [render_lines]. destruct pairs as [|kv pairs].
  - by apply line_last.
  - rewrite <- append_cons_assoc, chars_append. cbn [list_ascii_of_string].
    rewrite last_app, last_cons.
    destruct (last (list_ascii_of_string (render_lines (kv :: pairs)))) as [c'|] eqn:Hlast.
    + intros [= <-]. by apply IH.
    + apply last_None in Hlast.
      destruct kv as [k v]. cbn [render_lines] in Hlast.
      destruct k; destruct pairs; done.
Qed.

Lemma parse_rendered pairs :
  pairs ≠ [] → Forall pair_normal pairs →
  foldM parse_line (split_char newline (strip (render_lines pairs))) ∅
  = Ok (fold_left (λ parsed kv, <[fst kv := snd kv]> parsed) pairs ∅).
Proof.
  intros Hne Hall.
  rewrite strip_fixed; [|by apply rendered_head|by intros c; apply rendered_last].
  rewrite split_rendered by done. by apply parse_rendered_lines.
Qed.

Lemma elem_of_rev {X : Type} (x : X) (l : list X) : x ∈ rev l ↔ x ∈ l.
Proof. rewrite !list_elem_of_In. symmetry. apply in_rev. Qed.

Lemma fold_insert_rev (m : gmap string string) :
  fold_left (λ parsed kv, <[fst kv := snd kv]> parsed) (rev (map_to_list m)) ∅ = m.
Proof.
  rewrite <- (fold_left_rev_right (λ kv parsed, <[fst kv := snd kv]> parsed)).
  rewrite rev_involutive. apply (list_to_map_to_list m).
Qed.

Lemma strings_of_fmap (expected : gmap string json) :
  (∀ key v, expected !! key = Some v → ∃ value, v = JStr value) →
  expected = JStr <$> strings_of expected.
Proof.
  intros Hstr. apply map_eq. intros key. unfold strings_of.
  rewrite lookup_fmap, lookup_omap.
  destruct (expected !! key) as [v|] eqn:Hkey; [|done].
  destruct (Hstr key v Hkey) as [value ->]. done.
Qed.

(** The expected dicts for which a sample can be recorded as correct are
    exactly those in the form that [_compare] parses: every key free of
    upper-case letters, spaces, colons and line feeds and without
    whitespace at its ends, every value a string on one line without
    surrounding whitespace, the three required keys present, and a name tag
    of at most 50 characters. For such a dict the response that lists its
    members as [key:value] lines is correct; for any other dict no response
    is. *)
Theorem correct_attainable_iff (expected : gmap string json) :
  (∃ response result, eval_sample expected response = Ok (result, true))
  ↔ expected_normal expected.
Proof.
  split.
  - intros (response & result & Hrun).
    destruct (correct_normal_form expected response result Hrun)
      as (Hnormal & Hrequired & tag & Htag & Hlen).
    split_and!.
    + done.
    + intros field Hfield. destruct (Hrequired field Hfield) as [value ->]. done.
    + intros tag'. rewrite Htag. by intros [= <-].
  - intros (Hnormal & Hrequired & Htag).
    set (parsed := strings_of expected).
    assert (Hexpected : expected = JStr <$> parsed).
    { apply strings_of_fmap. intros key v Hkey.
      destruct (Hnormal key v Hkey) as (_ & value & -> & _). eauto. }
    assert (Hlookup : ∀ key value, parsed !! key = Some value →
                        expected !! key = Some (JStr value)).
    { intros key value Hkey. by rewrite Hexpected, lookup_fmap, Hkey. }
    set (pairs := rev (map_to_list parsed)).
    assert (Hpairs : Forall pair_normal pairs).
    { apply Forall_forall. intros [key value] Hin.
      apply elem_of_rev, elem_of_map_to_list in Hin.
      destruct (Hnormal key _ (Hlookup key value Hin)) as (Hkey & value' & [= <-] & Hvalue).
      done. }
    assert (Hne : pairs ≠ []).
    { destruct (Hrequired "project_name") as [v Hv]; [left|].
      destruct (Hnormal _ _ Hv) as (_ & value & -> & _).
      assert (Hin : ("project_name", value) ∈ pairs).
      { apply elem_of_rev, elem_of_map_to_list. unfold parsed, strings_of.
        by rewrite lookup_omap, Hv. }
      intros Hnil. rewrite Hnil in Hin. by apply elem_of_nil in Hin. }
    exists (render_lines pairs).
    destruct (compare_body_ok expected (render_lines pairs))
      as (parsed' & Hparse & _ & Hrun).
    rewrite parse_rendered in Hparse by done. unfold pairs in Hparse.
    rewrite fold_insert_rev in Hparse. injection Hparse as <-.
    eexists. unfold eval_sample. rewrite Hrun. cbn [mbind py_bind mret py_ret].
    f_equal. f_equal. unfold correct. cbn [accuracy completeness formatting].
    assert (Heq : dict_eqb parsed expected = true) by (by apply dict_eqb_spec).
    rewrite Heq.
    destruct (filter (λ field, parsed !! field = None) required_output_fields)
      as [|field missing] eqn:Hmissing.
    2: { exfalso.
         assert (Hin : field ∈ filter (λ field, parsed !! field = None)
                                      required_output_fields)
           by (rewrite Hmissing; left).
         apply list_elem_of_filter in Hin as [Hnone Hfield].
         destruct (Hrequired field Hfield) as [v Hv].
         destruct (Hnormal _ _ Hv) as (_ & value & -> & _).
         unfold parsed, strings_of in Hnone. by rewrite lookup_omap, Hv in Hnone. }
    destruct (50 <? String.length (default EmptyString (parsed !! "public_name_tag")))
      eqn:Hlen; [|done].
    exfalso. apply Nat.ltb_lt in Hlen.
    destruct (Hrequired "public_name_tag") as [v Hv]; [right; left|].
    destruct (Hnormal _ _ Hv) as (_ & tag & -> & _).
    specialize (Htag tag Hv).
    assert (Hparsed : parsed !! "public_name_tag" = Some tag)
      by (unfold parsed, strings_of; by rewrite lookup_omap, Hv).
    rewrite Hparsed in Hlen. simpl in Hlen. lia.
Qed.

(** A response with loose spacing and mixed case in its keys. *)
Example eval_sample_example :
  eval_sample
    (<["project_name" := JStr "Uniswap"]>
       (<["public_name_tag" := JStr "Router"]> (<["ui_link" := JStr "uniswap.org"]> ∅)))
    ("Project Name: Uniswap"
     ++ String newline ("Public Name Tag: Router"
     ++ String newline " UI Link : uniswap.org "))
  = Ok ({| accuracy := 1; completeness := 1; formatting := 1; errors := [] |}, true).
Proof. by vm_compute. Qed.

(** * What a failed request costs in the evaluation *)

Lemma failed_record_members address :
  JStr <$> failed_record address = list_to_map (empty_prediction address).
Proof.
  unfold failed_record, empty_prediction. cbn [list_to_map fold_right fst snd].
  by rewrite !fmap_insert, fmap_empty.
Qed.

Lemma lower_empty s : lower s = EmptyString → s = EmptyString.
Proof. by destruct s. Qed.

Lemma calculate_similarity_empty_r s :
  s ≠ EmptyString → calculate_similarity s EmptyString = 0%Q.
Proof.
  intros Hs. pose proof (length_chars_nonempty s Hs) as Hlen.
  unfold calculate_similarity. cbn [lower list_ascii_of_string].
  rewrite (ratio_disjoint (list_ascii_of_string (lower s)) [])
    by (intros x _ Hx; by apply elem_of_nil in Hx).
  rewrite calculate_ratio_none. cbn [length]. rewrite Nat.add_0_r.
  by apply Nat.eqb_neq in Hlen as ->.
Qed.

Lemma cosine_value_empty_r s : cosine_value s EmptyString = 0%float.
Proof.
  unfold cosine_value.
  by rewrite (calculate_cosine_similarity_degenerate s EmptyString) by (by right).
Qed.

(** When the request for a record failed, the evaluator scores the line
    written for it as one hit on [Contract Address] and, wherever the
    ground truth has a value, one miss on each predicted field: exact and
    near match 0 with similarity 0.0 for the two NearMatch fields, exact
    match 0 for the link, and a Semantic verdict below the threshold with
    similarity 0.0. *)
Theorem failed_prediction_verdict (gt_entry : entry) (address : string)
    (results : list (dict (dict pyval))) (fm : gmap string metrics) :
  gt_entry !! "Contract Address" = Some address →
  ∃ entry_results fm',
    evaluate_pair (results, fm) (gt_entry, failed_record address)
    = Ok (results ++ [entry_results], fm')
    ∧ (∃ verdict, dict_get entry_results "Contract Address" = Some verdict
                  ∧ dict_get verdict "exact_match" = Some (PInt 1))
    ∧ (∀ field, field = "Public Name Tag" ∨ field = "Project Name" →
         ∃ verdict, dict_get entry_results field = Some verdict
                    ∧ (field_value gt_entry field ≠ EmptyString →
                       dict_get verdict "exact_match" = Some (PInt 0)
                       ∧ dict_get verdict "near_match" = Some (PInt 0)
                       ∧ dict_get verdict "similarity" = Some (PRatio 0)))
    ∧ (∃ verdict, dict_get entry_results "UI/Website Link" = Some verdict
                  ∧ (field_value gt_entry "UI/Website Link" ≠ EmptyString →
                     dict_get verdict "exact_match" = Some (PInt 0)))
    ∧ (∃ verdict, dict_get entry_results "Public Note" = Some verdict
                  ∧ dict_get verdict "meets_threshold" = Some (PInt 0)
                  ∧ dict_get verdict "similarity" = Some (PFloat 0)).
Proof.
  intros Haddress.
  destruct (evaluate_pair_closed results fm (gt_entry, failed_record address))
    as (fm' & Hstep & _).
  exists (record_verdict (gt_entry, failed_record address)), fm'.
  split; [exact Hstep|].
  assert (Hexact : ∀ s, s ≠ EmptyString →
            bool_decide (lower s = lower EmptyString) = false).
  { intros s Hs. apply bool_decide_eq_false. intros Hl. by apply lower_empty in Hl. }
  split_and!.
  - eexists. split; [reflexivity|]. cbn [fst snd]. unfold field_value.
    rewrite Haddress. unfold failed_record. rewrite lookup_insert_eq.
    unfold verdict_of, evaluate_exact_field. cbn.
    by rewrite bool_decide_eq_true_2.
  - intros field [-> | ->]; (eexists; split; [reflexivity|]); cbn [fst snd];
      intros Hgt; unfold verdict_of, evaluate_ner_field; cbn -[calculate_similarity lower];
      change (field_value (failed_record address) _) with EmptyString;
      rewrite (Hexact _ Hgt), (calculate_similarity_empty_r _ Hgt); done.
  - eexists. split; [reflexivity|]. cbn [fst snd]. intros Hgt.
    unfold verdict_of, evaluate_exact_field. cbn -[lower].
    change (field_value (failed_record address) _) with EmptyString.
    by rewrite (Hexact _ Hgt).
  - eexists. split; [reflexivity|]. cbn [fst snd].
    unfold verdict_of. cbn -[cosine_value].
    change (field_value (failed_record address) _) with EmptyString.
    by rewrite cosine_value_empty_r.
Qed.

Lemma failed_prediction_verdict_witness :
  let gt_entry : entry :=
    <["Contract Address" := "eip155:1:0xE592"]> (<["Project Name" := "Uniswap"]> ∅) in
  gt_entry !! "Contract Address" = Some "eip155:1:0xE592"
  ∧ ∃ entry_results fm',
      evaluate_pair ([], initial_metrics) (gt_entry, failed_record "eip155:1:0xE592")
      = Ok ([] ++ [entry_results], fm')
      ∧ (∃ verdict, dict_get entry_results "Contract Address" = Some verdict
                    ∧ dict_get verdict "exact_match" = Some (PInt 1))
      ∧ (∀ field, field = "Public Name Tag" ∨ field = "Project Name" →
           ∃ verdict, dict_get entry_results field = Some verdict
                      ∧ (field_value gt_entry field ≠ EmptyString →
                         dict_get verdict "exact_match" = Some (PInt 0)
                         ∧ dict_get verdict "near_match" = Some (PInt 0)
                         ∧ dict_get verdict "similarity" = Some (PRatio 0)))
      ∧ (∃ verdict, dict_get entry_results "UI/Website Link" = Some verdict
                    ∧ (field_value gt_entry "UI/Website Link" ≠ EmptyString →
                       dict_get verdict "exact_match" = Some (PInt 0)))
      ∧ (∃ verdict, dict_get entry_results "Public Note" = Some verdict
                    ∧ dict_get verdict "meets_threshold" = Some (PInt 0)
                    ∧ dict_get verdict "similarity" = Some (PFloat 0)).
Proof.
  cbv zeta. split; [reflexivity|].
  apply (failed_prediction_verdict
           (<["Contract Address" := "eip155:1:0xE592"]> (<["Project Name" := "Uniswap"]> ∅))
           "eip155:1:0xE592" [] initial_metrics).
  reflexivity.
Defined.
